(** * QA-Utils custom Playwright reporter: consolidation, attachments, history

    Shallow embedding of [src/majorupdate4.0v.ts] (class [MyCustomReporter]):
    the option normalisation of the constructor, the attempt accumulator
    [onTestEnd], the history loading of [onBegin], the attachment
    materialisation ([getEmbeddedAssetData], [processAttachment]) and the
    consolidation, counting and history upkeep of [onEnd]; and, of the
    page, the text helpers ([stripAnsiCodes], [escapeHtml],
    [highlightError]), the steps ([processSteps]), the grouping of the tests
    by project and the badge and the attachment sections of
    [generateSingleTestCase].  The markup templates, the stylesheet and the
    formatting of durations are not part of the embedding. *)

From Stdlib Require Import Ascii QArith Qminmax Lqa.
From stdpp Require Import base tactics option list gmap strings pretty sorting.

#[local] Set Warnings "-clear-no-such-hyp".

(** ** JavaScript numbers

    A TypeScript [number] is an IEEE double.  The reporter only compares
    numbers, takes [Math.min] / [Math.max] of them and tests their
    truthiness; none of these rounds, so a finite double is represented by
    the rational it denotes, next to the three special values. *)

Module Js.

Inductive number : Type :=
  | NaN
  | PosInf
  | NegInf
  | Fin (q : Q).

Definition of_Z (z : Z) : number := Fin (inject_Z z).

(** [Boolean(x)]: [NaN], [+0] and [-0] are falsy. *)
Definition truthy (x : number) : bool :=
  match x with
  | NaN => false
  | PosInf | NegInf => true
  | Fin q => negb (Qeq_bool q 0)
  end.

(** [x || d] on an optional number ([undefined] is falsy). *)
Definition or_default (x : option number) (d : number) : number :=
  match x with
  | Some v => if truthy v then v else d
  | None => d
  end.

(** [a < b]; every comparison with [NaN] is false. *)
Definition lt (a b : number) : bool :=
  match a, b with
  | NaN, _ | _, NaN => false
  | _, NegInf => false
  | NegInf, _ => true
  | PosInf, _ => false
  | Fin _, PosInf => true
  | Fin x, Fin y => negb (Qle_bool y x)
  end.

(** [a > b]. *)
Definition gt (a b : number) : bool := lt b a.

(** [Math.min(a, b)]: [NaN] if either argument is [NaN]. *)
Definition min (a b : number) : number :=
  match a, b with
  | NaN, _ | _, NaN => NaN
  | _, _ => if lt b a then b else a
  end.

(** [Math.max(a, b)]. *)
Definition max (a b : number) : number :=
  match a, b with
  | NaN, _ | _, NaN => NaN
  | _, _ => if lt a b then b else a
  end.

(** [s || d] on an optional string: [undefined] and the empty string are
    falsy. *)
Definition str_or_default (s : option string) (d : string) : string :=
  match s with
  | Some v => if String.eqb v "" then d else v
  | None => d
  end.

(** [b ?? d]. *)
Definition nullish (b : option bool) (d : bool) : bool :=
  match b with Some v => v | None => d end.

End Js.

(** ** Reporter options *)

(** [MyCustomReporterOptions]: every field is optional.  The fields that
    only label the rendered page (application name, QA lead, sprint, ...)
    are left out. *)
Record MyCustomReporterOptions : Type := mkRawOptions {
  opt_outputFolder : option string;
  opt_inlineCss : option bool;
  opt_embedAssets : option bool;
  opt_buildNo : option string;
  opt_compressImages : option bool;
  opt_imageQuality : option Js.number;
  opt_resetHistory : option bool;
  opt_historyTrend : option Js.number
}.

(** [Required<MyCustomReporterOptions>], as stored in [this.options]. *)
Record Options : Type := mkOptions {
  outputFolder : string;
  inlineCss : bool;
  embedAssets : bool;
  buildNo : string;
  compressImages : bool;
  imageQuality : Js.number;
  resetHistory : bool;
  historyTrend : Js.number
}.

(** [options?.f]: the field of an optional options object. *)
Definition field {A} (f : MyCustomReporterOptions -> option A)
    (options : option MyCustomReporterOptions) : option A :=
  match options with Some o => f o | None => None end.

(** The constructor's normalisation of its argument. *)
Definition constructor (options : option MyCustomReporterOptions) : Options :=
  let embed := Js.nullish (field opt_embedAssets options) false in
  {| outputFolder :=
       Js.str_or_default (field opt_outputFolder options) "playwright-custom-report";
     inlineCss :=
       if embed then true else Js.nullish (field opt_inlineCss options) true;
     embedAssets := embed;
     buildNo := Js.str_or_default (field opt_buildNo options) "N/A";
     compressImages := Js.nullish (field opt_compressImages options) true;
     imageQuality :=
       Js.max (Js.of_Z 1)
         (Js.min (Js.of_Z 100)
            (Js.or_default (field opt_imageQuality options) (Js.of_Z 80)));
     resetHistory := Js.nullish (field opt_resetHistory options) false;
     historyTrend := Js.or_default (field opt_historyTrend options) (Js.of_Z 4) |}.

(** [Math.max(1, Math.min(100, v))], the clamp the constructor applies to
    the image quality. *)
Definition clamp (v : Js.number) : Js.number :=
  Js.max (Js.of_Z 1) (Js.min (Js.of_Z 100) v).

(** A number in the closed interval from 1 to 100. *)
Definition quality_in_range (x : Js.number) : Prop :=
  exists q : Q, x = Js.Fin q /\ (1 <= q)%Q /\ (q <= 100)%Q.

(** [x] is the number zero ([+0] or [-0]). *)
Definition is_zero (x : Js.number) : Prop :=
  exists q : Q, x = Js.Fin q /\ (q == 0)%Q.

(** ** Data model of the runner and of the report *)

(** [TestResult["status"]], also the type of [TestCase.expectedStatus]. *)
Inductive Status : Type :=
  | Passed
  | Failed
  | TimedOut
  | Skipped
  | Interrupted.

Global Instance Status_eq_dec : EqDecision Status.
Proof. solve_decision. Defined.

(** A Node [Buffer]. *)
Definition Buffer : Type := list Byte.byte.

(** [TestResult["attachments"][0]]: a name, a declared content type and a
    filesystem path and/or an in-memory body. *)
Record Attachment : Type := mkAttachment {
  a_name : string;
  a_contentType : string;
  a_path : option string;
  a_body : option Buffer
}.

(** The fields of a [TestResult] that consolidation reads. *)
Record TestResult : Type := mkTestResult {
  status : Status;
  retry : nat;
  attachments : list Attachment
}.

(** The fields of a [TestCase] that consolidation reads. *)
Record TestCase : Type := mkTestCase {
  id : string;
  title : string;
  expectedStatus : Status
}.

(** [ReportData["tests"][0]["attachments"][0]]: [path] holds a relative path
    or a Base64 data URL. *)
Record ReportAttachment : Type := mkReportAttachment {
  name : string;
  contentType : string;
  path : string
}.

(** [ReportData["tests"][0]], without its errors, its steps and the fields
    that only label the test on the page. *)
Record ReportTest : Type := mkReportTest {
  t_title : string;
  t_status : Status;
  t_retries : Z;
  t_attachments : list ReportAttachment
}.

(** [ReportData["counts"]]; [flaky] counts the tests with retries. *)
Record Counts : Type := mkCounts {
  total : nat;
  passed : nat;
  failed : nat;
  skipped : nat;
  flaky : nat
}.

(** [HistoryEntry].  The source keeps [timestamp] as the ISO-8601 rendering
    of an instant and compares entries through [new Date(s).getTime()];
    the record holds that instant in epoch milliseconds. *)
Record HistoryEntry : Type := mkHistoryEntry {
  h_buildNo : string;
  h_total : nat;
  h_passed : nat;
  h_timestamp : Z
}.

(** A value of the [testMap]: the test and its attempts in arrival order. *)
Record Entry : Type := mkEntry {
  test : TestCase;
  results : list TestResult
}.

(** [Map<string, Entry>]: a JavaScript [Map] iterates in insertion order, so
    it is kept as an association list with one binding per key. *)
Definition TestMap : Type := list (string * Entry).

(** ** The platform the reporter runs on *)

(** A filesystem node: [existsSync] holds for both kinds, only a regular
    file can be read. *)
Inductive Node : Type :=
  | File (content : Buffer)
  | Directory.

(** The filesystem and the clock.  The filesystem lists what exists, by
    path; a path lies in the directory that is its parent on the platform.
    [clock k] is what the [k]-th reading of the time ([Date.now()], [new
    Date()]) returns; [ticks] counts the readings made so far. *)
Record World : Type := mkWorld {
  fs : gmap string Node;
  clock : nat -> Z;
  ticks : nat
}.

(** A single path component: not empty, not [.] or [..], and without a
    separator (slash or backslash). *)
Definition is_name (name : string) : bool :=
  negb (String.eqb name "") && negb (String.eqb name ".")
  && negb (String.eqb name "..")
  && forallb (fun c => negb (Ascii.eqb c "/") && negb (Ascii.eqb c "092"))
       (String.list_ascii_of_string name).

(** Library functions the reporter calls, and what the platform decides.
    [path_resolve p] is [path.resolve(process.cwd(), p)] and [path_dirname]
    is [path.dirname]: the parent of a path, and of the root the root
    itself.  [sharp_jpeg b q] is [sharp(b).jpeg({ quality: q, mozjpeg: true
    }).toBuffer()], [None] when the promise rejects; [JSON_parse] is
    [JSON.parse] of the decoded file, [None] when it throws, and its value
    is taken at the type the source asserts for it.

    Writes that are in flight together and go to one path interleave their
    chunks; which bytes the file holds in the end is the platform's choice.
    [interleaved w p data] stands for what [p] holds when a write of [data]
    to it completes in [w] while another write to [p] was in flight.

    [path_dirname_join]: a name joined to a resolved directory has that
    directory as its parent. *)
Class Platform : Type := mkPlatform {
  path_join : string -> string -> string;
  path_resolve : string -> string;
  path_dirname : string -> string;
  base64 : Buffer -> string;
  sharp_jpeg : Buffer -> Js.number -> option Buffer;
  JSON_parse : Buffer -> option (list HistoryEntry);
  JSON_stringify : list HistoryEntry -> Buffer;
  interleaved : World -> string -> Buffer -> Buffer;
  path_dirname_join : forall dir name,
    is_name name = true ->
    path_dirname (path_join (path_resolve dir) name) = path_resolve dir
}.

(** The state of a reporter object: [this.options], [this.testMap],
    [this.reportData.counts], [this.reportData.tests], [this.historyData]. *)
Record Reporter : Type := mkReporter {
  options : Options;
  testMap : TestMap;
  counts : Counts;
  tests : list ReportTest;
  historyData : list HistoryEntry
}.

(** ** Outcomes and the state monad of the effectful methods *)

(** A call returns, throws (a rejected promise included), or never
    settles. *)
Inductive Result (A : Type) : Type :=
  | Ok (a : A)
  | Throw (e : string)
  | Hang.
Arguments Ok {A} a.
Arguments Throw {A} e.
Arguments Hang {A}.

(** Computations over a state [S]; the state reached is kept when the
    computation throws. *)
Definition M (S A : Type) : Type := S -> Result A * S.

Definition ret {S A} (a : A) : M S A := fun s => (Ok a, s).

Definition throw {S A} (e : string) : M S A := fun s => (Throw e, s).

Definition bind {S A B} (m : M S A) (k : A -> M S B) : M S B :=
  fun s =>
    match m s with
    | (Ok a, s') => k a s'
    | (Throw e, s') => (Throw e, s')
    | (Hang, s') => (Hang, s')
    end.

(** A computation that never settles. *)
Definition hang {S A} : M S A := fun s => (Hang, s).

Definition modify {S} (f : S -> S) : M S unit := fun s => (Ok tt, f s).

Declare Scope reporter_scope.
Delimit Scope reporter_scope with reporter.
Notation "'let*' x ':=' m 'in' k" := (bind m (fun x => k))
  (at level 10, x name, m at level 100, k at level 200) : reporter_scope.
Notation "m ';;' k" := (bind m (fun _ => k))
  (at level 100, k at level 200, right associativity) : reporter_scope.

(** Runs a computation on the world inside a computation on the reporter
    and the world. *)
Definition on_world {A} (m : M World A) : M (Reporter * World) A :=
  fun s =>
    match m (snd s) with
    | (r, w') => (r, (fst s, w'))
    end.

(** Applies an update to the reporter object. *)
Definition on_this (f : Reporter -> Reporter) : M (Reporter * World) unit :=
  modify (fun s => (f (fst s), snd s)).

Definition get_this : M (Reporter * World) Reporter :=
  fun s => (Ok (fst s), s).

(** [try { m } catch (e) { handler }]. *)
Definition try_catch {S A} (m : M S A) (handler : string -> M S A) : M S A :=
  fun s =>
    match m s with
    | (Throw e, s') => handler e s'
    | other => other
    end.

(** [l.map(f)] for an effectful [f], left to right. *)
Fixpoint traverse {S A B} (f : A -> M S B) (l : list A) : M S (list B) :=
  match l with
  | [] => ret []
  | x :: l' =>
      (let* y := f x in
       let* ys := traverse f l' in
       ret (y :: ys))%reporter
  end.

(** ** Filesystem and clock primitives *)

Definition set_fs (f : gmap string Node) (w : World) : World :=
  {| fs := f; clock := clock w; ticks := ticks w |}.

(** [fs.existsSync]. *)
Definition existsSync (p : string) : M World bool :=
  fun w => (Ok (bool_decide (is_Some (fs w !! p))), w).

(** [fs.promises.readFile] and [fs.readFileSync]. *)
Definition readFile (p : string) : M World Buffer :=
  fun w =>
    match fs w !! p with
    | Some (File content) => (Ok content, w)
    | Some Directory => (Throw "EISDIR", w)
    | None => (Throw "ENOENT", w)
    end.

(** [fs.unlinkSync]. *)
Definition unlinkSync (p : string) : M World unit :=
  fun w =>
    match fs w !! p with
    | Some (File _) => (Ok tt, set_fs (delete p (fs w)) w)
    | Some Directory => (Throw "EPERM", w)
    | None => (Throw "ENOENT", w)
    end.

Section Filesystem.
Context {platform : Platform}.

(** [fs.promises.writeFile] and [fs.writeFileSync]: the file is created or
    replaced in the directory that holds it; a path that names a directory,
    or whose parent is missing or is a regular file, makes the call throw.
    [overlapping] tells that another write to [p] is in flight at the same
    time, in which case the bytes left in the file are the platform's
    choice. *)
Definition writeFile (overlapping : bool) (p : string) (data : Buffer)
    : M World unit :=
  fun w =>
    match fs w !! p with
    | Some Directory => (Throw "EISDIR", w)
    | _ =>
        match fs w !! path_dirname p with
        | Some Directory =>
            let content := if overlapping then interleaved w p data else data in
            (Ok tt, set_fs (<[p := File content]> (fs w)) w)
        | Some (File _) => (Throw "ENOTDIR", w)
        | None => (Throw "ENOENT", w)
        end
    end.

(** [fs.promises.copyFile]. *)
Definition copyFile (overlapping : bool) (src dest : string) : M World unit :=
  (let* content := readFile src in writeFile overlapping dest content)%reporter.

(** The directories [fs.mkdirSync(p, { recursive: true })] makes: those
    missing on the way to [p], from the nearest ancestor that exists down to
    [p] itself; [None] when a regular file is on the way.  The walk up ends
    at a path that is its own parent, and [fuel] bounds it. *)
Fixpoint mkdirp (fuel : nat) (p : string) (files : gmap string Node)
    : option (gmap string Node) :=
  match files !! p with
  | Some Directory => Some files
  | Some (File _) => None
  | None =>
      match fuel with
      | O => Some (<[p := Directory]> files)
      | S fuel' =>
          if String.eqb (path_dirname p) p then Some (<[p := Directory]> files)
          else
            match mkdirp fuel' (path_dirname p) files with
            | Some files' => Some (<[p := Directory]> files')
            | None => None
            end
      end
  end.

(** [fs.mkdirSync(p, { recursive: true })]. *)
Definition mkdirSync (p : string) : M World unit :=
  fun w =>
    match fs w !! p with
    | Some (File _) => (Throw "EEXIST", w)
    | _ =>
        match mkdirp (String.length p) p (fs w) with
        | Some files => (Ok tt, set_fs files w)
        | None => (Throw "ENOTDIR", w)
        end
    end.

End Filesystem.

(** [Date.now()], and the instant of [new Date()]. *)
Definition Date_now : M World Z :=
  fun w =>
    (Ok (clock w (ticks w)),
     {| fs := fs w; clock := clock w; ticks := S (ticks w) |}).

(** ** Strings *)

(** [s.split(sep)] for a one-character separator. *)
Fixpoint split (sep : Ascii.ascii) (s : string) : list string :=
  match s with
  | EmptyString => [EmptyString]
  | String c rest =>
      if Ascii.eqb c sep then EmptyString :: split sep rest
      else
        match split sep rest with
        | piece :: pieces => String c piece :: pieces
        | [] => [String c EmptyString]
        end
  end.

(** [attachment.contentType?.split("/")[1] || "bin"]. *)
Definition extension (contentType : string) : string :=
  Js.str_or_default (split "/"%char contentType !! 1%nat) "bin".

(** [attachment.contentType || "application/octet-stream"]. *)
Definition declared_type (a : Attachment) : string :=
  Js.str_or_default (Some (a_contentType a)) "application/octet-stream".

(** ** Attachment materialisation *)

Section Materialise.
Context {platform : Platform}.

Definition outputDir (opts : Options) : string :=
  path_resolve (outputFolder opts).

Definition historyFilePath (opts : Options) : string :=
  path_join (outputDir opts) "history.json".

Definition attachmentsDir (opts : Options) : string :=
  path_join (outputDir opts) "attachments".

(** Where the bytes of an attachment come from: the outcome of
    [if (attachment.path && fs.existsSync(attachment.path)) ... else if
    (attachment.body) ...], which both modes evaluate before they first
    suspend. *)
Inductive Source : Type :=
  | FromPath (p : string)
  | FromBody (body : Buffer)
  | NoSource.

Definition from_body (a : Attachment) : Source :=
  match a_body a with
  | Some body => FromBody body
  | None => NoSource
  end.

Definition source_of (a : Attachment) : M World Source :=
  match a_path a with
  | Some p =>
      if String.eqb p "" then ret (from_body a)
      else
        (let* found := existsSync p in
         if found then ret (FromPath p) else ret (from_body a))%reporter
  | None => ret (from_body a)
  end.

(** [getEmbeddedAssetData] from [if (!buffer)] on: optional re-encoding,
    then the data URL. *)
Definition encode (opts : Options) (a : Attachment) (buffer : option Buffer)
    : string * string :=
  let finalContentType := declared_type a in
  match buffer with
  | None => (""%string, finalContentType)
  | Some buffer =>
      let isImage := String.prefix "image/" finalContentType in
      let '(buffer, finalContentType) :=
        if isImage && compressImages opts
           && negb (String.eqb finalContentType "image/gif")
        then
          match sharp_jpeg buffer (imageQuality opts) with
          | Some jpeg => (jpeg, "image/jpeg"%string)
          | None => (buffer, finalContentType)
          end
        else (buffer, finalContentType) in
      ("data:" +:+ finalContentType +:+ ";base64," +:+ base64 buffer,
       finalContentType)
  end.

(** The buffer [getEmbeddedAssetData] ends up with before [if (!buffer)]. *)
Definition read_source (src : Source) : M World (option Buffer) :=
  match src with
  | FromPath p => (let* content := readFile p in ret (Some content))%reporter
  | FromBody body => ret (Some body)
  | NoSource => ret None
  end.

Definition getEmbeddedAssetData (opts : Options) (a : Attachment)
    : M World (string * string) :=
  (let* src := source_of a in
   let* buffer := read_source src in
   ret (encode opts a buffer))%reporter.

(** A call of [processAttachment] that has run up to its first suspension:
    in inline mode it is inside [getEmbeddedAssetData] with the source
    chosen; in stored mode the file name has been built (reading the
    clock), the source chosen, and the copy or write is outstanding. *)
Inductive Pending : Type :=
  | Embedding (a : Attachment) (src : Source)
  | Storing (src : Source) (destinationPath : string) (r : ReportAttachment).

(** The name of the stored blob. *)
Definition attachmentFileName (testId : string) (a : Attachment)
    (retry : nat) (now : Z) : string :=
  testId +:+ "-" +:+ a_name a +:+ "-" +:+ pretty retry +:+ "-" +:+ pretty now
    +:+ "." +:+ extension (a_contentType a).

(** [processAttachment] up to its first suspension. *)
Definition start (opts : Options) (testId : string) (retry : nat)
    (a : Attachment) : M World Pending :=
  if embedAssets opts then
    (let* src := source_of a in ret (Embedding a src))%reporter
  else
    (let* now := Date_now in
     let fileName := attachmentFileName testId a retry now in
     let destinationPath := path_join (attachmentsDir opts) fileName in
     let relativePath := path_join "attachments" fileName in
     let* src := source_of a in
     ret (Storing src destinationPath
            {| name := a_name a;
               contentType := declared_type a;
               path := relativePath |}))%reporter.

(** The path a pending materialisation writes to, if it writes. *)
Definition written (p : Pending) : option string :=
  match p with
  | Storing (FromPath _) destinationPath _
  | Storing (FromBody _) destinationPath _ => Some destinationPath
  | _ => None
  end.

(** The number of materialisations among [batch] that write to [p]. *)
Definition in_flight (batch : list Pending) (p : string) : nat :=
  length (filter (fun q => written q = Some p) batch).

(** The rest of [processAttachment], run when its I/O completes.  The
    copy or write was issued when the call started, together with those of
    the other calls of the same [Promise.all], [batch]. *)
Definition complete (opts : Options) (batch : list Pending) (p : Pending)
    : M World ReportAttachment :=
  match p with
  | Embedding a src =>
      (let* buffer := read_source src in
       let '(dataUrl, contentType) := encode opts a buffer in
       ret {| name := a_name a; contentType := contentType; path := dataUrl |})%reporter
  | Storing src destinationPath r =>
      let overlapping := (1 <? in_flight batch destinationPath)%nat in
      (match src with
       | FromPath p => copyFile overlapping p destinationPath
       | FromBody body => writeFile overlapping destinationPath body
       | NoSource => ret tt
       end;;
       ret r)%reporter
  end.

(** One call of [processAttachment], awaited on its own. *)
Definition processAttachment (opts : Options) (a : Attachment)
    (testId : string) (retry : nat) : M World ReportAttachment :=
  (let* p := start opts testId retry a in complete opts [p] p)%reporter.

End Materialise.

(** ** [Promise.all]

    The promises of one [Promise.all] settle one at a time, in an order the
    platform chooses.  A [Picker] makes that choice: told how many promises
    are still pending, it names the position (modulo that number) of the one
    that settles next, so every completion order is some picker.  The value
    of a fulfilled promise is stored at the index the promise has in the
    input array; the first rejection becomes the rejection of the whole. *)

Definition Picker : Type := nat -> nat.

Fixpoint settle {T A} (complete : T -> M World A) (pick : Picker) (n : nat)
    (pending : list (nat * T)) (slots : list (option A))
    (rejected : option string) (w : World)
    : list (option A) * option string * World :=
  match n with
  | O => (slots, rejected, w)
  | S n' =>
      match pending !! (pick (length pending) `mod` length pending)%nat with
      | None => (slots, rejected, w)
      | Some (i, t) =>
          let pending' :=
            delete (pick (length pending) `mod` length pending)%nat pending in
          match complete t w with
          | (Ok v, w') =>
              settle complete pick n' pending' (<[i := Some v]> slots) rejected w'
          | (Throw e, w') =>
              settle complete pick n' pending' slots
                (match rejected with Some _ => rejected | None => Some e end) w'
          | (Hang, w') =>
              settle complete pick n' pending' slots rejected w'
          end
      end
  end.

Definition Promise_all {T A} (complete : T -> M World A) (pick : Picker)
    (promises : list T) : M World (list A) :=
  fun w =>
    match settle complete pick (length promises) (imap pair promises)
            (replicate (length promises) None) None w with
    | (_, Some e, w') => (Throw e, w')
    | (slots, None, w') =>
        match mapM (fun slot : option A => slot) slots with
        | Some values => (Ok values, w')
        | None => (Hang, w')
        end
    end.

(** For every test and every attempt position, the picker of that attempt's
    [Promise.all]. *)
Definition Scheduler : Type := string -> nat -> Picker.

(** The picker under which promises settle in array order. *)
Definition in_order : Picker := fun _ => 0%nat.

(** ** Accumulating attempts: [onTestEnd] *)

Fixpoint testMap_get (key : string) (m : TestMap) : option Entry :=
  match m with
  | [] => None
  | (k, e) :: m' => if String.eqb k key then Some e else testMap_get key m'
  end.

(** [Map.prototype.set]: replaces the value of a present key in place,
    appends an absent one. *)
Fixpoint testMap_set (key : string) (e : Entry) (m : TestMap) : TestMap :=
  match m with
  | [] => [(key, e)]
  | (k, e') :: m' =>
      if String.eqb k key then (k, e) :: m' else (k, e') :: testMap_set key e m'
  end.

(** [entry.results.push(result)] on the entry object stored under [key]. *)
Fixpoint testMap_push (key : string) (result : TestResult) (m : TestMap) : TestMap :=
  match m with
  | [] => []
  | (k, e) :: m' =>
      if String.eqb k key
      then (k, {| test := test e; results := results e ++ [result] |}) :: m'
      else (k, e) :: testMap_push key result m'
  end.

Definition onTestEnd_map (t : TestCase) (result : TestResult) (m : TestMap) : TestMap :=
  let m :=
    match testMap_get (id t) m with
    | Some _ => m
    | None => testMap_set (id t) {| test := t; results := [] |} m
    end in
  testMap_push (id t) result m.

Definition set_testMap (m : TestMap) (r : Reporter) : Reporter :=
  {| options := options r; testMap := m; counts := counts r;
     tests := tests r; historyData := historyData r |}.

Definition set_counts (c : Counts) (r : Reporter) : Reporter :=
  {| options := options r; testMap := testMap r; counts := c;
     tests := tests r; historyData := historyData r |}.

Definition set_tests (ts : list ReportTest) (r : Reporter) : Reporter :=
  {| options := options r; testMap := testMap r; counts := counts r;
     tests := ts; historyData := historyData r |}.

Definition set_historyData (h : list HistoryEntry) (r : Reporter) : Reporter :=
  {| options := options r; testMap := testMap r; counts := counts r;
     tests := tests r; historyData := h |}.

Definition onTestEnd (t : TestCase) (result : TestResult) (r : Reporter) : Reporter :=
  set_testMap (onTestEnd_map t result (testMap r)) r.

(** The counters [_resetState] installs. *)
Definition zero : Counts :=
  {| total := 0; passed := 0; failed := 0; skipped := 0; flaky := 0 |}.

(** [_resetState]: a new attempt map and zeroed report data; the options and
    the ledger in memory are kept. *)
Definition _resetState (r : Reporter) : Reporter :=
  {| options := options r; testMap := []; counts := zero;
     tests := []; historyData := historyData r |}.

(** A reporter object as the constructor leaves it. *)
Definition new_reporter (o : option MyCustomReporterOptions) : Reporter :=
  {| options := constructor o; testMap := []; counts := zero;
     tests := []; historyData := [] |}.

(** ** Verdict and counters *)

(** The reporting status of a test, from its expectation and its final
    attempt. *)
Definition reportingStatus (t : TestCase) (finalResult : TestResult) : Status :=
  let isExpectedToFail := bool_decide (expectedStatus t = Failed) in
  if isExpectedToFail && bool_decide (status finalResult = Passed)
  then Failed
  else status finalResult.

(** [counts.total++] and the bucket of the reporting status. *)
Definition count_status (s : Status) (c : Counts) : Counts :=
  let c :=
    {| total := S (total c); passed := passed c; failed := failed c;
       skipped := skipped c; flaky := flaky c |} in
  match s with
  | Passed =>
      {| total := total c; passed := S (passed c); failed := failed c;
         skipped := skipped c; flaky := flaky c |}
  | Failed | TimedOut | Interrupted =>
      {| total := total c; passed := passed c; failed := S (failed c);
         skipped := skipped c; flaky := flaky c |}
  | Skipped =>
      {| total := total c; passed := passed c; failed := failed c;
         skipped := S (skipped c); flaky := flaky c |}
  end.

(** [if (results.length > 1) counts.flaky++]. *)
Definition count_flaky (attempts : nat) (c : Counts) : Counts :=
  if (1 <? attempts)%nat
  then {| total := total c; passed := passed c; failed := failed c;
          skipped := skipped c; flaky := S (flaky c) |}
  else c.

Definition count_test (s : Status) (attempts : nat) (c : Counts) : Counts :=
  count_flaky attempts (count_status s c).

(** ** The history ledger *)

(** [Array.prototype.findIndex]: the first index whose element satisfies the
    predicate, [-1] if there is none. *)
Fixpoint findIndex {A} (p : A -> bool) (l : list A) : Z :=
  match l with
  | [] => (-1)%Z
  | x :: l' =>
      if p x then 0%Z
      else
        let i := findIndex p l' in
        if (i =? -1)%Z then (-1)%Z else (i + 1)%Z
  end.

(** Replace the entry of the same build, or append. *)
Definition upsert (currentRunSummary : HistoryEntry) (historyData : list HistoryEntry)
    : list HistoryEntry :=
  let existingRunIndex :=
    findIndex (fun h => String.eqb (h_buildNo h) (h_buildNo currentRunSummary))
      historyData in
  if (existingRunIndex >? -1)%Z
  then <[Z.to_nat existingRunIndex := currentRunSummary]> historyData
  else historyData ++ [currentRunSummary].

(** The comparator given to [sort]. *)
Definition by_timestamp (a b : HistoryEntry) : Z :=
  (h_timestamp a - h_timestamp b)%Z.

(** [Array.prototype.sort] is stable, and for a comparator that orders by a
    key its result is the one stable arrangement; it is computed here by
    insertion from the right. *)
Fixpoint insert_sorted {A} (cmp : A -> A -> Z) (x : A) (l : list A) : list A :=
  match l with
  | [] => [x]
  | y :: l' =>
      if (cmp x y <=? 0)%Z then x :: y :: l' else y :: insert_sorted cmp x l'
  end.

Definition sort {A} (cmp : A -> A -> Z) (l : list A) : list A :=
  foldr (insert_sorted cmp) [] l.

(** [while (historyData.length > historyTrend) historyData.shift()];
    [None] when the loop is still running after [fuel] iterations. *)
Fixpoint trim (fuel : nat) (historyTrend : Js.number) (historyData : list HistoryEntry)
    : option (list HistoryEntry) :=
  if Js.gt (Js.of_Z (Z.of_nat (length historyData))) historyTrend then
    match fuel with
    | O => None
    | S fuel' => trim fuel' historyTrend (tail historyData)
    end
  else Some historyData.

(** Sort, then trim. *)
Definition normalize (fuel : nat) (historyTrend : Js.number)
    (historyData : list HistoryEntry) : option (list HistoryEntry) :=
  trim fuel historyTrend (sort by_timestamp historyData).

(** The number of entries of a build in a ledger. *)
Definition count_build (b : string) (l : list HistoryEntry) : nat :=
  length (filter (fun h => h_buildNo h = b) l).

(** [a] is not more recent than [b]. *)
Definition older (a b : HistoryEntry) : Prop :=
  (h_timestamp a <= h_timestamp b)%Z.

(** Non-decreasing by timestamp. *)
Definition ascending (l : list HistoryEntry) : Prop := Sorted older l.

(** The ledger after one more run has recorded its summary: upsert, sort,
    trim. *)
Definition record_run (fuel : nat) (historyTrend : Js.number)
    (historyData : list HistoryEntry) (summary : HistoryEntry)
    : option (list HistoryEntry) :=
  normalize fuel historyTrend (upsert summary historyData).

(** The ledger after a sequence of runs. *)
Fixpoint record_runs (fuel : nat) (historyTrend : Js.number)
    (historyData : list HistoryEntry) (summaries : list HistoryEntry)
    : option (list HistoryEntry) :=
  match summaries with
  | [] => Some historyData
  | summary :: rest =>
      match record_run fuel historyTrend historyData summary with
      | Some historyData' => record_runs fuel historyTrend historyData' rest
      | None => None
      end
  end.

(** The states the ledger of a reporter goes through, from the empty
    ledger of a first run on: the code changes it by upserting a summary, by
    sorting and by shifting the oldest entry out, and what a run has written
    to the history file the next run reads back. *)
Inductive ledger_state : list HistoryEntry -> Prop :=
  | ledger_empty : ledger_state []
  | ledger_upsert e l : ledger_state l -> ledger_state (upsert e l)
  | ledger_sort l : ledger_state l -> ledger_state (sort by_timestamp l)
  | ledger_shift l : ledger_state l -> ledger_state (tail l).

(** The ledger [l] holds the [W] most recent entries of [seen], oldest
    first. *)
Definition most_recent (W : Z) (seen l : list HistoryEntry) : Prop :=
  StronglySorted older l /\
  Z.of_nat (length l) = Z.min W (Z.of_nat (length seen)) /\
  exists oldest,
    seen ≡ₚ oldest ++ l /\
    forall a b, a ∈ oldest -> b ∈ l -> older a b.

(** ** [onBegin] and [onEnd] *)

Section Reporter.
Context {platform : Platform}.

(** [for (const res of results) { allAttachments.push(...await
    Promise.all(res.attachments.map(processAttachment))) }]; [j] is the
    position of [res] in the attempt list. *)
Fixpoint collect_attachments (opts : Options) (sched : Scheduler)
    (testId : string) (allAttachments : list ReportAttachment) (j : nat)
    (results : list TestResult) : M World (list ReportAttachment) :=
  match results with
  | [] => ret allAttachments
  | res :: rest =>
      (let* promises := traverse (start opts testId (retry res)) (attachments res) in
       let* processedAttachments :=
         Promise_all (complete opts promises) (sched testId j) promises in
       collect_attachments opts sched testId
         (allAttachments ++ processedAttachments) (S j) rest)%reporter
  end.

(** The body of the loop over [testMap.values()]. *)
Definition consolidate (sched : Scheduler) (entry : Entry)
    : M (Reporter * World) ReportTest :=
  match last (results entry) with
  | None => throw "TypeError: finalResult is undefined"
  | Some finalResult =>
      let reporting := reportingStatus (test entry) finalResult in
      (on_this (fun r =>
         set_counts (count_test reporting (length (results entry)) (counts r)) r);;
       let* this := get_this in
       let* allAttachments :=
         on_world (collect_attachments (options this) sched (id (test entry))
                     [] 0 (results entry)) in
       ret {| t_title := title (test entry);
              t_status := reporting;
              t_retries := (Z.of_nat (length (results entry)) - 1)%Z;
              t_attachments := allAttachments |})%reporter
  end.

(** The history upkeep at the end of [onEnd]. *)
Definition update_history (fuel : nat) : M (Reporter * World) unit :=
  (let* this := get_this in
   let* timestamp := on_world Date_now in
   let currentRunSummary :=
     {| h_buildNo := Js.str_or_default (Some (buildNo (options this))) "N/A";
        h_total := total (counts this);
        h_passed := passed (counts this);
        h_timestamp := timestamp |} in
   let sorted := sort by_timestamp (upsert currentRunSummary (historyData this)) in
   on_this (set_historyData sorted);;
   match trim fuel (historyTrend (options this)) sorted with
   | None => hang
   | Some trimmed =>
       (on_this (set_historyData trimmed);;
        on_world (writeFile false (historyFilePath (options this))
                    (JSON_stringify trimmed)))%reporter
   end)%reporter.

(** [onEnd], for a reporter without an application logo, up to the write
    of the history file; [fuel] bounds the iterations of the trimming
    loop. *)
Definition onEnd (fuel : nat) (sched : Scheduler) : M (Reporter * World) unit :=
  (let* endTime := on_world Date_now in
   let* this := get_this in
   let* allTests := traverse (consolidate sched) (map snd (testMap this)) in
   on_this (set_tests allTests);;
   update_history fuel)%reporter.

(** [onBegin], for a reporter without an application logo. *)
Definition onBegin : M (Reporter * World) unit :=
  (on_this _resetState;;
   let* startTime := on_world Date_now in
   let* this := get_this in
   let opts := options this in
   let* found := on_world (existsSync (outputDir opts)) in
   (if found then ret tt else on_world (mkdirSync (outputDir opts)));;
   let* found := on_world (existsSync (historyFilePath opts)) in
   (if resetHistory opts && found
    then on_world (unlinkSync (historyFilePath opts)) else ret tt);;
   let* found := on_world (existsSync (historyFilePath opts)) in
   (if found then
      try_catch
        (let* content := on_world (readFile (historyFilePath opts)) in
         match JSON_parse content with
         | Some parsed => on_this (set_historyData parsed)
         | None => throw "SyntaxError"
         end)
        (fun e => on_this (set_historyData []))
    else ret tt);;
   if embedAssets opts then ret tt
   else
     let* found := on_world (existsSync (attachmentsDir opts)) in
     if found then ret tt else on_world (mkdirSync (attachmentsDir opts)))%reporter.

(** A whole run: [onBegin], one [onTestEnd] per attempt event, [onEnd]. *)
Definition run (fuel : nat) (sched : Scheduler)
    (events : list (TestCase * TestResult)) : M (Reporter * World) unit :=
  (onBegin;;
   on_this (fun r => foldl (fun r ev => onTestEnd (fst ev) (snd ev) r) r events);;
   onEnd fuel sched)%reporter.

End Reporter.

(** ** Closed forms and predicates used by the statements *)

Section ClosedForms.
Context {platform : Platform}.

(** The source [source_of] chooses on a filesystem [files]. *)
Definition choose_source (files : gmap string Node) (a : Attachment) : Source :=
  match a_path a with
  | Some p =>
      if String.eqb p "" then from_body a
      else if bool_decide (is_Some (files !! p)) then FromPath p
      else from_body a
  | None => from_body a
  end.

(** The bytes a source yields on [files], when it yields any. *)
Definition source_bytes (files : gmap string Node) (src : Source) : option Buffer :=
  match src with
  | FromPath p =>
      match files !! p with
      | Some (File content) => Some content
      | _ => None
      end
  | FromBody body => Some body
  | NoSource => None
  end.

(** What an inline materialisation returns for a given buffer. *)
Definition embedded (opts : Options) (a : Attachment) (buffer : option Buffer)
    : ReportAttachment :=
  {| name := a_name a;
     contentType := snd (encode opts a buffer);
     path := fst (encode opts a buffer) |}.

(** What a stored materialisation returns when the clock reads [now]. *)
Definition stored (testId : string) (retry : nat) (now : Z) (a : Attachment)
    : ReportAttachment :=
  {| name := a_name a;
     contentType := declared_type a;
     path := path_join "attachments" (attachmentFileName testId a retry now) |}.

(** The record a pending materialisation resolves to if it resolves. *)
Definition resolved (opts : Options) (files : gmap string Node) (p : Pending)
    : ReportAttachment :=
  match p with
  | Embedding a src => embedded opts a (source_bytes files src)
  | Storing _ _ r => r
  end.

(** The record [processAttachment] returns, when it returns, for an
    attachment of attempt [retry] on [files] with the clock at [now]. *)
Definition materialised (opts : Options) (testId : string) (retry : nat)
    (files : gmap string Node) (now : Z) (a : Attachment) : ReportAttachment :=
  if embedAssets opts
  then embedded opts a (source_bytes files (choose_source files a))
  else stored testId retry now a.

(** The attachment list of a test in attempt order, then declaration
    order; [k] is the number of clock readings made before. *)
Fixpoint attachments_in_order (opts : Options) (testId : string)
    (files : gmap string Node) (clock : nat -> Z) (k : nat)
    (results : list TestResult) : list ReportAttachment :=
  match results with
  | [] => []
  | res :: rest =>
      imap (fun i a =>
              materialised opts testId (retry res) files (clock (k + i)%nat) a)
        (attachments res)
      ++ attachments_in_order opts testId files clock
           (if embedAssets opts then k else (k + length (attachments res))%nat)
           rest
  end.

(** A pending materialisation is of the mode the options select. *)
Definition of_mode (opts : Options) (p : Pending) : Prop :=
  match p with
  | Embedding _ _ => embedAssets opts = true
  | Storing _ _ _ => embedAssets opts = false
  end.

(** Every attachment of every attempt, in attempt order, then declaration
    order, with the attempt it belongs to. *)
Definition origins (results : list TestResult) : list (TestResult * Attachment) :=
  flat_map (fun res => map (pair res) (attachments res)) results.

(** [r] is a materialisation of the attachment [origin.2] of the attempt
    [origin.1]. *)
Definition materialised_from (opts : Options) (testId : string)
    (origin : TestResult * Attachment) (r : ReportAttachment) : Prop :=
  name r = a_name (snd origin) /\
  if embedAssets opts
  then exists buffer, r = embedded opts (snd origin) buffer
  else exists now, r = stored testId (retry (fst origin)) now (snd origin).

(** What two worlds must share for a materialisation to return the same
    record in both. *)
Definition same_view (opts : Options) (w w' : World) : Prop :=
  clock w' = clock w /\ ticks w' = ticks w /\
  (embedAssets opts = true -> fs w' = fs w).

End ClosedForms.

(** What [existsSync], a read and a write can tell of a path. *)
Inductive Kind : Type :=
  | Absent
  | IsFile
  | IsDirectory.

Global Instance Kind_eq_dec : EqDecision Kind.
Proof. solve_decision. Defined.

Definition kind_of (n : option Node) : Kind :=
  match n with
  | None => Absent
  | Some (File _) => IsFile
  | Some Directory => IsDirectory
  end.

Definition kind_at (files : gmap string Node) (p : string) : Kind :=
  kind_of (files !! p).

(** Two filesystems with the same files and directories, whatever the
    files hold. *)
Definition same_kinds (files files' : gmap string Node) : Prop :=
  forall p, kind_at files p = kind_at files' p.

(** [files'] is [files] after some writes: directories are the same, files
    are still files. *)
Definition grown (files files' : gmap string Node) : Prop :=
  forall p,
    (kind_at files p = IsDirectory <-> kind_at files' p = IsDirectory) /\
    (kind_at files p = IsFile -> kind_at files' p = IsFile).

(** A file can be created or replaced at [p]: [p] is not a directory and
    its parent is one. *)
Definition writable {platform : Platform} (files : gmap string Node)
    (p : string) : Prop :=
  kind_at files p <> IsDirectory /\ kind_at files (path_dirname p) = IsDirectory.

Global Instance writable_decision {platform : Platform}
    (files : gmap string Node) (p : string) : Decision (writable files p).
Proof. unfold writable. apply _. Defined.

(** The I/O of a pending materialisation goes through on [files]. *)
Definition succeeds {platform : Platform} (files : gmap string Node)
    (p : Pending) : Prop :=
  match p with
  | Embedding _ (FromPath q) => kind_at files q = IsFile
  | Embedding _ _ => True
  | Storing (FromPath q) destinationPath _ =>
      kind_at files q = IsFile /\ writable files destinationPath
  | Storing (FromBody _) destinationPath _ => writable files destinationPath
  | Storing NoSource _ _ => True
  end.

(** The source of a pending materialisation was found on [files]. *)
Definition started (files : gmap string Node) (p : Pending) : Prop :=
  match p with
  | Embedding _ (FromPath q) | Storing (FromPath q) _ _ => kind_at files q <> Absent
  | _ => True
  end.

(** The kind of a path once the materialisations [ps] have all written. *)
Definition kinds_after (ps : list Pending) (files : gmap string Node)
    (p : string) : Kind :=
  if decide (Some p ∈ map written ps) then IsFile else kind_at files p.

(** Two worlds in which a run of the attachment loop behaves alike. *)
Definition agree (opts : Options) (w w' : World) : Prop :=
  clock w' = clock w /\ ticks w' = ticks w /\
  (embedAssets opts = true -> fs w' = fs w) /\
  same_kinds (fs w) (fs w').

(** [processAttachment] at its first suspension, for an attachment started
    on [files] with the clock at [now]. *)
Definition pending_of {platform : Platform} (opts : Options) (testId : string)
    (retry : nat) (files : gmap string Node) (now : Z) (a : Attachment) : Pending :=
  if embedAssets opts then Embedding a (choose_source files a)
  else
    Storing (choose_source files a)
      (path_join (attachmentsDir opts) (attachmentFileName testId a retry now))
      (stored testId retry now a).

(** What holds of the world while the promises [promises] of an attempt
    started on [w] settle, [pending] being those still outstanding: the
    clock is where it was, an inline run has written nothing, files and
    directories have kept their kind, and the writes outstanding lead to the
    kinds the filesystem has once all have written. *)
Definition settling (opts : Options) (promises : list Pending) (w : World)
    (pending : list (nat * Pending)) (w' : World) : Prop :=
  same_view opts w w' /\
  grown (fs w) (fs w') /\
  forall q, kinds_after (map snd pending) (fs w') q = kinds_after promises (fs w) q.

(** Two outcomes that return the same value, or both throw. *)
Definition same_outcome {A} (r r' : Result A) : Prop :=
  match r, r' with
  | Ok a, Ok a' => a = a'
  | Throw _, Throw _ => True
  | _, _ => False
  end.

(** The world in which the promises of an attempt settle: the one the
    attempt starts in, with the clock read once per attachment in stored
    mode. *)
Definition after_starts (opts : Options) (n : nat) (w : World) : World :=
  {| fs := fs w; clock := clock w;
     ticks := if embedAssets opts then ticks w else (ticks w + n)%nat |}.

(** The promises an attempt starts. *)
Definition promises_of {platform : Platform} (opts : Options) (testId : string)
    (res : TestResult) (w : World) : list Pending :=
  imap (fun i a =>
          pending_of opts testId (retry res) (fs w) (clock w (ticks w + i)%nat) a)
    (attachments res).

(** The declared path of an attachment names nothing on [files]. *)
Definition path_missing (files : gmap string Node) (a : Attachment) : Prop :=
  match a_path a with
  | Some p => p = ""%string \/ files !! p = None
  | None => True
  end.

(** The declared path of an attachment does not lead to readable bytes. *)
Definition path_unreadable (files : gmap string Node) (a : Attachment) : Prop :=
  match a_path a with
  | Some p => forall content, files !! p <> Some (File content)
  | None => True
  end.

(** The world after one reading of the clock. *)
Definition tick (w : World) : World :=
  {| fs := fs w; clock := clock w; ticks := S (ticks w) |}.

(** The world after [if (!fs.existsSync(dir)) fs.mkdirSync(dir, {
    recursive: true })]; [None] when the call throws. *)
Definition ensure_dir {platform : Platform} (dir : string) (w : World)
    : option World :=
  match fs w !! dir with
  | Some _ => Some w
  | None =>
      match mkdirp (String.length dir) dir (fs w) with
      | Some files => Some (set_fs files w)
      | None => None
      end
  end.

(** The proper ancestors of a path, nearest first, as far as [fuel]
    reaches. *)
Fixpoint ancestors_up {platform : Platform} (fuel : nat) (p : string)
    : list string :=
  match fuel with
  | O => []
  | S fuel' =>
      if String.eqb (path_dirname p) p then []
      else path_dirname p :: ancestors_up fuel' (path_dirname p)
  end.

Definition ancestors {platform : Platform} (p : string) : list string :=
  ancestors_up (String.length p) p.

(** The reporter after one more test has been counted. *)
Definition counted (entry : Entry) (finalResult : TestResult) (r : Reporter) : Reporter :=
  set_counts
    (count_test (reportingStatus (test entry) finalResult)
       (length (results entry)) (counts r)) r.

(** The partition invariant of the counters. *)
Definition balanced (c : Counts) : Prop :=
  total c = (passed c + failed c + skipped c)%nat.

(** A computation leaves a property of the reporter object in place. *)
Definition stable {A} (P : Reporter -> Prop) (m : M (Reporter * World) A) : Prop :=
  forall s, P (fst s) -> P (fst (snd (m s))).

(** The keys of the attempt map, in insertion order. *)
Definition keys (m : TestMap) : list string := map fst m.

(** The test identities of an event stream. *)
Definition identities (events : list (TestCase * TestResult)) : gset string :=
  list_to_set (map (fun ev => id (fst ev)) events).

(** The attempt map after a stream of [onTestEnd] events. *)
Definition accumulate (events : list (TestCase * TestResult)) (m : TestMap) : TestMap :=
  foldl (fun m ev => onTestEnd_map (fst ev) (snd ev) m) m events.

(** ** Regular expressions and [String.prototype.replace]

    The patterns of the reporter are built from literal characters,
    character classes, sequence, alternation and greedy quantifiers.
    [exec] is the backtracking matcher of the language specification in
    continuation-passing style: [exec i r s k] matches [r] at the start of
    [s] and hands what is left of [s] to [k]; when [k] fails the matcher
    backtracks into [r].  [i] is the [i] flag. *)

Inductive regex : Type :=
  | Eps
  | Chr (c : Ascii.ascii)
  | Digit
  | OneOf (cs : list Ascii.ascii)
  | Seq (r1 r2 : regex)
  | Alt (r1 r2 : regex)
  | Rep (min : nat) (max : option nat) (r : regex).

(** The literal [text] as a pattern. *)
Fixpoint literal (text : string) : regex :=
  match text with
  | EmptyString => Eps
  | String c rest => Seq (Chr c) (literal rest)
  end.

(** The alternation [r | r1 | ...]. *)
Fixpoint alternation (r : regex) (rs : list regex) : regex :=
  match rs with
  | [] => r
  | r' :: rs' => Alt r (alternation r' rs')
  end.

(** [\d]. *)
Definition is_digit (c : Ascii.ascii) : bool :=
  (48 <=? Ascii.nat_of_ascii c)%nat && (Ascii.nat_of_ascii c <=? 57)%nat.

(** Canonicalisation under the [i] flag: a lower-case letter becomes its
    upper-case letter. *)
Definition canonical (c : Ascii.ascii) : Ascii.ascii :=
  if (97 <=? Ascii.nat_of_ascii c)%nat && (Ascii.nat_of_ascii c <=? 122)%nat
  then Ascii.ascii_of_nat (Ascii.nat_of_ascii c - 32)
  else c.

Definition same_char (ignoreCase : bool) (a b : Ascii.ascii) : bool :=
  if ignoreCase then Ascii.eqb (canonical a) (canonical b) else Ascii.eqb a b.

(** One character accepted by [accept]. *)
Definition exec_char (accept : Ascii.ascii -> bool) (s : string)
    (k : string -> option string) : option string :=
  match s with
  | String x rest => if accept x then k rest else None
  | EmptyString => None
  end.

(** The greedy quantifier: at most [fuel] more iterations, at least [min];
    an iteration that is not required and consumes nothing is rejected. *)
Fixpoint exec_rep (step : string -> (string -> option string) -> option string)
    (fuel min : nat) (s : string) (k : string -> option string) : option string :=
  match fuel with
  | O => k s
  | S fuel' =>
      match step s (fun s' =>
                      if (min =? 0)%nat && (String.length s' =? String.length s)%nat
                      then None
                      else exec_rep step fuel' (pred min) s' k) with
      | Some out => Some out
      | None => if (min =? 0)%nat then k s else None
      end
  end.

Fixpoint exec (ignoreCase : bool) (r : regex) (s : string)
    (k : string -> option string) : option string :=
  match r with
  | Eps => k s
  | Chr c => exec_char (same_char ignoreCase c) s k
  | Digit => exec_char is_digit s k
  | OneOf cs => exec_char (fun x => existsb (same_char ignoreCase x) cs) s k
  | Seq r1 r2 => exec ignoreCase r1 s (fun rest => exec ignoreCase r2 rest k)
  | Alt r1 r2 =>
      match exec ignoreCase r1 s k with
      | Some out => Some out
      | None => exec ignoreCase r2 s k
      end
  | Rep min max r' =>
      exec_rep (exec ignoreCase r')
        (match max with Some m => m | None => min + String.length s end)%nat
        min s k
  end.

(** The match of [r] at the start of [s]: what is left of [s] after it. *)
Definition match_at (ignoreCase : bool) (r : regex) (s : string) : option string :=
  exec ignoreCase r s Some.

(** [s.replace(/r/g, ...)]: the matches are looked for from left to right,
    each after the end of the one before; a match is replaced by
    [replacement] of the matched text; after an empty match the search moves
    on by one character.  [skip] is the number of characters of [s] that
    belong to the match just replaced. *)
Fixpoint replace_from (ignoreCase : bool) (r : regex)
    (replacement : string -> string) (skip : nat) (s : string) : string :=
  match skip with
  | S skip' =>
      match s with
      | String _ rest => replace_from ignoreCase r replacement skip' rest
      | EmptyString => EmptyString
      end
  | O =>
      match match_at ignoreCase r s with
      | Some rest =>
          let n := (String.length s - String.length rest)%nat in
          replacement (String.substring 0 n s) +:+
          match s with
          | String c rest' =>
              match n with
              | O => String c (replace_from ignoreCase r replacement 0 rest')
              | S n' => replace_from ignoreCase r replacement n' rest'
              end
          | EmptyString => EmptyString
          end
      | None =>
          match s with
          | String c rest' => String c (replace_from ignoreCase r replacement 0 rest')
          | EmptyString => EmptyString
          end
      end
  end.

Definition replace (ignoreCase : bool) (r : regex)
    (replacement : string -> string) (s : string) : string :=
  replace_from ignoreCase r replacement 0 s.

(** ** Text clean-up and escaping *)

(** The escape character [\u001b]. *)
Definition ESC : Ascii.ascii := "027"%char.

(** The pattern of [stripAnsiCodes]: the escape character and an opening
    bracket; optionally one to three digits, followed by any number of
    groups of a semicolon and one to three digits; then one character of the
    class [[m|K]], which holds the bar as well. *)
Definition ansi_code : regex :=
  Seq (Chr ESC)
    (Seq (Chr "["%char)
       (Seq (Rep 0 (Some 1%nat)
               (Seq (Rep 1 (Some 3%nat) Digit)
                  (Rep 0 None (Seq (Chr ";"%char) (Rep 1 (Some 3%nat) Digit)))))
          (OneOf ["m"%char; "|"%char; "K"%char]))).

Definition stripAnsiCodes (str : string) : string :=
  replace false ansi_code (fun _ => ""%string) str.

Definition escapeHtml (text : string) : string :=
  replace false (Chr "'"%char) (fun _ => "&#039;"%string)
    (replace false (Chr "034"%char) (fun _ => "&quot;"%string)
       (replace false (Chr ">"%char) (fun _ => "&gt;"%string)
          (replace false (Chr "<"%char) (fun _ => "&lt;"%string)
             (replace false (Chr "&"%char) (fun _ => "&amp;"%string) text)))).

(** The pattern "/(Error:|Locator:|Expected string:|Received:|Call
    log:|Test timeout of|waiting for)/" of [highlightError]. *)
Definition error_keywords : regex :=
  alternation (literal "Error:")
    [literal "Locator:"; literal "Expected string:"; literal "Received:";
     literal "Call log:"; literal "Test timeout of"; literal "waiting for"].

(** The replacement ["<strong>$1</strong>"]; group 1 spans the whole
    pattern, so [$1] is the matched text. *)
Definition strong (matched : string) : string :=
  "<strong>" +:+ matched +:+ "</strong>".

Definition highlightError (errorText : string) : string :=
  let escaped := escapeHtml errorText in
  replace true error_keywords strong escaped.

(** The characters [escapeHtml] replaces. *)
Definition html_special (c : Ascii.ascii) : bool :=
  bool_decide (c ∈ ["&"%char; "<"%char; ">"%char; "034"%char; "'"%char]).

(** The characters that open or close a tag or an attribute value. *)
Definition html_delimiter (c : Ascii.ascii) : bool :=
  bool_decide (c ∈ ["<"%char; ">"%char; "034"%char; "'"%char]).

(** What [escapeHtml] puts for one character. *)
Definition escape_char (c : Ascii.ascii) : string :=
  if Ascii.eqb c "&" then "&amp;"
  else if Ascii.eqb c "<" then "&lt;"
  else if Ascii.eqb c ">" then "&gt;"
  else if Ascii.eqb c "034" then "&quot;"
  else if Ascii.eqb c "'" then "&#039;"
  else String c "".

(** [Array.prototype.join]. *)
Fixpoint join (sep : string) (l : list string) : string :=
  match l with
  | [] => ""
  | [x] => x
  | x :: rest => x +:+ sep +:+ join sep rest
  end.

(** A piece of terminal output: plain text, or a control sequence with its
    numeric parameters and its final character. *)
Inductive Piece : Type :=
  | Text (t : string)
  | Code (numbers : list string) (final : Ascii.ascii).

Definition render (p : Piece) : string :=
  match p with
  | Text t => t
  | Code numbers final =>
      String ESC (String "["%char (join ";" numbers +:+ String final ""))
  end.

(** One to three decimal digits. *)
Definition is_number (d : string) : Prop :=
  (1 <= String.length d <= 3)%nat /\
  forallb is_digit (String.list_ascii_of_string d) = true.

(** Plain text holds no escape character; a control sequence has numbers
    for parameters and ends in [m], [K] or the bar. *)
Definition well_formed (p : Piece) : Prop :=
  match p with
  | Text t => ESC ∉ String.list_ascii_of_string t
  | Code numbers final =>
      Forall is_number numbers /\ final ∈ ["m"%char; "|"%char; "K"%char]
  end.

Definition plain (p : Piece) : string :=
  match p with
  | Text t => t
  | Code _ _ => ""
  end.

(** The strings of a list, one after the other. *)
Definition concat_all (l : list string) : string := foldr String.append ""%string l.

(** A string that does not go on with a digit. *)
Definition no_digit_ahead (s : string) : Prop :=
  match s with
  | String y _ => is_digit y = false
  | EmptyString => True
  end.

(** The parameters after the first: each a semicolon and a number. *)
Fixpoint more_numbers (ds : list string) : string :=
  match ds with
  | [] => ""
  | d :: ds' => String ";" (d +:+ more_numbers ds')
  end.

(** A text without its tags: the characters from an opening angle bracket
    to the next closing one are left out; [inside] tells whether the text
    starts inside a tag. *)
Fixpoint without_tags (inside : bool) (s : string) : string :=
  match s with
  | EmptyString => EmptyString
  | String c rest =>
      if inside then without_tags (negb (Ascii.eqb c ">")) rest
      else if Ascii.eqb c "<" then without_tags true rest
      else String c (without_tags false rest)
  end.

(** [s] without its first [n] characters. *)
Fixpoint drop_chars (n : nat) (s : string) : string :=
  match n, s with
  | S n', String _ rest => drop_chars n' rest
  | _, _ => s
  end.

(** A string that does not hold any of the characters [<], [>] and the two
    quotes. *)
Definition no_delimiter (s : string) : Prop :=
  forallb (fun c => negb (html_delimiter c)) (String.list_ascii_of_string s) = true.

(** Every opening angle bracket of [s] opens a [<strong>] or a [</strong>]
    tag. *)
Definition only_strong_tags (s : string) : Prop :=
  forall pre post, s = pre +:+ String "<" post ->
    exists rest, post = "strong>" +:+ rest \/ post = "/strong>" +:+ rest.

(** ** Titles *)

(** [s.split(sep)] for a separator that is not empty: the pieces between
    the occurrences of [sep], which are looked for from left to right, each
    after the end of the one before.  [skip] is the number of characters of
    [s] that belong to the occurrence just found. *)
Fixpoint split_on_from (sep : string) (skip : nat) (s : string) : list string :=
  match skip with
  | S skip' =>
      match s with
      | String _ rest => split_on_from sep skip' rest
      | EmptyString => [EmptyString]
      end
  | O =>
      match s with
      | EmptyString => [EmptyString]
      | String c rest =>
          if String.prefix sep s
          then EmptyString :: split_on_from sep (String.length sep - 1) rest
          else
            match split_on_from sep 0 rest with
            | piece :: pieces => String c piece :: pieces
            | [] => [String c EmptyString]
            end
      end
  end.

Definition split_on (sep : string) (s : string) : list string :=
  split_on_from sep 0 s.

(** [test.titlePath().slice(1).join(" > ")] of [onEnd]. *)
Definition fullTitle (titlePath : list string) : string :=
  join " > " (drop 1 titlePath).

(** [testTitle] of [generateSingleTestCase]:
    [test.fullTitle.split(" > ").slice(1).join(" > ")]. *)
Definition testTitle (fullTitle : string) : string :=
  join " > " (drop 1 (split_on " > " fullTitle)).

(** The first occurrence of [sep] in [p] followed by [sep] is the one that
    follows [p]. *)
Definition ends_before (sep p : string) : Prop :=
  forall i, (i < String.length p)%nat ->
    String.prefix sep (drop_chars i (p +:+ sep)) = false.

#[local] Set Warnings "-register-all".

(** ** Errors and steps of an attempt *)

(** [TestError]; the message may be missing. *)
Record TestError : Type := mkTestError {
  message : option string
}.

(** [TestStep], with the fields [processSteps] reads. *)
Inductive TestStep : Type :=
  | mkTestStep (title : string) (duration : Js.number)
      (error : option TestError) (steps : list TestStep).

(** The status of a step of the report; [processSteps] writes the first
    two only. *)
Inductive StepStatus : Type :=
  | StepPassed
  | StepFailed
  | StepSkipped
  | StepTimedOut.

(** [ReportData["tests"][0]["steps"][0]]; [error] and [steps] may be
    [undefined]. *)
Inductive ReportStep : Type :=
  | mkReportStep (title : string) (status : StepStatus) (duration : Js.number)
      (error : option string) (steps : option (list ReportStep)).

(** The function [processSteps] maps over the steps. *)
Fixpoint processStep (step : TestStep) : ReportStep :=
  match step with
  | mkTestStep title duration error steps =>
      mkReportStep (stripAnsiCodes title)
        (match error with Some _ => StepFailed | None => StepPassed end)
        duration
        (match error with
         | Some e => Some (stripAnsiCodes (Js.str_or_default (message e) ""))
         | None => None
         end)
        (match steps with
         | [] => None
         | _ :: _ => Some (map processStep steps)
         end)
  end.

Definition processSteps (steps : list TestStep) : list ReportStep :=
  map processStep steps.

(** The titles of a step and of the steps below it, the step first. *)
Fixpoint step_titles (step : TestStep) : list string :=
  match step with
  | mkTestStep title _ _ steps => title :: flat_map step_titles steps
  end.

Fixpoint report_titles (step : ReportStep) : list string :=
  match step with
  | mkReportStep title _ _ _ steps =>
      title :: match steps with
               | Some l => flat_map report_titles l
               | None => []
               end
  end.

(** A report step as [processSteps] writes it, at every depth: it passed
    and has no error text, or failed and has one; it has no empty list of
    steps. *)
Inductive step_ok : ReportStep -> Prop :=
  | step_ok_intro title status duration error steps :
      (status = StepPassed /\ error = None \/
       status = StepFailed /\ is_Some error) ->
      steps <> Some [] ->
      (forall l, steps = Some l -> Forall step_ok l) ->
      step_ok (mkReportStep title status duration error steps).

(** ** The tests of the page *)

(** [Map<string, V>] in insertion order. *)
Definition JsMap (V : Type) : Type := list (string * V).

Fixpoint map_get {V} (key : string) (m : JsMap V) : option V :=
  match m with
  | [] => None
  | (k, v) :: m' => if String.eqb k key then Some v else map_get key m'
  end.

Definition map_has {V} (key : string) (m : JsMap V) : bool :=
  bool_decide (is_Some (map_get key m)).

(** [Map.prototype.set]: the value of a present key is replaced where it
    is, an absent key is added at the end. *)
Fixpoint map_set {V} (key : string) (v : V) (m : JsMap V) : JsMap V :=
  match m with
  | [] => [(key, v)]
  | (k, v') :: m' =>
      if String.eqb k key then (k, v) :: m' else (k, v') :: map_set key v m'
  end.

(** A test of the report with the project it is listed under;
    [projectName] is [test.parent.project()?.name || "No Project"]. *)
Record PageTest : Type := mkPageTest {
  projectName : string;
  record : ReportTest
}.

(** The body of [allTests.forEach] that fills [groupedTests]. *)
Definition group_test (groupedTests : JsMap (list PageTest)) (test : PageTest)
    : JsMap (list PageTest) :=
  let groupKey := projectName test in
  let groupedTests :=
    if negb (map_has groupKey groupedTests)
    then map_set groupKey [] groupedTests
    else groupedTests in
  match map_get groupKey groupedTests with
  | Some tests => map_set groupKey (tests ++ [test]) groupedTests
  | None => groupedTests
  end.

Definition groupedTests (allTests : list PageTest) : JsMap (list PageTest) :=
  foldl group_test [] allTests.

(** The distinct elements of a list in the order of their first
    occurrence. *)
Fixpoint first_seen (l : list string) : list string :=
  match l with
  | [] => []
  | x :: l' => x :: filter (fun y => y <> x) (first_seen l')
  end.

(** [TestResult["status"]] as the string it is. *)
Definition status_name (s : Status) : string :=
  match s with
  | Passed => "passed"
  | Failed => "failed"
  | TimedOut => "timedOut"
  | Skipped => "skipped"
  | Interrupted => "interrupted"
  end.

(** [badgeClass] and [badgeText] of [generateSingleTestCase]. *)
Definition badge (test : ReportTest) : string * string :=
  let badgeClass := status_name (t_status test) in
  let badgeText := status_name (t_status test) in
  let '(badgeClass, badgeText) :=
    if String.eqb badgeText "timedOut" || String.eqb badgeText "interrupted"
    then ("failed"%string, "failed"%string)
    else (badgeClass, badgeText) in
  if (0 <? t_retries test)%Z
  then ("flaky"%string, "Retried"%string)
  else (badgeClass, badgeText).

Global Instance ReportAttachment_eq_dec : EqDecision ReportAttachment.
Proof. solve_decision. Defined.

(** [a.name === "trace" || a.contentType === "application/zip"]. *)
Definition is_trace (a : ReportAttachment) : bool :=
  String.eqb (name a) "trace" || String.eqb (contentType a) "application/zip".

(** [traces] of [generateSingleTestCase]. *)
Definition traces (test : ReportTest) : list ReportAttachment :=
  filter (fun a => is_trace a = true) (t_attachments test).

(** [otherAttachments]: the attachments that [traces] does not include.
    [includes] compares object identities; an attachment equal to a trace in
    all its fields is a trace as well, so comparing the fields gives the
    same list. *)
Definition otherAttachments (test : ReportTest) : list ReportAttachment :=
  filter (fun a => a ∉ traces test) (t_attachments test).

(** The groups of the page in closed form: one per project, in the order in
    which the projects first occur, each with its tests in report order. *)
Definition groups_of (allTests : list PageTest) : JsMap (list PageTest) :=
  map (fun k => (k, filter (fun t => projectName t = k) allTests))
    (first_seen (map projectName allTests)).

(** ** Predicates on whole runs *)

(** [currentRunSummary] of [onEnd] for the reporter [r] at the instant
    [now]. *)
Definition summary_of (r : Reporter) (now : Z) : HistoryEntry :=
  {| h_buildNo := Js.str_or_default (Some (buildNo (options r))) "N/A";
     h_total := total (counts r);
     h_passed := passed (counts r);
     h_timestamp := now |}.

(** A number below zero. *)
Definition negative (x : Js.number) : Prop :=
  x = Js.NegInf \/ exists q, x = Js.Fin q /\ (q < 0)%Q.

(** The ledger [onBegin] loads from a history path that holds [node]. *)
Definition loaded (parse : Buffer -> option (list HistoryEntry)) (node : Node)
    : list HistoryEntry :=
  match node with
  | File content =>
      match parse content with
      | Some parsed => parsed
      | None => []
      end
  | Directory => []
  end.

(** The events of the test identity [k], in arrival order. *)
Definition events_of (k : string) (events : list (TestCase * TestResult))
    : list (TestCase * TestResult) :=
  filter (fun ev => id (fst ev) = k) events.

(** [e] is the entry of the identity [k] after [events]: it holds the test
    of the first event of [k] and the attempts of all its events. *)
Definition entry_for (events : list (TestCase * TestResult)) (k : string)
    (e : Entry) : Prop :=
  exists t result rest,
    events_of k events = (t, result) :: rest /\
    test e = t /\ results e = result :: map snd rest.

(** [t] is the record of the entry [e], up to its attachments. *)
Definition consolidated (e : Entry) (t : ReportTest) : Prop :=
  exists finalResult,
    last (results e) = Some finalResult /\
    t_title t = title (test e) /\
    t_status t = reportingStatus (test e) finalResult /\
    t_retries t = (Z.of_nat (length (results e)) - 1)%Z.

(** The counters after the record [t] has been counted: a record with [n]
    retries comes from [n + 1] attempts. *)
Definition tally (c : Counts) (t : ReportTest) : Counts :=
  count_test (t_status t) (S (Z.to_nat (t_retries t))) c.

(** The number of records that satisfy [p]. *)
Definition count_records (p : ReportTest -> bool) (records : list ReportTest) : nat :=
  length (filter (fun t => p t = true) records).

(** The bucket a reporting status is counted in. *)
Definition counts_as_failed (s : Status) : bool :=
  match s with
  | Failed | TimedOut | Interrupted => true
  | _ => false
  end.

(** ** A concrete platform and concrete runs

    Used to evaluate the definitions on explicit inputs. *)

Module Demo.

(** The part of a path before its last slash, if it has one. *)
Fixpoint before_last_slash (p : string) : option string :=
  match p with
  | EmptyString => None
  | String c rest =>
      match before_last_slash rest with
      | Some d => Some (String c d)
      | None => if Ascii.eqb c "/" then Some EmptyString else None
      end
  end.

(** [path.dirname] for paths without a trailing slash. *)
Definition dirname (p : string) : string :=
  match before_last_slash p with
  | Some EmptyString => "/"
  | Some d => d
  | None => "."
  end.

Definition dirname_join (dir name : string) :
  is_name name = true ->
  dirname (("/work/" +:+ dir) +:+ "/" +:+ name) = "/work/" +:+ dir.
Proof.
  intros Hname.
  assert (before_last_slash name = None) as Hnone.
  { unfold is_name in Hname. apply andb_prop in Hname as [_ Hchars].
    induction name as [|c name IH]; [reflexivity|].
    simpl in Hchars. apply andb_prop in Hchars as [Hc Hchars].
    apply andb_prop in Hc as [Hc _]. simpl. rewrite (IH Hchars).
    by destruct (Ascii.eqb c "/"). }
  assert (forall a : string,
            before_last_slash (a +:+ String "/" name) = Some a) as Hsplit.
  { induction a as [|c a IH]; simpl.
    - by rewrite Hnone.
    - by rewrite IH. }
  unfold dirname.
  change (("/work/" +:+ dir) +:+ "/" +:+ name)
    with (("/work/" +:+ dir) +:+ String "/" name).
  by rewrite Hsplit.
Qed.

(** Stand-ins for the library functions: paths are joined with a slash,
    the encoder spells the bytes out, the JPEG encoder rejects an empty
    buffer (as sharp does) and otherwise keeps the first byte, the parser
    rejects an empty file (as [JSON.parse] does) and otherwise yields no
    entries, and of two writes that overlap the one that completes last
    wins. *)
Definition platform : Platform :=
  {| path_join := fun a b => a +:+ "/" +:+ b;
     path_resolve := fun p => "/work/" +:+ p;
     path_dirname := dirname;
     base64 := String.string_of_list_byte;
     sharp_jpeg := fun b _ => match b with [] => None | x :: _ => Some [x] end;
     JSON_parse := fun b => match b with [] => None | _ => Some [] end;
     JSON_stringify := fun _ => [Byte.x5b; Byte.x5d];
     interleaved := fun _ _ data => data;
     path_dirname_join := dirname_join |}.

Definition png : Buffer := [Byte.x89; Byte.x50; Byte.x4e; Byte.x47].

Definition noon : Z := 1700000000000.

(** A world whose clock advances by one millisecond per reading. *)
Definition world (files : gmap string Node) : World :=
  {| fs := files; clock := fun k => (noon + Z.of_nat k)%Z; ticks := 0 |}.

Definition no_options : option MyCustomReporterOptions := None.

Definition inline_options : option MyCustomReporterOptions :=
  Some {| opt_outputFolder := None; opt_inlineCss := None;
          opt_embedAssets := Some true; opt_buildNo := Some "B7"%string;
          opt_compressImages := None; opt_imageQuality := None;
          opt_resetHistory := None; opt_historyTrend := None |}.

Definition quality (q : Js.number) : option MyCustomReporterOptions :=
  Some {| opt_outputFolder := None; opt_inlineCss := None;
          opt_embedAssets := None; opt_buildNo := None;
          opt_compressImages := None; opt_imageQuality := Some q;
          opt_resetHistory := None; opt_historyTrend := None |}.

Definition trend (n : Js.number) : option MyCustomReporterOptions :=
  Some {| opt_outputFolder := None; opt_inlineCss := None;
          opt_embedAssets := None; opt_buildNo := None;
          opt_compressImages := None; opt_imageQuality := None;
          opt_resetHistory := None; opt_historyTrend := Some n |}.

Definition x : Attachment :=
  {| a_name := "x"; a_contentType := "image/png";
     a_path := None; a_body := Some png |}.

Definition y : Attachment :=
  {| a_name := "y"; a_contentType := "text/plain";
     a_path := Some "/tmp/y.txt"%string; a_body := None |}.

(** An attachment whose path names a directory. *)
Definition dir_attachment : Attachment :=
  {| a_name := "trace"; a_contentType := "application/zip";
     a_path := Some "/tmp/trace"%string; a_body := None |}.

(** An attachment whose path does not exist. *)
Definition lost : Attachment :=
  {| a_name := "video"; a_contentType := "video/webm";
     a_path := Some "/tmp/gone.webm"%string; a_body := None |}.

(** The directories of the examples: the report directory of the default
    options with its attachments directory, and a directory of test
    artefacts. *)
Definition dirs : gmap string Node :=
  {[ "/"%string := Directory;
     "/tmp"%string := Directory;
     "/work"%string := Directory;
     "/work/playwright-custom-report"%string := Directory;
     "/work/playwright-custom-report/attachments"%string := Directory ]}.

Definition hi : Buffer := [Byte.x68; Byte.x69].

Definition files : gmap string Node :=
  <["/tmp/y.txt"%string := File hi]>
    (<["/tmp/trace"%string := Directory]> dirs).

Definition A0 : TestResult :=
  {| status := Failed; retry := 0; attachments := [x; y] |}.

Definition A1 : TestResult :=
  {| status := Passed; retry := 1; attachments := [x; y] |}.

Definition Login : TestCase :=
  {| id := "t1"; title := "Login"; expectedStatus := Passed |}.

Definition KnownBug : TestCase :=
  {| id := "t2"; title := "KnownBug"; expectedStatus := Failed |}.

Definition bare (s : Status) : TestResult :=
  {| status := s; retry := 0; attachments := [] |}.

(** A scheduler that settles the last pending promise first. *)
Definition last_first : Scheduler := fun _ _ n => (n - 1)%nat.

Definition first_first : Scheduler := fun _ _ => in_order.

Definition build (b : string) (passed : nat) (t : Z) : HistoryEntry :=
  {| h_buildNo := b; h_total := 10; h_passed := passed; h_timestamp := t |}.

(** Five builds in increasing timestamp order. *)
Definition B1 : HistoryEntry := build "B1" 7 1000.
Definition B2 : HistoryEntry := build "B2" 8 2000.
Definition B3 : HistoryEntry := build "B3" 8 3000.
Definition B4 : HistoryEntry := build "B4" 9 4000.
Definition B5 : HistoryEntry := build "B5" 10 5000.

(** A ledger that already holds two entries of one build. *)
Definition doubled : list HistoryEntry := [build "B7" 1 100; build "B7" 2 200].

Definition history_file : string := "/work/playwright-custom-report/history.json".

(** A filesystem whose history file is empty, which does not parse. *)
Definition corrupt : gmap string Node := <[history_file := File []]> dirs.

Definition login_entry : Entry :=
  {| test := Login; results := [bare Failed; bare Passed] |}.

Definition known_bug_entry : Entry :=
  {| test := KnownBug; results := [bare Passed] |}.

Definition events : list (TestCase * TestResult) :=
  [(Login, A0); (KnownBug, bare Passed); (Login, A1)].

(** A reporter options object that asks for a fresh history. *)
Definition reset_options : option MyCustomReporterOptions :=
  Some {| opt_outputFolder := None; opt_inlineCss := None;
          opt_embedAssets := None; opt_buildNo := Some "B9"%string;
          opt_compressImages := None; opt_imageQuality := None;
          opt_resetHistory := Some true; opt_historyTrend := None |}.

(** A history entry as a tuple of its fields, and back. *)
Definition fields (h : HistoryEntry) : string * nat * nat * Z :=
  (h_buildNo h, h_total h, h_passed h, h_timestamp h).

Definition of_fields (t : string * nat * nat * Z) : HistoryEntry :=
  match t with
  | (b, n, p, ts) =>
      {| h_buildNo := b; h_total := n; h_passed := p; h_timestamp := ts |}
  end.

(** The binary digits of a positive number, lowest first, and back. *)
Fixpoint digits (p : positive) : Buffer :=
  match p with
  | xH => []
  | xO q => Byte.x30 :: digits q
  | xI q => Byte.x31 :: digits q
  end.

Fixpoint of_digits (b : Buffer) : option positive :=
  match b with
  | [] => Some xH
  | Byte.x30 :: b' => xO <$> of_digits b'
  | Byte.x31 :: b' => xI <$> of_digits b'
  | _ => None
  end.

(** A platform whose serialiser and parser are inverse to each other: a
    ledger is written as the digits of its code. *)
Definition codec : Platform :=
  {| path_join := fun a b => a +:+ "/" +:+ b;
     path_resolve := fun p => "/work/" +:+ p;
     path_dirname := dirname;
     base64 := String.string_of_list_byte;
     sharp_jpeg := fun b _ => match b with [] => None | x :: _ => Some [x] end;
     JSON_parse := fun b =>
       p ← of_digits b;
       l ← countable.decode (A := list (string * nat * nat * Z)) p;
       Some (map of_fields l);
     JSON_stringify := fun l => digits (countable.encode (map fields l));
     interleaved := fun _ _ data => data;
     path_dirname_join := dirname_join |}.

(** A reporter that has loaded a ledger of two builds and seen one test. *)
Definition seasoned : Reporter :=
  set_historyData [B1; B2]
    (set_testMap [("t1"%string, login_entry)] (new_reporter no_options)).

(** A world whose clock stands still. *)
Definition frozen (files : gmap string Node) : World :=
  {| fs := files; clock := fun _ => noon; ticks := 0 |}.

(** A second attachment named x of the same content type, with other
    bytes. *)
Definition x' : Attachment :=
  {| a_name := "x"; a_contentType := "image/png";
     a_path := None; a_body := Some [Byte.x00] |}.

(** An attempt with two attachments of the same name. *)
Definition twice : TestResult :=
  {| status := Failed; retry := 0; attachments := [x; x'] |}.

(** A screenshot whose name has a slash in it. *)
Definition shot : Attachment :=
  {| a_name := "shots/home"; a_contentType := "image/png";
     a_path := None; a_body := Some png |}.

(** Inline options with an output folder two levels down. *)
Definition nested_options : option MyCustomReporterOptions :=
  Some {| opt_outputFolder := Some "reports/html"%string; opt_inlineCss := None;
          opt_embedAssets := Some true; opt_buildNo := None;
          opt_compressImages := None; opt_imageQuality := None;
          opt_resetHistory := None; opt_historyTrend := None |}.

(** A filesystem in which the place of the report directory is taken by a
    regular file. *)
Definition blocked : gmap string Node :=
  {[ "/"%string := Directory;
     "/work"%string := Directory;
     "/work/playwright-custom-report"%string := File [] ]}.

(** A platform on which a write that overlaps another one does not truncate
    what is there: its bytes go over the beginning of the file and what the
    file held beyond them stays. *)
Definition torn : Platform :=
  {| path_join := fun a b => a +:+ "/" +:+ b;
     path_resolve := fun p => "/work/" +:+ p;
     path_dirname := dirname;
     base64 := String.string_of_list_byte;
     sharp_jpeg := fun b _ => match b with [] => None | x :: _ => Some [x] end;
     JSON_parse := fun b => match b with [] => None | _ => Some [] end;
     JSON_stringify := fun _ => [Byte.x5b; Byte.x5d];
     interleaved := fun w p data =>
       match fs w !! p with
       | Some (File old) => data ++ drop (length data) old
       | _ => data
       end;
     path_dirname_join := dirname_join |}.

End Demo.

(** * Properties *)

(** ** Option normalisation *)

Lemma lt_Fin x y : Js.lt (Js.Fin x) (Js.Fin y) = true <-> (x < y)%Q.
Proof.
  simpl. rewrite negb_true_iff. split.
  - intros Hb. apply Qnot_le_lt. intros Hle. apply Qle_bool_iff in Hle. congruence.
  - intros Hlt. destruct (Qle_bool y x) eqn:E; [|done].
    apply Qle_bool_iff in E. lra.
Qed.

Lemma lt_Fin_false x y : Js.lt (Js.Fin x) (Js.Fin y) = false <-> (y <= x)%Q.
Proof. simpl. rewrite negb_false_iff. apply Qle_bool_iff. Qed.

Lemma truthy_Fin q : Js.truthy (Js.Fin q) = false <-> (q == 0)%Q.
Proof. simpl. rewrite negb_false_iff. apply Qeq_bool_iff. Qed.

Lemma truthy_nonzero q : ~ (q == 0)%Q -> Js.truthy (Js.Fin q) = true.
Proof.
  intros Hq. destruct (Js.truthy (Js.Fin q)) eqn:E; [done|].
  apply truthy_Fin in E. done.
Qed.

Lemma clamp_Fin q :
  clamp (Js.Fin q) =
    if Js.lt (Js.Fin q) (Js.of_Z 100)
    then (if Js.lt (Js.of_Z 1) (Js.Fin q) then Js.Fin q else Js.of_Z 1)
    else Js.of_Z 100.
Proof.
  unfold clamp, Js.min, Js.max, Js.of_Z.
  destruct (Js.lt (Js.Fin q) (Js.Fin (inject_Z 100))) eqn:E; [done|].
  reflexivity.
Qed.

Lemma clamp_in_range v : v <> Js.NaN -> quality_in_range (clamp v).
Proof.
  intros Hv. destruct v as [| | |q]; [done| | |].
  - exists (inject_Z 100). split; [reflexivity|]. split; [done|apply Qle_refl].
  - exists (inject_Z 1). split; [reflexivity|]. split; [apply Qle_refl|done].
  - rewrite clamp_Fin.
    destruct (Js.lt (Js.Fin q) (Js.of_Z 100)) eqn:E100.
    + apply lt_Fin in E100.
      destruct (Js.lt (Js.of_Z 1) (Js.Fin q)) eqn:E1.
      * apply lt_Fin in E1. exists q. unfold inject_Z in *.
        split; [done|]. split; lra.
      * exists (inject_Z 1). split; [reflexivity|]. split; [apply Qle_refl|done].
    + exists (inject_Z 100). split; [reflexivity|]. split; [done|apply Qle_refl].
Qed.

Lemma or_default_not_NaN x d : d <> Js.NaN -> Js.or_default x d <> Js.NaN.
Proof.
  intros Hd. destruct x as [[| | |q]|]; simpl; try done.
  destruct (negb (Qeq_bool q 0)); done.
Qed.

Lemma or_default_truthy v d : Js.truthy v = true -> Js.or_default (Some v) d = v.
Proof. intros Hv. unfold Js.or_default. by rewrite Hv. Qed.

Lemma or_default_falsy v d : Js.truthy v = false -> Js.or_default (Some v) d = d.
Proof. intros Hv. unfold Js.or_default. by rewrite Hv. Qed.

Lemma imageQuality_constructor o :
  imageQuality (constructor o)
  = clamp (Js.or_default (field opt_imageQuality o) (Js.of_Z 80)).
Proof. reflexivity. Qed.

(** The image quality the constructor stores is always between 1 and 100. *)
Lemma quality_clamped o : quality_in_range (imageQuality (constructor o)).
Proof.
  rewrite imageQuality_constructor. apply clamp_in_range, or_default_not_NaN. done.
Qed.

(** C10. For every options object the normalised [imageQuality] lies in
    [1,100]; a falsy supplied value is replaced by the default instead of
    being clamped: an absent or zero [imageQuality] becomes 80 (as does
    [NaN]), a negative one becomes 1, one above 100 becomes 100; an absent
    or zero [historyTrend] becomes 4. *)
Theorem option_defaults (o : option MyCustomReporterOptions) :
  quality_in_range (imageQuality (constructor o)) /\
  (field opt_imageQuality o = None -> imageQuality (constructor o) = Js.of_Z 80) /\
  (forall v, field opt_imageQuality o = Some v -> Js.truthy v = false ->
     imageQuality (constructor o) = Js.of_Z 80) /\
  (forall v, field opt_imageQuality o = Some v -> is_zero v ->
     imageQuality (constructor o) = Js.of_Z 80) /\
  (forall q, field opt_imageQuality o = Some (Js.Fin q) -> (q < 0)%Q ->
     imageQuality (constructor o) = Js.of_Z 1) /\
  (forall q, field opt_imageQuality o = Some (Js.Fin q) -> (100 < q)%Q ->
     imageQuality (constructor o) = Js.of_Z 100) /\
  (field opt_historyTrend o = None -> historyTrend (constructor o) = Js.of_Z 4) /\
  (forall v, field opt_historyTrend o = Some v -> is_zero v ->
     historyTrend (constructor o) = Js.of_Z 4).
Proof.
  split; [apply quality_clamped|].
  rewrite imageQuality_constructor.
  change (historyTrend (constructor o))
    with (Js.or_default (field opt_historyTrend o) (Js.of_Z 4)).
  repeat split.
  - intros ->. reflexivity.
  - intros v -> Hv. rewrite or_default_falsy by done. reflexivity.
  - intros v -> (q & -> & Hq).
    rewrite or_default_falsy by (by apply truthy_Fin). reflexivity.
  - intros q -> Hq.
    rewrite or_default_truthy by (apply truthy_nonzero; lra).
    rewrite clamp_Fin.
    assert (Js.lt (Js.Fin q) (Js.of_Z 100) = true) as ->.
    { apply lt_Fin. unfold inject_Z. lra. }
    assert (Js.lt (Js.of_Z 1) (Js.Fin q) = false) as ->.
    { apply lt_Fin_false. unfold inject_Z. lra. }
    reflexivity.
  - intros q -> Hq.
    rewrite or_default_truthy by (apply truthy_nonzero; lra).
    rewrite clamp_Fin.
    assert (Js.lt (Js.Fin q) (Js.of_Z 100) = false) as ->.
    { apply lt_Fin_false. unfold inject_Z. lra. }
    reflexivity.
  - intros ->. reflexivity.
  - intros v -> (q & -> & Hq).
    rewrite or_default_falsy by (by apply truthy_Fin). reflexivity.
Qed.

(** A supplied quality of zero becomes 80, a supplied history window of zero
    becomes 4, and a quality of -5 becomes 1. *)
Lemma option_defaults_witness :
  is_zero (Js.Fin 0) /\
  imageQuality (constructor (Demo.quality (Js.Fin 0))) = Js.of_Z 80 /\
  historyTrend (constructor (Demo.trend (Js.Fin 0))) = Js.of_Z 4 /\
  imageQuality (constructor (Demo.quality (Js.Fin (-5 # 1)))) = Js.of_Z 1.
Proof.
  assert (is_zero (Js.Fin 0)) as Hzero by (exists 0%Q; split; reflexivity).
  split; [exact Hzero|]. split; [|split].
  - destruct (option_defaults (Demo.quality (Js.Fin 0))) as (_ & _ & _ & H & _).
    apply (H (Js.Fin 0)); [reflexivity|exact Hzero].
  - destruct (option_defaults (Demo.trend (Js.Fin 0))) as (_ & _ & _ & _ & _ & _ & _ & H).
    apply (H (Js.Fin 0)); [reflexivity|exact Hzero].
  - destruct (option_defaults (Demo.quality (Js.Fin (-5 # 1))))
      as (_ & _ & _ & _ & H & _).
    apply (H (-5 # 1)); [reflexivity|reflexivity].
Defined.

(** Fractions, infinities and [NaN] end up in range as well. *)
Example quality_of_odd_numbers :
  imageQuality (constructor (Demo.quality (Js.Fin (1 # 2)))) = Js.of_Z 1 /\
  imageQuality (constructor (Demo.quality Js.PosInf)) = Js.of_Z 100 /\
  imageQuality (constructor (Demo.quality Js.NegInf)) = Js.of_Z 1 /\
  imageQuality (constructor (Demo.quality Js.NaN)) = Js.of_Z 80 /\
  imageQuality (constructor Demo.no_options) = Js.of_Z 80.
Proof. repeat split; reflexivity. Qed.

(** ** The history ledger: upsert *)

Lemma findIndex_lower {A} (p : A -> bool) l : (-1 <= findIndex p l)%Z.
Proof.
  induction l as [|x l IH]; simpl; [lia|].
  destruct (p x); [lia|]. destruct (Z.eqb_spec (findIndex p l) (-1)); lia.
Qed.

Lemma upsert_nil e : upsert e [] = [e].
Proof. reflexivity. Qed.

(** [upsert] walks the ledger up to the first entry of the same build. *)
Lemma upsert_cons e h l :
  upsert e (h :: l) =
    if String.eqb (h_buildNo h) (h_buildNo e) then e :: l else h :: upsert e l.
Proof.
  unfold upsert. simpl findIndex.
  destruct (String.eqb (h_buildNo h) (h_buildNo e)); [reflexivity|].
  pose proof (findIndex_lower
    (fun h0 => String.eqb (h_buildNo h0) (h_buildNo e)) l) as Hlow.
  destruct (Z.eqb_spec
    (findIndex (fun h0 => String.eqb (h_buildNo h0) (h_buildNo e)) l) (-1))
    as [->|Hne]; [reflexivity|].
  destruct (Z.gtb_spec
    (findIndex (fun h0 => String.eqb (h_buildNo h0) (h_buildNo e)) l + 1) (-1));
    [|lia].
  destruct (Z.gtb_spec
    (findIndex (fun h0 => String.eqb (h_buildNo h0) (h_buildNo e)) l) (-1));
    [|lia].
  rewrite Z2Nat.inj_add by lia. rewrite Nat.add_1_r. reflexivity.
Qed.

Lemma upsert_fresh e l :
  (forall h, h ∈ l -> h_buildNo h <> h_buildNo e) -> upsert e l = l ++ [e].
Proof.
  induction l as [|x l IH]; intros Hfresh; [reflexivity|].
  rewrite upsert_cons.
  destruct (String.eqb_spec (h_buildNo x) (h_buildNo e)) as [Heq|_].
  - exfalso. apply (Hfresh x); [left|done].
  - simpl. rewrite IH; [done|]. intros h Hh. apply Hfresh. by right.
Qed.

Lemma upsert_elem e l : e ∈ upsert e l.
Proof.
  induction l as [|x l IH].
  - rewrite upsert_nil. by left.
  - rewrite upsert_cons. destruct (String.eqb _ _); [left|by right].
Qed.

Lemma count_build_cons b h l :
  count_build b (h :: l) =
    if decide (h_buildNo h = b) then S (count_build b l) else count_build b l.
Proof. unfold count_build. rewrite filter_cons. by destruct (decide _). Qed.

Lemma count_build_upsert e l :
  count_build (h_buildNo e) (upsert e l) = Nat.max 1 (count_build (h_buildNo e) l).
Proof.
  induction l as [|h l IH].
  - rewrite upsert_nil, count_build_cons. rewrite decide_True by done. reflexivity.
  - rewrite upsert_cons.
    destruct (String.eqb_spec (h_buildNo h) (h_buildNo e)) as [Heq|Hne].
    + rewrite !count_build_cons, !decide_True by done. lia.
    + rewrite !count_build_cons, !decide_False by done. done.
Qed.

Lemma count_build_zero b l :
  count_build b l = 0%nat -> forall h, h ∈ l -> h_buildNo h <> b.
Proof.
  unfold count_build. intros Hlen h Hin Hb.
  apply length_zero_iff_nil in Hlen.
  assert (h ∈ filter (fun h => h_buildNo h = b) l) as Hf
    by (by apply list_elem_of_filter).
  rewrite Hlen in Hf. by apply elem_of_nil in Hf.
Qed.

Lemma upsert_latest e l h :
  (count_build (h_buildNo e) l <= 1)%nat ->
  h ∈ upsert e l -> h_buildNo h = h_buildNo e -> h = e.
Proof.
  induction l as [|x l IH]; intros Hcount Hin Hb.
  - rewrite upsert_nil in Hin. by apply list_elem_of_singleton in Hin.
  - rewrite upsert_cons in Hin. rewrite count_build_cons in Hcount.
    destruct (String.eqb_spec (h_buildNo x) (h_buildNo e)) as [Heq|Hne].
    + rewrite decide_True in Hcount by done.
      apply elem_of_cons in Hin as [->|Hin]; [done|].
      exfalso. eapply (count_build_zero (h_buildNo e) l); [lia|done..].
    + rewrite decide_False in Hcount by done.
      apply elem_of_cons in Hin as [->|Hin]; [done|]. by apply IH.
Qed.

(** On a ledger that holds at most one entry of a build, upserting two
    entries of that build leaves one, the one upserted last. *)
Lemma upsert_twice_at_most_one (l : list HistoryEntry) (e1 e2 : HistoryEntry) :
  h_buildNo e1 = h_buildNo e2 ->
  (count_build (h_buildNo e1) l <= 1)%nat ->
  count_build (h_buildNo e2) (upsert e2 (upsert e1 l)) = 1%nat /\
  e2 ∈ upsert e2 (upsert e1 l) /\
  (forall h, h ∈ upsert e2 (upsert e1 l) -> h_buildNo h = h_buildNo e2 -> h = e2).
Proof.
  intros Hsame Hcount.
  assert (count_build (h_buildNo e2) (upsert e1 l) = 1%nat) as Hone.
  { rewrite <- Hsame, count_build_upsert. lia. }
  split; [|split].
  - rewrite count_build_upsert, Hone. reflexivity.
  - apply upsert_elem.
  - intros h. apply upsert_latest. lia.
Qed.

(** A ledger built by upserts alone never holds a build twice. *)
Lemma upsert_unique e l :
  NoDup (map h_buildNo l) -> NoDup (map h_buildNo (upsert e l)).
Proof.
  induction l as [|x l IH]; intros Hnd.
  - rewrite upsert_nil. simpl. apply NoDup_singleton.
  - rewrite upsert_cons. simpl in Hnd. apply NoDup_cons in Hnd as [Hx Hl].
    destruct (String.eqb_spec (h_buildNo x) (h_buildNo e)) as [Heq|Hne]; simpl.
    + apply NoDup_cons. by rewrite <- Heq.
    + apply NoDup_cons. split; [|by apply IH].
      intros Hin. apply list_elem_of_fmap in Hin as (h & Hb & Hh).
      destruct (decide (h_buildNo h = h_buildNo e)) as [Hhe|Hhe]; [congruence|].
      apply Hx. apply list_elem_of_fmap. exists h. split; [done|].
      clear -Hh Hhe. induction l as [|y l IH].
      * rewrite upsert_nil in Hh. apply list_elem_of_singleton in Hh. by subst.
      * rewrite upsert_cons in Hh.
        destruct (String.eqb (h_buildNo y) (h_buildNo e)).
        -- apply elem_of_cons in Hh as [->|Hh]; [done|by right].
        -- apply elem_of_cons in Hh as [->|Hh]; [by left|right; by apply IH].
Qed.

Lemma insert_sorted_builds x l :
  map h_buildNo (insert_sorted by_timestamp x l) ≡ₚ map h_buildNo (x :: l).
Proof.
  induction l as [|y l IH]; simpl; [done|].
  destruct (by_timestamp x y <=? 0)%Z; simpl; [done|].
  rewrite IH. simpl. apply perm_swap.
Qed.

Lemma sort_builds l : map h_buildNo (sort by_timestamp l) ≡ₚ map h_buildNo l.
Proof.
  induction l as [|x l IH]; [done|].
  change (sort by_timestamp (x :: l))
    with (insert_sorted by_timestamp x (sort by_timestamp l)).
  rewrite insert_sorted_builds. simpl. by rewrite IH.
Qed.

(** No state of the ledger holds a build twice. *)
Lemma ledger_state_unique l : ledger_state l -> NoDup (map h_buildNo l).
Proof.
  induction 1 as [|e l _ IH|l _ IH|l _ IH].
  - constructor.
  - by apply upsert_unique.
  - by rewrite sort_builds.
  - destruct l as [|x l]; [done|]. simpl in *. by apply NoDup_cons in IH as [_ ?].
Qed.

Lemma count_build_unique b l : NoDup (map h_buildNo l) -> (count_build b l <= 1)%nat.
Proof.
  induction l as [|x l IH]; intros Hnd; [unfold count_build; simpl; lia|].
  simpl in Hnd. apply NoDup_cons in Hnd as [Hx Hl].
  rewrite count_build_cons. destruct (decide (h_buildNo x = b)) as [<-|_];
    [|by apply IH].
  assert (count_build (h_buildNo x) l = 0%nat) as ->; [|lia].
  unfold count_build.
  destruct (filter (fun h => h_buildNo h = h_buildNo x) l) as [|h rest] eqn:Hf;
    [done|].
  exfalso. apply Hx.
  assert (h ∈ filter (fun h => h_buildNo h = h_buildNo x) l) as Hin
    by (rewrite Hf; left).
  apply list_elem_of_filter in Hin as [Hb Hin].
  apply list_elem_of_fmap. by exists h.
Qed.

(** C5.  For every state of the ledger and every two entries of one build,
    upserting both (whichever comes first, also the same build twice with
    different counts) leaves exactly one entry of the build in the ledger,
    and it is the one upserted last; the ledger is again one of its
    states, with no build in it twice. *)
Theorem upsert_twice_leaves_one (l : list HistoryEntry) (e1 e2 : HistoryEntry) :
  ledger_state l ->
  h_buildNo e1 = h_buildNo e2 ->
  count_build (h_buildNo e2) (upsert e2 (upsert e1 l)) = 1%nat /\
  e2 ∈ upsert e2 (upsert e1 l) /\
  (forall h, h ∈ upsert e2 (upsert e1 l) -> h_buildNo h = h_buildNo e2 -> h = e2) /\
  ledger_state (upsert e2 (upsert e1 l)) /\
  NoDup (map h_buildNo (upsert e2 (upsert e1 l))).
Proof.
  intros Hstate Hsame.
  destruct (upsert_twice_at_most_one l e1 e2 Hsame) as (Hone & Hin & Hlast).
  { by apply count_build_unique, ledger_state_unique. }
  split; [exact Hone|]. split; [exact Hin|]. split; [exact Hlast|].
  split; [by do 2 constructor|].
  by apply ledger_state_unique; do 2 constructor.
Qed.

(** Build B7 recorded twice with different counts on a ledger that already
    holds it once: one entry remains, with the later counts. *)
Lemma upsert_twice_leaves_one_witness :
  ledger_state [Demo.B1; Demo.build "B7" 1 100; Demo.B2] /\
  h_buildNo (Demo.build "B7" 3 300) = h_buildNo (Demo.build "B7" 4 400) /\
  upsert (Demo.build "B7" 4 400)
    (upsert (Demo.build "B7" 3 300) [Demo.B1; Demo.build "B7" 1 100; Demo.B2])
  = [Demo.B1; Demo.build "B7" 4 400; Demo.B2] /\
  count_build "B7"
    (upsert (Demo.build "B7" 4 400)
       (upsert (Demo.build "B7" 3 300) [Demo.B1; Demo.build "B7" 1 100; Demo.B2]))
  = 1%nat.
Proof.
  assert (ledger_state [Demo.B1; Demo.build "B7" 1 100; Demo.B2]) as Hstate.
  { change [Demo.B1; Demo.build "B7" 1 100; Demo.B2]
      with (upsert Demo.B2 (upsert (Demo.build "B7" 1 100) (upsert Demo.B1 []))).
    repeat constructor. }
  split; [exact Hstate|]. split; [reflexivity|]. split; [reflexivity|].
  exact (proj1 (upsert_twice_leaves_one
                  [Demo.B1; Demo.build "B7" 1 100; Demo.B2]
                  (Demo.build "B7" 3 300) (Demo.build "B7" 4 400)
                  Hstate eq_refl)).
Defined.

(** Outside these states: a history file edited by hand so that it holds a
    build twice is read as it is, and [findIndex] finds the first of the two
    entries only. *)
Example hand_edited_ledger :
  ~ ledger_state Demo.doubled /\
  upsert (Demo.build "B7" 4 400) (upsert (Demo.build "B7" 3 300) Demo.doubled)
  = [Demo.build "B7" 4 400; Demo.build "B7" 2 200].
Proof.
  split; [|reflexivity].
  intros Hstate. apply ledger_state_unique in Hstate.
  simpl in Hstate. apply NoDup_cons in Hstate as [Hin _].
  apply Hin. by left.
Qed.

(** ** The history ledger: sort and trim *)

Lemma insert_sorted_perm x l : insert_sorted by_timestamp x l ≡ₚ x :: l.
Proof.
  induction l as [|y l IH]; simpl; [done|].
  destruct (by_timestamp x y <=? 0)%Z; [done|].
  rewrite IH. apply Permutation_swap.
Qed.

Lemma sort_perm l : sort by_timestamp l ≡ₚ l.
Proof.
  induction l as [|x l IH]; simpl; [done|].
  rewrite insert_sorted_perm. by rewrite IH.
Qed.

Lemma sort_length l : length (sort by_timestamp l) = length l.
Proof. by rewrite sort_perm. Qed.

Lemma insert_sorted_strongly x l :
  StronglySorted older l -> StronglySorted older (insert_sorted by_timestamp x l).
Proof.
  induction 1 as [|y l Hl IH Hy]; simpl.
  - repeat constructor.
  - unfold by_timestamp at 1.
    destruct (Z.leb_spec (h_timestamp x - h_timestamp y) 0) as [Hle|Hgt].
    + constructor; [by constructor|].
      constructor; [unfold older; lia|].
      eapply Forall_impl; [exact Hy|]. unfold older. intros; simpl in *; lia.
    + constructor; [done|].
      rewrite insert_sorted_perm. constructor; [unfold older; lia|done].
Qed.

Lemma sort_strongly l : StronglySorted older (sort by_timestamp l).
Proof.
  induction l as [|x l IH]; simpl; [constructor|].
  by apply insert_sorted_strongly.
Qed.

(** Entries of equal timestamp keep the order they had, which is what makes
    the insertion sort compute the result of a stable sort. *)
Lemma insert_sorted_stable t x l :
  filter (fun h => h_timestamp h = t) (insert_sorted by_timestamp x l)
  = filter (fun h => h_timestamp h = t) (x :: l).
Proof.
  induction l as [|y l IH]; simpl; [done|].
  unfold by_timestamp at 1.
  destruct (Z.leb_spec (h_timestamp x - h_timestamp y) 0) as [Hle|Hgt]; [done|].
  rewrite (filter_cons _ y), IH, !filter_cons.
  destruct (decide (h_timestamp x = t)), (decide (h_timestamp y = t)); try done.
  lia.
Qed.

Lemma sort_stable t l :
  filter (fun h => h_timestamp h = t) (sort by_timestamp l)
  = filter (fun h => h_timestamp h = t) l.
Proof.
  induction l as [|x l IH]; simpl; [done|].
  rewrite insert_sorted_stable, !filter_cons, IH. done.
Qed.

Lemma gt_of_Z a b : Js.gt (Js.of_Z a) (Js.of_Z b) = bool_decide (b < a)%Z.
Proof.
  unfold Js.gt, Js.of_Z, Js.lt.
  destruct (Qle_bool (inject_Z a) (inject_Z b)) eqn:E.
  - apply Qle_bool_iff in E. rewrite <- Zle_Qle in E.
    rewrite bool_decide_eq_false_2 by lia. done.
  - rewrite bool_decide_eq_true_2; [done|].
    destruct (Z.lt_ge_cases b a) as [|Hge]; [done|].
    apply Z.ge_le_iff in Hge. exfalso.
    assert (Qle_bool (inject_Z a) (inject_Z b) = true); [|congruence].
    apply Qle_bool_iff. rewrite <- Zle_Qle. lia.
Qed.

Lemma trim_unfold fuel W l :
  trim fuel W l =
    if Js.gt (Js.of_Z (Z.of_nat (length l))) W then
      match fuel with
      | O => None
      | S fuel' => trim fuel' W (tail l)
      end
    else Some l.
Proof. destruct fuel; reflexivity. Qed.

Lemma trim_within fuel W l :
  (Z.of_nat (length l) <= W)%Z -> trim fuel (Js.of_Z W) l = Some l.
Proof.
  intros Hle. rewrite trim_unfold, gt_of_Z, bool_decide_eq_false_2 by lia. done.
Qed.

Lemma trim_drops fuel W l r :
  trim fuel (Js.of_Z W) l = Some r ->
  r = drop (length l - length r) l /\
  (Z.of_nat (length r) <= W)%Z /\
  ((W < Z.of_nat (length l))%Z -> Z.of_nat (length r) = W).
Proof.
  revert l. induction fuel as [|fuel IH]; intros l; rewrite trim_unfold, gt_of_Z;
    case_bool_decide as Hgt; try done.
  - intros [= <-]. rewrite Nat.sub_diag. split; [done|]. lia.
  - intros Htrim.
    destruct (decide (W < Z.of_nat (length (tail l)))%Z) as [Hmore|Hdone].
    + destruct (IH _ Htrim) as (Hr & Hlen & Hexact).
      destruct l as [|x l]; simpl in *.
      * specialize (Hexact Hmore). lia.
      * split; [|split; [done|auto]].
        assert (length r <= length l)%nat by lia.
        replace (S (length l) - length r)%nat with (S (length l - length r)) by lia.
        done.
    + rewrite trim_within in Htrim by lia. injection Htrim as <-.
      destruct l as [|x l]; simpl in *; [lia|].
      replace (S (length l) - length l)%nat with 1%nat by lia.
      split; [done|]. lia.
  - intros [= <-]. rewrite Nat.sub_diag. split; [done|]. lia.
Qed.

(** With a window that is not negative the loop ends within as many
    iterations as the ledger has entries. *)
Lemma trim_terminates fuel W l :
  (0 <= W)%Z -> (length l <= fuel)%nat -> exists r, trim fuel (Js.of_Z W) l = Some r.
Proof.
  intros HW. revert l. induction fuel as [|fuel IH]; intros l Hfuel.
  - destruct l; [|simpl in Hfuel; lia]. exists []. apply trim_within. simpl. lia.
  - rewrite trim_unfold, gt_of_Z. case_bool_decide; [|eauto].
    apply IH. destruct l; simpl in *; lia.
Qed.

(** With a negative window the loop never ends: [shift] leaves the empty
    array empty and its length stays above the window. *)
Lemma trim_diverges fuel W l : (W < 0)%Z -> trim fuel (Js.of_Z W) l = None.
Proof.
  intros HW. revert l. induction fuel as [|fuel IH]; intros l;
    rewrite trim_unfold, gt_of_Z, bool_decide_eq_true_2 by lia; [done|]. apply IH.
Qed.

(** Whatever number the window is, the loop stops only on a ledger whose
    length does not exceed it, and what it returns is a suffix. *)
Lemma trim_bound fuel W l r :
  trim fuel W l = Some r ->
  Js.gt (Js.of_Z (Z.of_nat (length r))) W = false /\ r `suffix_of` l.
Proof.
  revert l. induction fuel as [|fuel IH]; intros l; rewrite trim_unfold;
    destruct (Js.gt (Js.of_Z (Z.of_nat (length l))) W) eqn:Hgt; try done.
  - by intros [= <-].
  - intros Htrim. destruct (IH _ Htrim) as [Hlen Hsuffix]. split; [done|].
    destruct l as [|x l]; [done|]. by apply suffix_cons_r.
  - by intros [= <-].
Qed.

Lemma normalize_exact fuel W l :
  (0 <= W)%Z -> (length l <= fuel)%nat ->
  normalize fuel (Js.of_Z W) l
  = Some (drop (length l - Z.to_nat W) (sort by_timestamp l)).
Proof.
  intros HW Hfuel. unfold normalize.
  destruct (trim_terminates fuel W (sort by_timestamp l) HW) as [r Hr];
    [by rewrite sort_length|].
  rewrite Hr. f_equal.
  destruct (trim_drops _ _ _ _ Hr) as (Hdrop & Hlen & Hexact).
  rewrite sort_length in Hdrop, Hexact. rewrite Hdrop at 1. f_equal.
  destruct (decide (W < Z.of_nat (length l))%Z) as [Hlt|Hge].
  - specialize (Hexact Hlt). lia.
  - rewrite trim_within in Hr by (rewrite sort_length; lia).
    injection Hr as <-. rewrite sort_length. lia.
Qed.

(** C6. For every ledger and every window [W]: normalisation (sort, then
    trim) ends whenever [W] is not negative, and whenever it ends the ledger
    is non-decreasing by timestamp, has at most [W] entries, and is what
    remains of the sorted ledger after its oldest entries are removed; a
    ledger of more than [W] entries keeps exactly [W], none older than a
    removed one. *)
Theorem normalize_bounded (W : Z) (l : list HistoryEntry) :
  ((0 <= W)%Z -> exists r, normalize (length l) (Js.of_Z W) l = Some r) /\
  (forall fuel r, normalize fuel (Js.of_Z W) l = Some r ->
     ascending r /\
     (Z.of_nat (length r) <= W)%Z /\
     exists oldest,
       sort by_timestamp l = oldest ++ r /\
       l ≡ₚ oldest ++ r /\
       (forall a b, a ∈ oldest -> b ∈ r -> (h_timestamp a <= h_timestamp b)%Z) /\
       ((W < Z.of_nat (length l))%Z -> Z.of_nat (length r) = W)).
Proof.
  split.
  - intros HW. rewrite normalize_exact by done. eauto.
  - unfold normalize. intros fuel r Htrim.
    destruct (trim_drops _ _ _ _ Htrim) as (Hr & Hlen & Hexact).
    rewrite sort_length in Hexact.
    pose proof (sort_strongly l) as Hsorted.
    pose proof (take_drop (length (sort by_timestamp l) - length r)
                  (sort by_timestamp l)) as Hsplit.
    rewrite <- Hr in Hsplit. rewrite <- Hsplit in Hsorted.
    split; [|split; [done|]].
    + apply StronglySorted_Sorted. eapply StronglySorted_app_1_r. exact Hsorted.
    + exists (take (length (sort by_timestamp l) - length r) (sort by_timestamp l)).
      split; [done|]. split; [by rewrite Hsplit, sort_perm|]. split; [|done].
      intros a b Ha Hb. eapply (StronglySorted_app_1_elem_of older); done.
Qed.

(** Builds B1 to B5, handed over out of order, with a window of 4: the
    ledger is B2, B3, B4, B5. *)
Lemma normalize_bounded_witness :
  (0 <= 4)%Z /\
  normalize 5 (Js.of_Z 4) [Demo.B3; Demo.B1; Demo.B5; Demo.B2; Demo.B4]
  = Some [Demo.B2; Demo.B3; Demo.B4; Demo.B5] /\
  ascending [Demo.B2; Demo.B3; Demo.B4; Demo.B5] /\
  (Z.of_nat (length [Demo.B2; Demo.B3; Demo.B4; Demo.B5]) <= 4)%Z.
Proof.
  assert (normalize 5 (Js.of_Z 4) [Demo.B3; Demo.B1; Demo.B5; Demo.B2; Demo.B4]
          = Some [Demo.B2; Demo.B3; Demo.B4; Demo.B5]) as Hrun
    by (vm_compute; reflexivity).
  split; [lia|]. split; [exact Hrun|].
  destruct (normalize_bounded 4 [Demo.B3; Demo.B1; Demo.B5; Demo.B2; Demo.B4])
    as [_ Hafter].
  destruct (Hafter 5%nat _ Hrun) as (Hasc & Hlen & _).
  split; [exact Hasc|exact Hlen].
Defined.

(** The window the constructor stores when none or zero is supplied holds
    four entries. *)
Example default_window :
  normalize 5 (historyTrend (constructor Demo.no_options))
    [Demo.B1; Demo.B2; Demo.B3; Demo.B4; Demo.B5]
  = Some [Demo.B2; Demo.B3; Demo.B4; Demo.B5].
Proof. vm_compute. reflexivity. Qed.

(** A window of two and a half keeps two entries. *)
Example fractional_window :
  normalize 5 (historyTrend (constructor (Demo.trend (Js.Fin (5 # 2)))))
    [Demo.B1; Demo.B2; Demo.B3]
  = Some [Demo.B2; Demo.B3].
Proof. vm_compute. reflexivity. Qed.

(** A negative window is stored as it is, and trimming then never ends. *)
Example negative_window fuel l :
  normalize fuel (historyTrend (constructor (Demo.trend (Js.of_Z (-1))))) l = None.
Proof. apply (trim_diverges fuel (-1)). lia. Qed.

(** ** The history ledger over a sequence of runs *)

Lemma record_run_most_recent W fuel seen l e :
  (0 <= W)%Z -> (length seen < fuel)%nat ->
  (forall h, h ∈ seen -> h_buildNo h <> h_buildNo e) ->
  most_recent W seen l ->
  exists l', record_run fuel (Js.of_Z W) l e = Some l' /\
             most_recent W (seen ++ [e]) l'.
Proof.
  intros HW Hfuel Hfresh (Hsorted & Hlen & oldest & Hperm & Hold).
  assert (forall h, h ∈ l -> h ∈ seen) as Hsub.
  { intros h Hh. rewrite Hperm. apply elem_of_app. by right. }
  assert (length seen = (length oldest + length l)%nat) as Hseen.
  { by rewrite Hperm, length_app. }
  unfold record_run. rewrite upsert_fresh by (intros h Hh; apply Hfresh; auto).
  rewrite normalize_exact by (try done; rewrite length_app; simpl; lia).
  eexists. split; [reflexivity|].
  set (S' := sort by_timestamp (l ++ [e])).
  set (k := (length (l ++ [e]) - Z.to_nat W)%nat).
  pose proof (sort_strongly (l ++ [e])) as HS. fold S' in HS.
  pose proof (sort_perm (l ++ [e])) as HP. fold S' in HP.
  assert (length S' = S (length l)) as HlenS.
  { unfold S'. rewrite sort_length, length_app. simpl. lia. }
  rewrite <- (take_drop k S') in HS, HP.
  split; [|split].
  - by apply StronglySorted_app_1_r in HS.
  - rewrite length_drop, HlenS, length_app. unfold k. rewrite length_app. simpl. lia.
  - exists (oldest ++ take k S'). split.
    + rewrite Hperm, <- !app_assoc. apply Permutation_app_head.
      by rewrite HP.
    + intros a b Ha Hb. apply elem_of_app in Ha as [Ha|Ha];
        [|by eapply (StronglySorted_app_1_elem_of older)].
      assert (b ∈ l ++ [e]) as Hb'.
      { rewrite <- HP. apply elem_of_app. by right. }
      apply elem_of_app in Hb' as [Hbl|Hbe]; [by apply Hold|].
      apply list_elem_of_singleton in Hbe. subst b.
      (* the ledger was full, so exactly one entry is removed *)
      assert (length l = Z.to_nat W) as Hfull.
      { destruct oldest; [by apply elem_of_nil in Ha|simpl in Hseen; lia]. }
      assert (k = 1%nat) as Hk by (unfold k; rewrite length_app; simpl; lia).
      rewrite Hk in *.
      destruct S' as [|m S']; [simpl in HlenS; lia|]. simpl in *.
      rewrite drop_0 in *.
      assert (older m e) as Hme.
      { apply StronglySorted_cons in HS as [Hm _]. rewrite Forall_forall in Hm. auto. }
      assert (m ∈ l) as Hml.
      { assert (m ∈ l ++ [e]) as Hm by (rewrite <- HP; by left).
        apply elem_of_app in Hm as [Hm|Hm]; [done|].
        apply list_elem_of_singleton in Hm. subst m. exfalso.
        assert (S' ≡ₚ l) as HS'.
        { apply (Permutation_cons_inv (a := e)).
          rewrite HP. by rewrite <- Permutation_cons_append. }
        apply (Hfresh e); [|done]. apply Hsub. by rewrite <- HS'. }
      specialize (Hold a m Ha Hml). unfold older in *. lia.
Qed.

Lemma record_runs_most_recent W fuel seen l rest :
  (0 <= W)%Z -> (length seen + length rest < fuel)%nat ->
  NoDup (map h_buildNo (seen ++ rest)) ->
  most_recent W seen l ->
  exists r, record_runs fuel (Js.of_Z W) l rest = Some r /\
            most_recent W (seen ++ rest) r.
Proof.
  intros HW. revert seen l. induction rest as [|e rest IH]; intros seen l Hfuel Hnd Hinv.
  - exists l. rewrite app_nil_r. done.
  - simpl in Hfuel. simpl record_runs.
    destruct (record_run_most_recent W fuel seen l e HW) as (l' & -> & Hinv');
      [lia| |done|].
    + intros h Hh Heq. rewrite map_app in Hnd. simpl in Hnd.
      apply NoDup_app in Hnd as (_ & Hdisj & _).
      apply (Hdisj (h_buildNo h)).
      * apply list_elem_of_fmap. eauto.
      * rewrite Heq. by left.
    + destruct (IH (seen ++ [e]) l') as (r & Hr & Hinv'').
      * rewrite length_app. simpl. lia.
      * by rewrite <- app_assoc.
      * done.
      * exists r. split; [done|]. by rewrite <- app_assoc in Hinv''.
Qed.

(** After [K] runs of distinct builds have recorded their summaries into an
    empty ledger with window [W], the ledger holds [min W K] of them in
    ascending order, and none of the others is more recent than a kept
    one. *)
Theorem ledger_keeps_most_recent (W : Z) (summaries : list HistoryEntry) :
  (0 <= W)%Z ->
  NoDup (map h_buildNo summaries) ->
  exists r,
    record_runs (S (length summaries)) (Js.of_Z W) [] summaries = Some r /\
    most_recent W summaries r.
Proof.
  intros HW Hnd.
  destruct (record_runs_most_recent W (S (length summaries)) [] [] summaries HW)
    as (r & Hr & Hinv); simpl; try done; [lia| |eauto].
  split; [constructor|]. split; [simpl; lia|].
  exists []. split; [done|]. intros a b Ha. by apply elem_of_nil in Ha.
Qed.

(** Window 4, builds B1 to B5 in increasing timestamp order, one run each:
    the ledger ends as B2, B3, B4, B5. *)
Example five_builds_window_four :
  record_runs 6 (Js.of_Z 4) [] [Demo.B1; Demo.B2; Demo.B3; Demo.B4; Demo.B5]
  = Some [Demo.B2; Demo.B3; Demo.B4; Demo.B5].
Proof. vm_compute. reflexivity. Qed.

(** ** [Promise.all] fills its result by position *)

Section PromiseAll.
Context {T A : Type} (complete : T -> M World A) (promises : list T).
Context (I : list (nat * T) -> World -> Prop) (val : T -> A) (ok : T -> Prop).
Hypothesis I_step : forall pending k i t w v,
  pending !! k = Some (i, t) -> t ∈ promises -> I pending w ->
  fst (complete t w) = Ok v -> I (delete k pending) (snd (complete t w)).
Hypothesis fulfilled : forall pending t w v,
  t ∈ promises -> I pending w -> fst (complete t w) = Ok v -> v = val t.
Hypothesis decided : forall pending t w,
  t ∈ promises -> I pending w -> (exists v, fst (complete t w) = Ok v) <-> ok t.
Hypothesis settles : forall t w, t ∈ promises -> fst (complete t w) <> Hang.

Lemma settle_positional pick n pending slots rejected w :
  (rejected = None -> I pending w) ->
  length slots = length promises ->
  (forall i t, (i, t) ∈ pending -> promises !! i = Some t) ->
  (rejected = None -> forall i t, promises !! i = Some t ->
     (i, t) ∈ pending \/ slots !! i = Some (Some (val t))) ->
  (length pending <= n)%nat ->
  length (fst (fst (settle complete pick n pending slots rejected w)))
  = length promises /\
  (snd (fst (settle complete pick n pending slots rejected w)) = None ->
   I [] (snd (settle complete pick n pending slots rejected w)) /\
   forall i t, promises !! i = Some t ->
     fst (fst (settle complete pick n pending slots rejected w)) !! i
     = Some (Some (val t))) /\
  (snd (fst (settle complete pick n pending slots rejected w)) = None <->
   rejected = None /\ forall i t, (i, t) ∈ pending -> ok t).
Proof.
  revert pending slots rejected w.
  induction n as [|n IH]; intros pending slots rejected w HI Hlen Hpend Hinv Hn.
  - simpl. destruct pending; [|simpl in Hn; lia].
    split; [done|]. split.
    + intros Hrej. split; [by apply HI|]. intros i t Hi.
      destruct (Hinv Hrej i t Hi) as [Hin|Hs]; [by apply elem_of_nil in Hin|done].
    + split; [intros Hrej; split; [done|]; intros i t Hin; by apply elem_of_nil in Hin|].
      by intros [? _].
  - simpl. set (k := (pick (length pending) `mod` length pending)%nat).
    destruct (pending !! k) as [[i t]|] eqn:Hk.
    + assert ((i, t) ∈ pending) as Hit by (by eapply list_elem_of_lookup_2).
      assert (promises !! i = Some t) as Hpi by auto.
      assert (t ∈ promises) as Ht by (by eapply list_elem_of_lookup_2).
      assert (forall j u, (j, u) ∈ delete k pending -> (j, u) ∈ pending) as Hsub.
      { intros j u Hju. eapply elem_of_sublist; [exact Hju|apply sublist_delete]. }
      assert (length (delete k pending) <= n)%nat as Hn'.
      { rewrite length_delete by (by eexists). lia. }
      pose proof (settles t w Ht) as Hs.
      destruct (complete t w) as [[v|e|] w'] eqn:Hc; [| |done].
      * specialize (IH (delete k pending) (<[i := Some v]> slots) rejected w').
        destruct IH as (Hlen' & Hvals & Hiff).
        -- intros Hrej. specialize (I_step pending k i t w v Hk Ht (HI Hrej)).
           rewrite Hc in I_step. by apply I_step.
        -- by rewrite length_insert.
        -- auto.
        -- intros Hrej j u Hj.
           assert (v = val t) as ->.
           { apply (fulfilled pending t w v Ht (HI Hrej)). by rewrite Hc. }
           destruct (decide (j = i)) as [->|Hne].
           ++ right. assert (u = t) as -> by congruence.
              apply list_lookup_insert_eq. rewrite Hlen. by eapply lookup_lt_Some.
           ++ rewrite list_lookup_insert_ne by done.
              destruct (Hinv Hrej j u Hj) as [Hin|Hslot]; [|by right].
              rewrite <- (take_drop_middle pending k (i, t) Hk) in Hin.
              rewrite delete_take_drop.
              apply elem_of_app in Hin as [Hin|Hin]; [left; apply elem_of_app; by left|].
              apply elem_of_cons in Hin as [[= ? ?]|Hin]; [done|].
              left. apply elem_of_app. by right.
        -- done.
        -- split; [done|]. split; [done|].
           rewrite Hiff. split.
           ++ intros [Hrej Hok]. split; [done|]. intros j u Hju.
              rewrite <- (take_drop_middle pending k (i, t) Hk) in Hju.
              rewrite delete_take_drop in Hok.
              apply elem_of_app in Hju as [Hju|Hju];
                [apply (Hok j u), elem_of_app; by left|].
              apply elem_of_cons in Hju as [[= -> ->]|Hju];
                [|apply (Hok j u), elem_of_app; by right].
              apply (decided pending t w Ht (HI Hrej)). exists v. by rewrite Hc.
           ++ intros [Hrej Hok]. split; [done|]. intros j u Hju. apply (Hok j u). auto.
      * specialize (IH (delete k pending) slots
                      (match rejected with Some _ => rejected | None => Some e end) w').
        destruct IH as (Hlen' & Hvals & Hiff).
        -- by destruct rejected.
        -- done.
        -- auto.
        -- by destruct rejected.
        -- done.
        -- split; [done|]. split; [done|]. rewrite Hiff. split.
           ++ intros [Hrej _]. by destruct rejected.
           ++ intros [Hrej Hok]. exfalso.
              pose proof (Hok i t Hit) as Hokt.
              apply (decided pending t w Ht (HI Hrej)) in Hokt as [v Hv].
              rewrite Hc in Hv. done.
    + split; [done|].
      assert (pending = []) as ->.
      { destruct pending as [|x pending]; [done|]. exfalso.
        apply lookup_ge_None in Hk.
        pose proof (Nat.mod_upper_bound (pick (length (x :: pending)))
                      (length (x :: pending))).
        unfold k in Hk. simpl in *. lia. }
      split.
      * intros Hrej. split; [by apply HI|]. intros i t Hi.
        destruct (Hinv Hrej i t Hi) as [Hin|Hs]; [by apply elem_of_nil in Hin|done].
      * split; [intros Hrej; split; [done|]; intros i t Hin; by apply elem_of_nil in Hin|].
        by intros [? _].
Qed.

(** Whatever the completion order, a [Promise.all] fulfils exactly when
    each of its promises does, and then holds their values in the order of
    the promises; it never stays pending when none of its promises does. *)
Lemma Promise_all_positional pick w :
  I (imap pair promises) w ->
  match Promise_all complete pick promises w with
  | (Ok values, w') =>
      I [] w' /\ values = map val promises /\ (forall t, t ∈ promises -> ok t)
  | (Throw e, w') => ~ (forall t, t ∈ promises -> ok t)
  | (Hang, w') => False
  end.
Proof.
  intros HI. unfold Promise_all.
  destruct (settle_positional pick (length promises) (imap pair promises)
              (replicate (length promises) None) None w)
    as (Hlen & Hall & Hiff).
  - done.
  - by rewrite length_replicate.
  - intros i t Hin.
    apply elem_of_lookup_imap in Hin as (j & u & [= -> ->] & Hj). done.
  - intros _ i t Hi. left. apply elem_of_lookup_imap. eauto.
  - by rewrite length_imap.
  - assert ((forall i t, (i, t) ∈ imap pair promises -> ok t)
            <-> (forall t, t ∈ promises -> ok t)) as Hoks.
    { split.
      - intros Hok t Ht. apply list_elem_of_lookup in Ht as [i Hi].
        apply (Hok i t). apply elem_of_lookup_imap. eauto.
      - intros Hok i t Hin.
        apply elem_of_lookup_imap in Hin as (j & u & [= -> ->] & Hj).
        apply Hok. by eapply list_elem_of_lookup_2. }
    destruct (settle _ _ _ _ _ _ _) as [[slots [e|]] w']; simpl in *.
    + rewrite <- Hoks. intros Hok.
      assert (Some e = None) as Hnone by (by apply Hiff). done.
    + destruct (Hall eq_refl) as [HI' Hslots].
      assert (slots = map (fun t => Some (val t)) promises) as ->.
      { apply list_eq. intros i. rewrite list_lookup_fmap.
        destruct (promises !! i) as [t|] eqn:Hi; simpl.
        - by apply Hslots.
        - apply lookup_ge_None in Hi. apply lookup_ge_None. lia. }
      assert (mapM (fun slot : option A => slot)
                (map (fun t => Some (val t)) promises) = Some (map val promises))
        as ->.
      { apply mapM_Some. clear. induction promises; simpl; constructor; auto. }
      split; [done|]. split; [done|]. apply Hoks. by apply Hiff.
Qed.

End PromiseAll.

(** ** Attachment materialisation *)

Section Attachments.
Context {platform : Platform}.

Lemma existsSync_eq p w :
  existsSync p w = (Ok match fs w !! p with Some _ => true | None => false end, w).
Proof.
  unfold existsSync. destruct (fs w !! p).
  - rewrite bool_decide_eq_true_2 by eauto. done.
  - rewrite bool_decide_eq_false_2 by (by intros [? ?]). done.
Qed.

Lemma source_of_eq a w : source_of a w = (Ok (choose_source (fs w) a), w).
Proof.
  unfold source_of, choose_source.
  destruct (a_path a) as [p|]; [|reflexivity].
  destruct (String.eqb p ""); [reflexivity|].
  unfold bind, existsSync. destruct (bool_decide _); reflexivity.
Qed.

Lemma start_eq opts testId retry a w :
  start opts testId retry a w =
    if embedAssets opts
    then (Ok (Embedding a (choose_source (fs w) a)), w)
    else (Ok (Storing (choose_source (fs w) a)
                (path_join (attachmentsDir opts)
                   (attachmentFileName testId a retry (clock w (ticks w))))
                (stored testId retry (clock w (ticks w)) a)),
          tick w).
Proof.
  unfold start. destruct (embedAssets opts).
  - unfold bind. rewrite source_of_eq. reflexivity.
  - unfold bind, Date_now. rewrite source_of_eq. reflexivity.
Qed.

Lemma read_source_eq src w :
  read_source src w =
    match src with
    | FromPath q =>
        match fs w !! q with
        | Some (File content) => (Ok (Some content), w)
        | Some Directory => (Throw "EISDIR", w)
        | None => (Throw "ENOENT", w)
        end
    | FromBody body => (Ok (Some body), w)
    | NoSource => (Ok None, w)
    end.
Proof.
  destruct src as [q| |]; [|reflexivity..].
  unfold read_source, bind, readFile.
  destruct (fs w !! q) as [[content|]|]; reflexivity.
Qed.

Lemma complete_embedding opts batch a src w :
  complete opts batch (Embedding a src) w =
    match read_source src w with
    | (Ok buffer, w') => (Ok (embedded opts a buffer), w')
    | (Throw e, w') => (Throw e, w')
    | (Hang, w') => (Hang, w')
    end.
Proof.
  simpl. unfold bind. destruct (read_source src w) as [[buffer|e|] w']; [|done..].
  unfold embedded. destruct (encode opts a buffer); reflexivity.
Qed.

(** What a write of [data] leaves at [dst] in [w]. *)
Lemma writeFile_eq overlapping dst data w :
  writeFile overlapping dst data w =
    match kind_at (fs w) dst, kind_at (fs w) (path_dirname dst) with
    | IsDirectory, _ => (Throw "EISDIR", w)
    | _, IsDirectory =>
        (Ok tt,
         set_fs (<[dst := File (if overlapping then interleaved w dst data
                                else data)]> (fs w)) w)
    | _, IsFile => (Throw "ENOTDIR", w)
    | _, Absent => (Throw "ENOENT", w)
    end.
Proof.
  unfold writeFile, kind_at.
  destruct (fs w !! dst) as [[?|]|], (fs w !! path_dirname dst) as [[?|]|];
    reflexivity.
Qed.

Lemma complete_storing opts batch src dst r w :
  complete opts batch (Storing src dst r) w =
    let overlapping := (1 <? in_flight batch dst)%nat in
    match src with
    | FromPath q =>
        match fs w !! q with
        | Some (File content) =>
            match writeFile overlapping dst content w with
            | (Ok _, w') => (Ok r, w')
            | (Throw e, w') => (Throw e, w')
            | (Hang, w') => (Hang, w')
            end
        | Some Directory => (Throw "EISDIR", w)
        | None => (Throw "ENOENT", w)
        end
    | FromBody body =>
        match writeFile overlapping dst body w with
        | (Ok _, w') => (Ok r, w')
        | (Throw e, w') => (Throw e, w')
        | (Hang, w') => (Hang, w')
        end
    | NoSource => (Ok r, w)
    end.
Proof.
  simpl. destruct src as [q|body|]; unfold bind, copyFile, bind, readFile;
    [| |reflexivity].
  - destruct (fs w !! q) as [[content|]|]; [|reflexivity..].
    destruct (writeFile _ dst content w) as [[[]|e|] w']; reflexivity.
  - destruct (writeFile _ dst body w) as [[[]|e|] w']; reflexivity.
Qed.

(** Case analysis of a completion. *)
Ltac complete_cases p w :=
  destruct p as [?a [?q|?body|]|[?q|?body|] ?dst ?r];
  rewrite ?complete_embedding, ?read_source_eq, ?complete_storing; cbv zeta;
  repeat match goal with
         | |- context [fs w !! ?k] => destruct (fs w !! k) as [[?|]|]
         end;
  rewrite ?writeFile_eq; unfold kind_at;
  repeat match goal with
         | |- context [fs w !! ?k] => destruct (fs w !! k) as [[?|]|]
         end;
  simpl.

Lemma complete_settles opts batch p w : fst (complete opts batch p w) <> Hang.
Proof. complete_cases p w; done. Qed.

Lemma complete_clock opts batch p w :
  clock (snd (complete opts batch p w)) = clock w /\
  ticks (snd (complete opts batch p w)) = ticks w.
Proof. complete_cases p w; done. Qed.

Lemma complete_embedding_world opts batch a src w :
  snd (complete opts batch (Embedding a src) w) = w.
Proof.
  rewrite complete_embedding, read_source_eq.
  destruct src as [q| |]; [|done..]. destruct (fs w !! q) as [[?|]|]; done.
Qed.

Lemma complete_value opts batch p w v :
  fst (complete opts batch p w) = Ok v -> v = resolved opts (fs w) p.
Proof.
  destruct p as [a [q|body|]|[q|body|] dst r]; simpl resolved; unfold source_bytes;
    rewrite ?complete_embedding, ?read_source_eq, ?complete_storing; cbv zeta;
    repeat match goal with
           | |- context [fs w !! ?k] => destruct (fs w !! k) as [[?|]|]
           end;
    rewrite ?writeFile_eq; unfold kind_at;
    repeat match goal with
           | |- context [fs w !! ?k] => destruct (fs w !! k) as [[?|]|]
           end;
    simpl; try done; by intros [= <-].
Qed.

Lemma kind_at_insert_file files d content q :
  kind_at (<[d := File content]> files) q
  = if decide (q = d) then IsFile else kind_at files q.
Proof.
  unfold kind_at. destruct (decide (q = d)) as [->|Hne].
  - by rewrite lookup_insert_eq.
  - by rewrite lookup_insert_ne.
Qed.

Lemma kind_at_file files q : kind_at files q = IsFile <-> exists c, files !! q = Some (File c).
Proof.
  unfold kind_at. destruct (files !! q) as [[c|]|]; simpl; split; try done; eauto.
  all: by intros [? ?].
Qed.

Lemma kind_at_directory files q :
  kind_at files q = IsDirectory <-> files !! q = Some Directory.
Proof. unfold kind_at. destruct (files !! q) as [[c|]|]; simpl; split; done. Qed.

Lemma kind_at_absent files q : kind_at files q = Absent <-> files !! q = None.
Proof. unfold kind_at. destruct (files !! q) as [[c|]|]; simpl; split; done. Qed.

Lemma grown_refl files : grown files files.
Proof. intros p. split; done. Qed.

Lemma grown_trans f1 f2 f3 : grown f1 f2 -> grown f2 f3 -> grown f1 f3.
Proof.
  intros H12 H23 p. destruct (H12 p) as [Hd12 Hf12], (H23 p) as [Hd23 Hf23].
  split; [by rewrite Hd12|auto].
Qed.

Lemma grown_write files d content :
  kind_at files d <> IsDirectory -> grown files (<[d := File content]> files).
Proof.
  intros Hd p. rewrite kind_at_insert_file.
  destruct (decide (p = d)) as [->|Hne]; [|done]. split; [|done]. split; done.
Qed.

Lemma kind_cases files q :
  (kind_at files q = IsFile /\ exists c, files !! q = Some (File c)) \/
  (kind_at files q = IsDirectory /\ files !! q = Some Directory) \/
  (kind_at files q = Absent /\ files !! q = None).
Proof.
  unfold kind_at. destruct (files !! q) as [[c|]|]; simpl; eauto.
Qed.

Lemma written_kinds files dst content q :
  kind_at (<[dst := File content]> files) q
  = if decide (Some q = Some dst) then IsFile else kind_at files q.
Proof.
  rewrite kind_at_insert_file. destruct (decide (q = dst)) as [->|Hne].
  - by rewrite decide_True.
  - rewrite decide_False; [done|congruence].
Qed.

(** A write goes through exactly on a writable path. *)
Lemma writeFile_outcome overlapping dst data w :
  (writable (fs w) dst ->
   exists content,
     writeFile overlapping dst data w
     = (Ok tt, set_fs (<[dst := File content]> (fs w)) w)) /\
  (~ writable (fs w) dst ->
   exists e, writeFile overlapping dst data w = (Throw e, w)).
Proof.
  rewrite writeFile_eq. unfold writable.
  destruct (kind_at (fs w) dst), (kind_at (fs w) (path_dirname dst));
    split; try (intros [? ?]; done); try (intros Hn; exfalso; by apply Hn); eauto.
Qed.

Lemma writable_dec files dst : writable files dst \/ ~ writable files dst.
Proof.
  unfold writable.
  destruct (kind_at files dst), (kind_at files (path_dirname dst));
    (by left) || (right; intros [? ?]; done).
Qed.

(** The effect of a completion, by the kinds of the paths it touches. *)
Lemma complete_outcome opts batch p w :
  (succeeds (fs w) p ->
   exists v, fst (complete opts batch p w) = Ok v /\
     forall q, kind_at (fs (snd (complete opts batch p w))) q
               = if decide (Some q = written p) then IsFile else kind_at (fs w) q) /\
  (~ succeeds (fs w) p ->
   exists e, fst (complete opts batch p w) = Throw e /\
             snd (complete opts batch p w) = w).
Proof.
  destruct p as [a [q|body|]|[q|body|] dst r];
    rewrite ?complete_embedding, ?read_source_eq, ?complete_storing; simpl.
  - destruct (kind_cases (fs w) q) as [[Hk [c ->]]|[[Hk ->]|[Hk ->]]]; rewrite Hk;
      simpl; split; try done; eauto.
  - split; [eauto|done].
  - split; [eauto|done].
  - destruct (kind_cases (fs w) q) as [[Hk [c ->]]|[[Hk ->]|[Hk ->]]]; rewrite Hk.
    + destruct (writeFile_outcome (1 <? in_flight batch dst)%nat dst c w)
        as [Hyes Hno].
      split.
      * intros [_ Hw]. destruct (Hyes Hw) as [content ->]. simpl.
        eexists. split; [done|]. intros p. apply written_kinds.
      * intros Hn. destruct Hno as [e ->]; [tauto|]. eauto.
    + split; [by intros [? _]|eauto].
    + split; [by intros [? _]|eauto].
  - destruct (writeFile_outcome (1 <? in_flight batch dst)%nat dst body w)
      as [Hyes Hno].
    split.
    + intros Hw. destruct (Hyes Hw) as [content ->]. simpl.
      eexists. split; [done|]. intros p. apply written_kinds.
    + intros Hn. destruct (Hno Hn) as [e ->]. eauto.
  - split; [|done]. intros _. eexists. split; [done|]. intros p. done.
Qed.

Lemma succeeds_dec files p : succeeds files p \/ ~ succeeds files p.
Proof.
  assert (forall k k' : Kind, k = k' \/ k <> k') as Hk
    by (intros [] []; (by left) || (by right)).
  destruct p as [a [q|body|]|[q|body|] dst r]; simpl; try (by left).
  - apply Hk.
  - destruct (Hk (kind_at files q) IsFile), (writable_dec files dst); tauto.
  - apply writable_dec.
Qed.

Lemma complete_succeeds opts batch p w :
  (exists v, fst (complete opts batch p w) = Ok v) <-> succeeds (fs w) p.
Proof.
  destruct (complete_outcome opts batch p w) as [Hyes Hno]. split.
  - intros [v Hv]. destruct (succeeds_dec (fs w) p) as [|Hn]; [done|].
    destruct (Hno Hn) as (e & He & _). congruence.
  - intros Hs. destruct (Hyes Hs) as (v & Hv & _). eauto.
Qed.

Lemma complete_grown opts batch p w :
  grown (fs w) (fs (snd (complete opts batch p w))).
Proof.
  destruct (complete_outcome opts batch p w) as [Hyes Hno].
  destruct (succeeds_dec (fs w) p) as [Hs|Hn].
  - destruct (Hyes Hs) as (v & _ & Hkinds). intros q. rewrite Hkinds.
    destruct (decide (Some q = written p)) as [Hw|_]; [|done].
    assert (kind_at (fs w) q <> IsDirectory) as Hq.
    { destruct p as [a [?|?|]|[?|?|] dst r]; simpl in *; try done;
        injection Hw as ->; unfold writable in Hs; tauto. }
    split; [|done]. split; done.
  - destruct (Hno Hn) as (e & _ & ->). apply grown_refl.
Qed.

Lemma succeeds_grown files files' p :
  grown files files' -> started files p -> succeeds files' p <-> succeeds files p.
Proof.
  intros Hg Hstarted.
  assert (forall q, kind_at files q <> Absent ->
            kind_at files' q = IsFile <-> kind_at files q = IsFile) as Hfile.
  { intros q Hq. destruct (Hg q) as [Hd Hf]. split; [|done].
    intros Hf'. destruct (kind_at files q) eqn:Hk; try done.
    assert (kind_at files' q = IsDirectory) by (by apply Hd). congruence. }
  assert (forall q, kind_at files' q <> IsDirectory <-> kind_at files q <> IsDirectory)
    as Hdir.
  { intros q. destruct (Hg q) as [Hd _]. by rewrite Hd. }
  assert (forall q, writable files' q <-> writable files q) as Hw.
  { intros q. unfold writable. rewrite Hdir. destruct (Hg (path_dirname q)) as [Hd _].
    by rewrite Hd. }
  destruct p as [a [q|body|]|[q|body|] dst r]; simpl in *; try done.
  - by apply Hfile.
  - by rewrite Hfile, Hw.
Qed.

Lemma succeeds_kinds files files' p :
  same_kinds files files' -> succeeds files p <-> succeeds files' p.
Proof.
  intros Hk. destruct p as [a [q|body|]|[q|body|] dst r]; simpl; try done;
    unfold writable; by rewrite ?(Hk q), ?(Hk dst), ?(Hk (path_dirname dst)).
Qed.

Lemma choose_source_kinds files files' a :
  same_kinds files files' -> choose_source files a = choose_source files' a.
Proof.
  intros Hk. unfold choose_source. destruct (a_path a) as [p|]; [|done].
  destruct (String.eqb p ""); [done|]. specialize (Hk p). unfold kind_at in Hk.
  destruct (files !! p) as [[?|]|], (files' !! p) as [[?|]|]; simpl in *; try done.
Qed.

Lemma choose_source_started files a src :
  choose_source files a = FromPath src -> kind_at files src <> Absent.
Proof.
  unfold choose_source, from_body. destruct (a_path a) as [p|].
  - destruct (String.eqb p "").
    + by destruct (a_body a).
    + case_bool_decide as Hsome.
      * intros [= ->]. rewrite kind_at_absent. destruct Hsome. congruence.
      * by destruct (a_body a).
  - by destruct (a_body a).
Qed.

Lemma pending_of_spec opts testId retry files now a :
  of_mode opts (pending_of opts testId retry files now a) /\
  started files (pending_of opts testId retry files now a) /\
  resolved opts files (pending_of opts testId retry files now a)
  = materialised opts testId retry files now a.
Proof.
  unfold pending_of, materialised. destruct (embedAssets opts) eqn:Hmode; simpl.
  - split; [done|]. split; [|done].
    destruct (choose_source files a) eqn:Hsrc; [|done..].
    by eapply choose_source_started.
  - split; [done|]. split; [|done].
    destruct (choose_source files a) eqn:Hsrc; [|done..].
    by eapply choose_source_started.
Qed.

Lemma start_pending opts testId retry a w :
  start opts testId retry a w =
    (Ok (pending_of opts testId retry (fs w) (clock w (ticks w)) a),
     if embedAssets opts then w else tick w).
Proof. rewrite start_eq. unfold pending_of. by destruct (embedAssets opts). Qed.

(** The promises one attempt starts. *)
Lemma traverse_start opts testId retry atts w :
  traverse (start opts testId retry) atts w =
    (Ok (imap (fun i a =>
                 pending_of opts testId retry (fs w) (clock w (ticks w + i)%nat) a)
           atts),
     after_starts opts (length atts) w).
Proof.
  unfold after_starts.
  revert w. induction atts as [|a atts IH]; intros w.
  - simpl. unfold ret. destruct w. simpl.
    destruct (embedAssets opts); [done|]. by rewrite Nat.add_0_r.
  - simpl traverse. unfold bind at 1. rewrite start_pending.
    unfold bind. rewrite IH. unfold ret. simpl. rewrite Nat.add_0_r.
    destruct (embedAssets opts) eqn:Hmode; simpl.
    + do 3 f_equal. apply imap_ext. intros i x _. simpl.
      unfold pending_of. by rewrite Hmode.
    + f_equal; [|f_equal; lia]. do 2 f_equal.
      apply imap_ext. intros i x _. simpl. do 2 f_equal. lia.
Qed.

Lemma map_snd_imap_pair {A} (l : list A) : map snd (imap (@pair nat A) l) = l.
Proof.
  apply list_eq. intros i. rewrite list_lookup_fmap, list_lookup_imap.
  by destruct (l !! i).
Qed.

Lemma elem_of_delete {A} (l : list A) k x y :
  l !! k = Some x -> y ∈ l <-> y ∈ delete k l \/ y = x.
Proof.
  intros Hk. rewrite <- (take_drop_middle l k x Hk) at 1.
  rewrite delete_take_drop, !elem_of_app, elem_of_cons. tauto.
Qed.

Lemma kinds_after_step (pending : list (nat * Pending)) k i t files files'
    promises0 files0 :
  pending !! k = Some (i, t) ->
  (forall q, kind_at files' q
             = if decide (Some q = written t) then IsFile else kind_at files q) ->
  (forall q, kinds_after (map snd pending) files q = kinds_after promises0 files0 q) ->
  forall q, kinds_after (map snd (delete k pending)) files' q
            = kinds_after promises0 files0 q.
Proof.
  intros Hk Hwritten Hafter q. rewrite <- Hafter. unfold kinds_after.
  assert (Some q ∈ map written (map snd pending) <->
          Some q ∈ map written (map snd (delete k pending)) \/ Some q = written t)
    as Hmem.
  { rewrite !list_elem_of_fmap. split.
    - intros (p & Hq & (x & -> & Hx)%list_elem_of_fmap).
      apply (elem_of_delete _ _ _ _ Hk) in Hx as [Hx| ->]; [|by right].
      left. exists (snd x). split; [done|]. apply list_elem_of_fmap. eauto.
    - intros [(p & Hq & (x & -> & Hx)%list_elem_of_fmap)|Hq].
      + exists (snd x). split; [done|]. apply list_elem_of_fmap. exists x.
        split; [done|]. apply (elem_of_delete _ _ _ _ Hk). by left.
      + exists t. split; [done|]. apply list_elem_of_fmap. exists (i, t).
        split; [done|]. by eapply list_elem_of_lookup_2. }
  rewrite Hwritten.
  destruct (decide (Some q ∈ map written (map snd (delete k pending)))) as [Hin|Hnot].
  - rewrite decide_True; [done|]. apply Hmem. by left.
  - destruct (decide (Some q = written t)) as [Hw|Hnw].
    + rewrite decide_True; [done|]. apply Hmem. by right.
    + rewrite decide_False; [done|]. rewrite Hmem. tauto.
Qed.

(** One attempt: under every picker the [Promise.all] fulfils exactly when
    every materialisation finds its source readable and its destination
    writable as the attempt starts; it then holds the records in declaration
    order and leaves files and directories where the writes put them. *)
Lemma Promise_all_complete opts batch pick promises w :
  Forall (of_mode opts) promises ->
  Forall (started (fs w)) promises ->
  match Promise_all (complete opts batch) pick promises w with
  | (Ok values, w') =>
      same_view opts w w' /\
      (forall q, kind_at (fs w') q = kinds_after promises (fs w) q) /\
      values = map (resolved opts (fs w)) promises /\
      Forall (succeeds (fs w)) promises
  | (Throw e, w') => ~ Forall (succeeds (fs w)) promises
  | (Hang, w') => False
  end.
Proof.
  intros Hmodes Hstarted. rewrite Forall_forall in Hmodes, Hstarted.
  assert (forall pending k i t w1 v,
            pending !! k = Some (i, t) -> t ∈ promises ->
            settling opts promises w pending w1 ->
            fst (complete opts batch t w1) = Ok v ->
            settling opts promises w (delete k pending) (snd (complete opts batch t w1)))
    as Hstep.
  { intros pending k i t w1 v Hk Ht (Hview & Hgrown & Hafter) Hv.
    destruct Hview as (Hclock & Hticks & Hfs).
    destruct (complete_clock opts batch t w1) as [Hc Htk].
    split; [|split].
    - split; [congruence|]. split; [congruence|].
      intros Hembed. specialize (Hmodes t Ht).
      destruct t as [a src|src dst r]; simpl in Hmodes; [|congruence].
      rewrite complete_embedding_world. auto.
    - eapply grown_trans; [exact Hgrown|apply complete_grown].
    - destruct (complete_outcome opts batch t w1) as [Hyes _].
      destruct Hyes as (v' & _ & Hkinds);
        [apply (complete_succeeds opts batch t w1); eauto|].
      by eapply kinds_after_step. }
  assert (forall pending t w1 v,
            t ∈ promises -> settling opts promises w pending w1 ->
            fst (complete opts batch t w1) = Ok v -> v = resolved opts (fs w) t)
    as Hvalue.
  { intros pending t w1 v Ht (Hview & _) Hv.
    destruct Hview as (Hclock & Hticks & Hfs).
    apply complete_value in Hv. subst v. specialize (Hmodes t Ht).
    destruct t as [a src|src dst r]; simpl in *; [|done]. by rewrite Hfs. }
  assert (forall pending t w1,
            t ∈ promises -> settling opts promises w pending w1 ->
            (exists v, fst (complete opts batch t w1) = Ok v) <-> succeeds (fs w) t)
    as Hdecided.
  { intros pending t w1 Ht (_ & Hgrown & _).
    rewrite complete_succeeds. by apply succeeds_grown; [|apply Hstarted]. }
  assert (settling opts promises w (imap pair promises) w) as Hinit.
  { split; [done|]. split; [apply grown_refl|].
    intros q. by rewrite map_snd_imap_pair. }
  pose proof (Promise_all_positional (complete opts batch) promises
                (settling opts promises w) (resolved opts (fs w))
                (succeeds (fs w)) Hstep Hvalue Hdecided
                (fun t w1 _ => complete_settles opts batch t w1) pick w Hinit) as Hall.
  destruct (Promise_all (complete opts batch) pick promises w) as [[values|e|] w'];
    [|by rewrite Forall_forall|done].
  destruct Hall as ((Hview & _ & Hafter) & Hvals & Hok).
  split; [done|]. split; [|split; [done|by apply Forall_forall]].
  intros q. rewrite <- Hafter. unfold kinds_after at 1.
  change (map written (map snd [])) with (@nil (option string)).
  destruct (decide (Some q ∈ [])) as [Hin|_]; [by apply elem_of_nil in Hin|done].
Qed.

Lemma materialised_files opts testId retry files files' now a :
  (embedAssets opts = true -> files' = files) ->
  materialised opts testId retry files' now a
  = materialised opts testId retry files now a.
Proof.
  intros Hfiles. unfold materialised.
  destruct (embedAssets opts); [by rewrite Hfiles|done].
Qed.

Lemma attachments_in_order_files opts testId files files' clk k results :
  (embedAssets opts = true -> files' = files) ->
  attachments_in_order opts testId files' clk k results
  = attachments_in_order opts testId files clk k results.
Proof.
  intros Hfiles. revert k. induction results as [|res rest IH]; intros k; simpl;
    [done|].
  rewrite IH. f_equal. apply imap_ext. intros i a _. simpl.
  by apply materialised_files.
Qed.

Lemma resolved_started opts testId retry files now atts :
  map (resolved opts files)
    (imap (fun i a => pending_of opts testId retry files (now i) a) atts)
  = imap (fun i a => materialised opts testId retry files (now i) a) atts.
Proof.
  revert now. induction atts as [|a atts IH]; intros now; simpl; [done|].
  rewrite (proj2 (proj2 (pending_of_spec opts testId retry files (now 0%nat) a))).
  f_equal. apply (IH (fun i => now (S i))).
Qed.

Lemma started_promises opts testId retry files now atts :
  Forall (of_mode opts)
    (imap (fun i a => pending_of opts testId retry files (now i) a) atts) /\
  Forall (started files)
    (imap (fun i a => pending_of opts testId retry files (now i) a) atts).
Proof.
  revert now. induction atts as [|a atts IH]; intros now; simpl; [by split|].
  destruct (pending_of_spec opts testId retry files (now 0%nat) a) as (Hm & Hs & _).
  destruct (IH (fun i => now (S i))) as [Hms Hss].
  split; by constructor.
Qed.

Lemma collect_attachments_cons opts sched testId acc j res rest w :
  collect_attachments opts sched testId acc j (res :: rest) w =
    match Promise_all (complete opts (promises_of opts testId res w))
            (sched testId j) (promises_of opts testId res w)
            (after_starts opts (length (attachments res)) w) with
    | (Ok processedAttachments, w') =>
        collect_attachments opts sched testId (acc ++ processedAttachments)
          (S j) rest w'
    | (Throw e, w') => (Throw e, w')
    | (Hang, w') => (Hang, w')
    end.
Proof.
  simpl collect_attachments. unfold bind at 1. rewrite traverse_start.
  reflexivity.
Qed.

Lemma promises_of_spec opts testId res w :
  Forall (of_mode opts) (promises_of opts testId res w) /\
  Forall (started (fs w)) (promises_of opts testId res w) /\
  map (resolved opts (fs w)) (promises_of opts testId res w)
  = imap (fun i a =>
            materialised opts testId (retry res) (fs w)
              (clock w (ticks w + i)%nat) a) (attachments res).
Proof.
  destruct (started_promises opts testId (retry res) (fs w)
              (fun i => clock w (ticks w + i)%nat) (attachments res)) as [Hm Hs].
  split; [exact Hm|]. split; [exact Hs|].
  apply (resolved_started opts testId (retry res) (fs w)
           (fun i => clock w (ticks w + i)%nat)).
Qed.

(** The attachment loop returns the closed form or throws, under every
    scheduler; it never stays pending. *)
Lemma collect_attachments_eq opts sched testId acc j results w :
  match collect_attachments opts sched testId acc j results w with
  | (Ok allAttachments, w') =>
      allAttachments =
        acc ++ attachments_in_order opts testId (fs w) (clock w) (ticks w) results
  | (Throw e, w') => True
  | (Hang, w') => False
  end.
Proof.
  revert acc j w. induction results as [|res rest IH]; intros acc j w.
  - simpl. by rewrite app_nil_r.
  - rewrite collect_attachments_cons.
    destruct (promises_of_spec opts testId res w) as (Hmodes & Hstarted & Hvals).
    pose proof (Promise_all_complete opts (promises_of opts testId res w)
                  (sched testId j)
                  (promises_of opts testId res w)
                  (after_starts opts (length (attachments res)) w)
                  Hmodes Hstarted) as Hall.
    destruct (Promise_all _ _ _ _) as [[values|e|] w2]; [|done|done].
    destruct Hall as ((Hc2 & Ht2 & Hf2) & _ & -> & _).
    specialize (IH (acc ++ map (resolved opts (fs w))
                             (promises_of opts testId res w)) (S j) w2).
    simpl fs in *.
    destruct (collect_attachments _ _ _ _ _ _ w2) as [[atts|e|] w3]; [|done|done].
    subst atts. rewrite <- app_assoc. f_equal. simpl. f_equal; [exact Hvals|].
    rewrite Hc2, Ht2. simpl.
    apply attachments_in_order_files. intros Hembed. by rewrite Hf2.
Qed.

Lemma resolved_agree opts files files' p :
  of_mode opts p -> (embedAssets opts = true -> files' = files) ->
  resolved opts files' p = resolved opts files p.
Proof.
  intros Hmode Hfiles. destruct p as [a src|src dst r]; simpl in *; [|done].
  by rewrite Hfiles.
Qed.

Lemma kinds_after_kinds ps files files' :
  same_kinds files files' ->
  forall q, kinds_after ps files q = kinds_after ps files' q.
Proof. intros Hk q. unfold kinds_after. by rewrite (Hk q). Qed.

Lemma promises_of_agree opts testId res w w' :
  agree opts w w' -> promises_of opts testId res w' = promises_of opts testId res w.
Proof.
  intros (Hclock & Hticks & Hfs & Hkinds). unfold promises_of.
  rewrite Hclock, Hticks. apply imap_ext. intros i a _. simpl. unfold pending_of.
  by rewrite <- (choose_source_kinds (fs w) (fs w') a Hkinds).
Qed.

(** Two runs of the attachment loop that start in worlds alike, each under
    its own scheduler, both return the same list or both throw. *)
Lemma collect_attachments_agree opts sa sb testId acc j results wa wb :
  agree opts wa wb ->
  same_outcome (fst (collect_attachments opts sa testId acc j results wa))
               (fst (collect_attachments opts sb testId acc j results wb)).
Proof.
  revert acc j wa wb. induction results as [|res rest IH];
    intros acc j wa wb Hagree.
  - simpl. done.
  - rewrite !collect_attachments_cons, (promises_of_agree _ _ _ _ _ Hagree).
    destruct Hagree as (Hclock & Hticks & Hfs & Hkinds).
    set (ps := promises_of opts testId res wa).
    set (wa1 := after_starts opts (length (attachments res)) wa).
    set (wb1 := after_starts opts (length (attachments res)) wb).
    destruct (promises_of_spec opts testId res wa) as (Hmodes & Hstarted & _).
    fold ps in Hmodes, Hstarted.
    assert (Forall (started (fs wb1)) ps) as Hstarted'.
    { eapply Forall_impl; [exact Hstarted|]. intros p Hp.
      destruct p as [a [q|?|]|[q|?|] dst r]; simpl in *; try done;
        by rewrite <- (Hkinds q). }
    pose proof (Promise_all_complete opts ps (sa testId j) ps wa1 Hmodes Hstarted)
      as Ha.
    pose proof (Promise_all_complete opts ps (sb testId j) ps wb1 Hmodes Hstarted')
      as Hb.
    assert (Forall (succeeds (fs wa1)) ps <-> Forall (succeeds (fs wb1)) ps) as Hsame.
    { rewrite !Forall_forall. split; intros Hs p Hp; specialize (Hs p Hp);
        by apply (succeeds_kinds (fs wa) (fs wb) p Hkinds). }
    destruct (Promise_all _ _ _ wa1) as [[va|ea|] wa2],
             (Promise_all _ _ _ wb1) as [[vb|eb|] wb2]; try done.
    + destruct Ha as ((Hca & Hta & Hfa) & Hka & -> & _).
      destruct Hb as ((Hcb & Htb & Hfb) & Hkb & -> & _).
      assert (map (resolved opts (fs wb1)) ps = map (resolved opts (fs wa1)) ps) as ->.
      { apply map_ext_Forall. eapply Forall_impl; [exact Hmodes|].
        intros p Hp. by apply resolved_agree. }
      apply IH. unfold wa1, wb1, after_starts in *. simpl in *.
      split; [congruence|]. split; [by rewrite Hta, Htb, Hticks|]. split.
      * intros Hembed. rewrite Hfb, Hfa by done. auto.
      * intros q. rewrite Hka, Hkb. by apply kinds_after_kinds.
    + destruct Ha as (_ & _ & _ & Hok). exfalso. apply Hb. by apply Hsame.
    + destruct Hb as (_ & _ & _ & Hok). exfalso. apply Ha. by apply Hsame.
Qed.

Lemma agree_refl opts w : agree opts w w.
Proof. repeat split; done. Qed.

Lemma collect_attachments_settles opts sched testId acc j results w :
  fst (collect_attachments opts sched testId acc j results w) <> Hang.
Proof.
  pose proof (collect_attachments_eq opts sched testId acc j results w) as Heq.
  destruct (collect_attachments _ _ _ _ _ _ w) as [[atts|e|] w']; done.
Qed.

Lemma materialised_origin opts testId res files now a :
  materialised_from opts testId (res, a)
    (materialised opts testId (retry res) files now a).
Proof.
  unfold materialised_from, materialised. simpl.
  destruct (embedAssets opts); (split; [reflexivity|eauto]).
Qed.

Lemma attempt_origins opts testId res files (now : nat -> Z) atts :
  Forall2 (materialised_from opts testId) (map (pair res) atts)
    (imap (fun i a => materialised opts testId (retry res) files (now i) a) atts).
Proof.
  revert now. induction atts as [|a atts IH]; intros now; simpl; constructor.
  - apply materialised_origin.
  - apply (IH (fun i => now (S i))).
Qed.

Lemma attachments_in_order_origins opts testId files clk k results :
  Forall2 (materialised_from opts testId) (origins results)
    (attachments_in_order opts testId files clk k results).
Proof.
  revert k. induction results as [|res rest IH]; intros k; simpl; [constructor|].
  apply Forall2_app; [|apply IH].
  apply (attempt_origins opts testId res files (fun i => clk (k + i)%nat)).
Qed.

Lemma origin_names opts testId os rs :
  Forall2 (materialised_from opts testId) os rs ->
  map name rs = map (fun origin => a_name (snd origin)) os.
Proof.
  induction 1 as [|origin r os rs [Hname _] _ IH]; simpl; [done|].
  by rewrite Hname, IH.
Qed.

(** C4. For every test the consolidated attachment list follows attempt
    order first and declaration order second: it is exactly the list of the
    records of the attachments taken attempt by attempt and, within an
    attempt, in declaration order -- in inline mode the record built from
    the bytes the attachment has as the loop starts, in stored mode the
    record named after the clock reading the attachment made as its turn
    came -- so its i-th record belongs to the i-th attachment in that
    order.  The list does not depend on the order in which the concurrent
    materialisations settle: under every other scheduler the loop returns
    the same list. *)
Theorem attachment_order opts sched testId results w allAttachments :
  fst (collect_attachments opts sched testId [] 0 results w) = Ok allAttachments ->
  allAttachments
  = attachments_in_order opts testId (fs w) (clock w) (ticks w) results /\
  Forall2 (materialised_from opts testId) (origins results) allAttachments /\
  map name allAttachments = map (fun origin => a_name (snd origin)) (origins results) /\
  (forall sched',
     fst (collect_attachments opts sched' testId [] 0 results w) = Ok allAttachments).
Proof.
  intros Hrun.
  assert (allAttachments
          = attachments_in_order opts testId (fs w) (clock w) (ticks w) results)
    as Hclosed.
  { pose proof (collect_attachments_eq opts sched testId [] 0 results w) as Heq.
    destruct (collect_attachments opts sched testId [] 0 results w)
      as [[atts|e|] w']; simpl in Hrun; [|done..].
    injection Hrun as <-. exact Heq. }
  pose proof (attachments_in_order_origins opts testId (fs w) (clock w) (ticks w)
                results) as Horigins.
  rewrite <- Hclosed in Horigins.
  split; [exact Hclosed|].
  split; [exact Horigins|]. split; [by eapply origin_names|].
  intros sched'.
  pose proof (collect_attachments_agree opts sched sched' testId [] 0 results w w
                (agree_refl opts w)) as Hsame.
  rewrite Hrun in Hsame.
  destruct (fst (collect_attachments opts sched' testId [] 0 results w));
    simpl in Hsame; [by subst|done..].
Qed.

Lemma choose_source_missing files a :
  path_missing files a -> choose_source files a = from_body a.
Proof.
  unfold path_missing, choose_source. destruct (a_path a) as [p|]; [|done].
  intros [->|Hnone]; [done|].
  destruct (String.eqb p ""); [done|].
  rewrite bool_decide_eq_false_2; [done|]. rewrite Hnone. by intros [? ?].
Qed.

Lemma processAttachment_eq opts a testId retry w :
  processAttachment opts a testId retry w =
    if embedAssets opts
    then complete opts [Embedding a (choose_source (fs w) a)]
           (Embedding a (choose_source (fs w) a)) w
    else complete opts
           [Storing (choose_source (fs w) a)
              (path_join (attachmentsDir opts)
                 (attachmentFileName testId a retry (clock w (ticks w))))
              (stored testId retry (clock w (ticks w)) a)]
           (Storing (choose_source (fs w) a)
              (path_join (attachmentsDir opts)
                 (attachmentFileName testId a retry (clock w (ticks w))))
              (stored testId retry (clock w (ticks w)) a))
           (tick w).
Proof.
  unfold processAttachment, bind. rewrite start_eq.
  destruct (embedAssets opts); reflexivity.
Qed.



(** In inline mode [processAttachment] is [getEmbeddedAssetData] with the
    name put back. *)
Lemma processAttachment_inline opts a testId retry w :
  embedAssets opts = true ->
  processAttachment opts a testId retry w =
    match getEmbeddedAssetData opts a w with
    | (Ok (dataUrl, finalContentType), w') =>
        (Ok {| name := a_name a; contentType := finalContentType; path := dataUrl |},
         w')
    | (Throw e, w') => (Throw e, w')
    | (Hang, w') => (Hang, w')
    end.
Proof.
  intros Hembed. rewrite processAttachment_eq, Hembed, complete_embedding.
  unfold getEmbeddedAssetData, bind. rewrite source_of_eq.
  destruct (read_source _ w) as [[buffer|e|] w']; [|done..].
  unfold ret, embedded. destruct (encode opts a buffer); reflexivity.
Qed.

(** C7, as the code has it.  For every raw attachment whose declared path
    is absent, empty or names nothing that exists, and which carries no
    byte buffer, materialisation returns without raising and writes
    nothing: in inline mode the reference is the empty string, in stored
    mode it is the relative path generated for a blob that is not
    written. *)
Theorem missing_source_placeholder opts a testId retry w :
  path_missing (fs w) a -> a_body a = None ->
  exists w',
    processAttachment opts a testId retry w =
      (Ok (if embedAssets opts
           then {| name := a_name a; contentType := declared_type a; path := "" |}
           else stored testId retry (clock w (ticks w)) a), w') /\
    fs w' = fs w.
Proof.
  intros Hmissing Hbody. rewrite processAttachment_eq.
  rewrite (choose_source_missing _ _ Hmissing). unfold from_body. rewrite Hbody.
  destruct (embedAssets opts).
  - exists w. rewrite complete_embedding, read_source_eq. done.
  - exists (tick w). rewrite complete_storing. done.
Qed.

(** What the claim as stated would need: a path that exists but cannot be
    read makes both modes raise. *)
Lemma unreadable_source_raises opts a testId retry w p :
  a_path a = Some p -> p <> ""%string -> fs w !! p = Some Directory ->
  fst (processAttachment opts a testId retry w) = Throw "EISDIR".
Proof.
  intros Hpath Hp Hdir. rewrite processAttachment_eq.
  assert (choose_source (fs w) a = FromPath p) as ->.
  { unfold choose_source. rewrite Hpath.
    destruct (String.eqb_spec p ""); [done|].
    rewrite bool_decide_eq_true_2; [done|]. rewrite Hdir. eauto. }
  destruct (embedAssets opts).
  - rewrite complete_embedding, read_source_eq, Hdir. done.
  - rewrite complete_storing. change (fs (tick w)) with (fs w). rewrite Hdir. done.
Qed.



End Attachments.

(** The spec's example in stored mode: attempts A0 and A1, each declaring x
    and y, with the last started materialisation settling first. *)
Lemma attachment_order_witness :
  fst (@collect_attachments Demo.platform (constructor Demo.no_options)
         Demo.last_first "t1" [] 0 [Demo.A0; Demo.A1] (Demo.world Demo.files))
  = Ok [ {| name := "x"; contentType := "image/png";
            path := "attachments/t1-x-0-1700000000000.png" |};
         {| name := "y"; contentType := "text/plain";
            path := "attachments/t1-y-0-1700000000001.plain" |};
         {| name := "x"; contentType := "image/png";
            path := "attachments/t1-x-1-1700000000002.png" |};
         {| name := "y"; contentType := "text/plain";
            path := "attachments/t1-y-1-1700000000003.plain" |} ] /\
  fst (@collect_attachments Demo.platform (constructor Demo.no_options)
         Demo.first_first "t1" [] 0 [Demo.A0; Demo.A1] (Demo.world Demo.files))
  = fst (@collect_attachments Demo.platform (constructor Demo.no_options)
           Demo.last_first "t1" [] 0 [Demo.A0; Demo.A1] (Demo.world Demo.files)).
Proof.
  assert (fst (@collect_attachments Demo.platform (constructor Demo.no_options)
                 Demo.last_first "t1" [] 0 [Demo.A0; Demo.A1]
                 (Demo.world Demo.files))
          = Ok [ {| name := "x"; contentType := "image/png";
                    path := "attachments/t1-x-0-1700000000000.png" |};
                 {| name := "y"; contentType := "text/plain";
                    path := "attachments/t1-y-0-1700000000001.plain" |};
                 {| name := "x"; contentType := "image/png";
                    path := "attachments/t1-x-1-1700000000002.png" |};
                 {| name := "y"; contentType := "text/plain";
                    path := "attachments/t1-y-1-1700000000003.plain" |} ])
    as Hlast by (vm_compute; reflexivity).
  split; [exact Hlast|].
  destruct (@attachment_order Demo.platform _ _ _ _ _ _ Hlast)
    as (_ & _ & _ & Hsame).
  rewrite (Hsame Demo.first_first), Hlast. reflexivity.
Defined.

(** The same example in inline mode, under both schedulers. *)
Example inline_attachment_order :
  map name
    (match fst (@collect_attachments Demo.platform (constructor Demo.inline_options)
                  Demo.last_first "t1" [] 0 [Demo.A0; Demo.A1]
                  (Demo.world Demo.files)) with
     | Ok l => l
     | _ => []
     end) = ["x"; "y"; "x"; "y"]%string /\
  fst (@collect_attachments Demo.platform (constructor Demo.inline_options)
         Demo.last_first "t1" [] 0 [Demo.A0; Demo.A1] (Demo.world Demo.files))
  = fst (@collect_attachments Demo.platform (constructor Demo.inline_options)
           Demo.first_first "t1" [] 0 [Demo.A0; Demo.A1] (Demo.world Demo.files)).
Proof. split; vm_compute; reflexivity. Qed.

(** A video whose file is gone and which has no body: both modes return. *)
Lemma missing_source_placeholder_witness :
  path_missing Demo.files Demo.lost /\ a_body Demo.lost = None /\
  fst (@processAttachment Demo.platform (constructor Demo.inline_options)
         Demo.lost "T" 0 (Demo.world Demo.files))
  = Ok {| name := "video"; contentType := "video/webm"; path := "" |} /\
  fst (@processAttachment Demo.platform (constructor Demo.no_options)
         Demo.lost "T" 0 (Demo.world Demo.files))
  = Ok {| name := "video"; contentType := "video/webm";
          path := "attachments/T-video-0-1700000000000.webm" |}.
Proof.
  assert (path_missing Demo.files Demo.lost) as Hmissing.
  { right. vm_compute. reflexivity. }
  split; [exact Hmissing|]. split; [reflexivity|]. split.
  - destruct (@missing_source_placeholder Demo.platform
                (constructor Demo.inline_options) Demo.lost "T" 0
                (Demo.world Demo.files) Hmissing eq_refl) as (w' & -> & _).
    reflexivity.
  - destruct (@missing_source_placeholder Demo.platform
                (constructor Demo.no_options) Demo.lost "T" 0
                (Demo.world Demo.files) Hmissing eq_refl) as (w' & -> & _).
    vm_compute. reflexivity.
Defined.

(** C7, as stated, fails when the declared path exists but is not readable:
    the attachment below names a directory and has no body, and
    materialisation raises in inline mode and in stored mode. *)
Lemma directory_path_raises :
  path_unreadable Demo.files Demo.dir_attachment /\
  a_body Demo.dir_attachment = None /\
  fst (@processAttachment Demo.platform (constructor Demo.inline_options)
         Demo.dir_attachment "T" 0 (Demo.world Demo.files)) = Throw "EISDIR" /\
  fst (@processAttachment Demo.platform (constructor Demo.no_options)
         Demo.dir_attachment "T" 0 (Demo.world Demo.files)) = Throw "EISDIR".
Proof.
  split; [|split; [reflexivity|split; vm_compute; reflexivity]].
  intros content. vm_compute. discriminate.
Qed.



(** ** Consolidation of one test *)

Section Consolidation.
Context {platform : Platform}.

Lemma consolidate_unfold sched entry finalResult r w :
  last (results entry) = Some finalResult ->
  consolidate sched entry (r, w) =
    match collect_attachments (options r) sched (id (test entry)) [] 0
            (results entry) w with
    | (Ok allAttachments, w') =>
        (Ok {| t_title := title (test entry);
               t_status := reportingStatus (test entry) finalResult;
               t_retries := (Z.of_nat (length (results entry)) - 1)%Z;
               t_attachments := allAttachments |},
         (counted entry finalResult r, w'))
    | (Throw e, w') => (Throw e, (counted entry finalResult r, w'))
    | (Hang, w') => (Hang, (counted entry finalResult r, w'))
    end.
Proof.
  intros Hlast. unfold consolidate. rewrite Hlast.
  unfold bind, on_this, modify, get_this, on_world, ret, counted. simpl.
  destruct (collect_attachments _ _ _ _ _ _ w) as [[a|e|] w']; reflexivity.
Qed.

(** An identity without attempts cannot be consolidated: reading the status
    of the missing final attempt throws before anything is counted. *)
Lemma consolidate_empty sched entry s :
  results entry = [] -> exists e, consolidate sched entry s = (Throw e, s).
Proof.
  intros Hnil. unfold consolidate. rewrite Hnil. simpl. eexists. reflexivity.
Qed.

Lemma consolidate_settles sched entry s : fst (consolidate sched entry s) <> Hang.
Proof.
  destruct s as [r w].
  destruct (last (results entry)) as [finalResult|] eqn:Hlast.
  - rewrite (consolidate_unfold _ _ _ _ _ Hlast).
    pose proof (collect_attachments_settles (options r) sched (id (test entry))
                  [] 0 (results entry) w) as Hs.
    destruct (collect_attachments _ _ _ _ _ _ w) as [[a|e|] w']; done.
  - unfold consolidate. rewrite Hlast. done.
Qed.

(** C1. For every test consolidated from a non-empty attempt list: when the
    test is expected to fail and its last attempt passed, the reporting
    status is failed; when it is expected to pass, the reporting status is
    the status of the last attempt; and the reporting status is what the
    consolidated record carries. *)
Theorem expectation_inversion sched entry finalResult s :
  last (results entry) = Some finalResult ->
  (expectedStatus (test entry) = Failed -> status finalResult = Passed ->
     reportingStatus (test entry) finalResult = Failed) /\
  (expectedStatus (test entry) = Passed ->
     reportingStatus (test entry) finalResult = status finalResult) /\
  (forall record, fst (consolidate sched entry s) = Ok record ->
     t_status record = reportingStatus (test entry) finalResult).
Proof.
  intros Hlast. split; [|split].
  - intros Hexp Hst. unfold reportingStatus. rewrite Hexp, Hst. reflexivity.
  - intros Hexp. unfold reportingStatus. rewrite Hexp. reflexivity.
  - intros record. destruct s as [r w].
    rewrite (consolidate_unfold _ _ _ _ _ Hlast).
    destruct (collect_attachments _ _ _ _ _ _ w) as [[a|e|] w']; [|done..].
    intros [= <-]. reflexivity.
Qed.

Lemma flaky_count_test st n c :
  flaky (count_test st n c) = if (1 <? n)%nat then S (flaky c) else flaky c.
Proof.
  unfold count_test, count_flaky. destruct (1 <? n)%nat; destruct st; reflexivity.
Qed.

(** C3. For every test with N attempts, N at least 1: the consolidated
    record has [retries = N - 1], and consolidating the test increments the
    flaky counter when N > 1 and leaves it alone when N = 1, whatever the
    attempts' statuses and whether or not the materialisation of its
    attachments succeeds afterwards. *)
Theorem retries_and_flaky sched entry s :
  results entry <> [] ->
  ((1 < length (results entry))%nat ->
     flaky (counts (fst (snd (consolidate sched entry s))))
     = S (flaky (counts (fst s)))) /\
  ((length (results entry) <= 1)%nat ->
     flaky (counts (fst (snd (consolidate sched entry s))))
     = flaky (counts (fst s))) /\
  (forall record, fst (consolidate sched entry s) = Ok record ->
     t_retries record = (Z.of_nat (length (results entry)) - 1)%Z).
Proof.
  intros Hne.
  destruct (last (results entry)) as [finalResult|] eqn:Hlast;
    [|by apply last_None in Hlast].
  destruct s as [r w].
  rewrite (consolidate_unfold _ _ _ _ _ Hlast).
  destruct (collect_attachments _ _ _ _ _ _ w) as [[a|e|] w']; simpl;
    rewrite flaky_count_test.
  all: split; [intros Hgt; apply Nat.ltb_lt in Hgt; by rewrite Hgt|].
  all: split; [intros Hle; apply Nat.ltb_ge in Hle; by rewrite Hle|].
  all: intros record; try done.
  intros [= <-]. reflexivity.
Qed.

End Consolidation.

(** Test KnownBug, expected to fail, whose only attempt passed: reported as
    failed. *)
Lemma expectation_inversion_witness :
  last (results Demo.known_bug_entry) = Some (Demo.bare Passed) /\
  expectedStatus Demo.KnownBug = Failed /\ status (Demo.bare Passed) = Passed /\
  reportingStatus Demo.KnownBug (Demo.bare Passed) = Failed.
Proof.
  split; [reflexivity|]. split; [reflexivity|]. split; [reflexivity|].
  destruct (@expectation_inversion Demo.platform Demo.first_first
              Demo.known_bug_entry (Demo.bare Passed)
              (new_reporter Demo.no_options, Demo.world Demo.files) eq_refl)
    as (Hinverted & _).
  apply Hinverted; reflexivity.
Defined.

(** Test Login, attempts failed then passed, expected to pass: one retry,
    counted as flaky once. *)
Lemma retries_and_flaky_witness :
  results Demo.login_entry <> [] /\
  (1 < length (results Demo.login_entry))%nat /\
  flaky (counts (fst (snd (@consolidate Demo.platform Demo.first_first
                             Demo.login_entry
                             (new_reporter Demo.no_options, Demo.world Demo.files)))))
  = 1%nat.
Proof.
  split; [discriminate|]. split; [simpl; lia|].
  destruct (@retries_and_flaky Demo.platform Demo.first_first Demo.login_entry
              (new_reporter Demo.no_options, Demo.world Demo.files))
    as (Hflaky & _); [discriminate|].
  rewrite Hflaky; [reflexivity|simpl; lia].
Defined.

(** The two scenarios of the specification, evaluated. *)
Example login_scenario :
  fst (@consolidate Demo.platform Demo.first_first Demo.login_entry
         (new_reporter Demo.no_options, Demo.world Demo.files))
  = Ok {| t_title := "Login"; t_status := Passed; t_retries := 1; t_attachments := [] |}.
Proof. vm_compute. reflexivity. Qed.

Example known_bug_scenario :
  fst (@consolidate Demo.platform Demo.first_first Demo.known_bug_entry
         (new_reporter Demo.no_options, Demo.world Demo.files))
  = Ok {| t_title := "KnownBug"; t_status := Failed; t_retries := 0;
          t_attachments := [] |}.
Proof. vm_compute. reflexivity. Qed.

(** ** The attempt accumulator *)

Lemma onTestEnd_map_nil t result :
  onTestEnd_map t result [] = [(id t, {| test := t; results := [result] |})].
Proof. unfold onTestEnd_map. simpl. by rewrite String.eqb_refl. Qed.

(** [onTestEnd] appends to the entry of the test if there is one, and adds
    an entry at the end otherwise. *)
Lemma onTestEnd_map_cons t result k e m :
  onTestEnd_map t result ((k, e) :: m) =
    if String.eqb k (id t)
    then (k, {| test := test e; results := results e ++ [result] |}) :: m
    else (k, e) :: onTestEnd_map t result m.
Proof.
  unfold onTestEnd_map. simpl testMap_get.
  destruct (String.eqb k (id t)) eqn:Hk.
  - simpl. by rewrite Hk.
  - destruct (testMap_get (id t) m); simpl; rewrite Hk; [done|].
    simpl. by rewrite Hk.
Qed.

Lemma keys_onTestEnd_map t result m :
  keys (onTestEnd_map t result m) =
    if decide (id t ∈ keys m) then keys m else keys m ++ [id t].
Proof.
  induction m as [|[k e] m IH].
  - rewrite onTestEnd_map_nil.
    destruct (decide (id t ∈ keys [])) as [Hin|_]; [|done].
    by apply elem_of_nil in Hin.
  - rewrite onTestEnd_map_cons.
    change (keys ((k, e) :: m)) with (k :: keys m).
    destruct (String.eqb_spec k (id t)) as [->|Hne].
    + rewrite decide_True; [done|by left].
    + change (keys ((k, e) :: onTestEnd_map t result m))
        with (k :: keys (onTestEnd_map t result m)).
      rewrite IH.
      destruct (decide (id t ∈ keys m)) as [Hin|Hnot].
      * rewrite decide_True; [done|by right].
      * rewrite decide_False; [done|]. rewrite not_elem_of_cons. done.
Qed.

(** No entry of the map is without attempts. *)
Lemma onTestEnd_map_nonempty t result m :
  Forall (fun e => results e <> []) (map snd m) ->
  Forall (fun e => results e <> []) (map snd (onTestEnd_map t result m)).
Proof.
  induction m as [|[k e] m IH]; intros Hm.
  - rewrite onTestEnd_map_nil. by repeat constructor.
  - rewrite onTestEnd_map_cons. simpl in Hm. apply Forall_cons in Hm as [He Hm].
    destruct (String.eqb k (id t)); simpl.
    + constructor; [|done]. simpl. by destruct (results e).
    + constructor; [done|by apply IH].
Qed.

Lemma accumulate_nonempty events m :
  Forall (fun e => results e <> []) (map snd m) ->
  Forall (fun e => results e <> []) (map snd (accumulate events m)).
Proof.
  revert m. induction events as [|[t result] events IH]; intros m Hm; [done|].
  apply IH. by apply onTestEnd_map_nonempty.
Qed.

Lemma keys_accumulate events m :
  NoDup (keys m) ->
  NoDup (keys (accumulate events m)) /\
  (list_to_set (keys (accumulate events m)) : gset string)
  = identities events ∪ list_to_set (keys m).
Proof.
  revert m. induction events as [|[t result] events IH]; intros m Hm.
  - split; [done|]. unfold identities. simpl. set_solver.
  - simpl. destruct (IH (onTestEnd_map t result m)) as [Hnd Hset].
    + rewrite keys_onTestEnd_map. destruct (decide (id t ∈ keys m)); [done|].
      apply NoDup_app. split; [done|]. split; [|apply NoDup_singleton].
      intros x Hx ->%list_elem_of_singleton. done.
    + split; [done|]. unfold accumulate in *. simpl. rewrite Hset.
      rewrite keys_onTestEnd_map. unfold identities. simpl.
      destruct (decide (id t ∈ keys m)) as [Hin|Hnot].
      * apply (elem_of_list_to_set (C := gset string)) in Hin. set_solver.
      * rewrite list_to_set_app_L. simpl. set_solver.
Qed.

(** The attempt map of a run has one entry per distinct test identity. *)
Lemma size_accumulate events :
  length (accumulate events []) = size (identities events).
Proof.
  destruct (keys_accumulate events []) as [Hnd Hset]; [constructor|].
  simpl in Hset. rewrite union_empty_r_L in Hset.
  rewrite <- Hset, size_list_to_set by done. unfold keys. by rewrite length_map.
Qed.

Lemma foldl_onTestEnd events r :
  foldl (fun r ev => onTestEnd (fst ev) (snd ev) r) r events
  = set_testMap (accumulate events (testMap r)) r.
Proof.
  revert r. induction events as [|ev events IH]; intros r; simpl.
  - by destruct r.
  - rewrite IH. reflexivity.
Qed.

(** ** What the methods leave in place *)

Section Stable.
Context {A B : Type} (P : Reporter -> Prop).

Lemma stable_ret (a : A) : stable P (ret a).
Proof. intros s Hs. exact Hs. Qed.

Lemma stable_throw e : stable P (@throw _ A e).
Proof. intros s Hs. exact Hs. Qed.

Lemma stable_hang : stable P (@hang _ A).
Proof. intros s Hs. exact Hs. Qed.

Lemma stable_get_this : stable P get_this.
Proof. intros s Hs. exact Hs. Qed.

Lemma stable_on_world (m : M World A) : stable P (on_world m).
Proof. intros [r w] Hs. unfold on_world. simpl. destruct (m w). exact Hs. Qed.

Lemma stable_on_this f : (forall r, P r -> P (f r)) -> stable P (on_this f).
Proof. intros Hf s Hs. simpl. auto. Qed.

Lemma stable_bind (m : M (Reporter * World) A) (k : A -> M (Reporter * World) B) :
  stable P m -> (forall a, stable P (k a)) -> stable P (bind m k).
Proof.
  intros Hm Hk s Hs. unfold bind. specialize (Hm s Hs).
  destruct (m s) as [[a|e|] s']; simpl in *; [by apply Hk|done..].
Qed.

Lemma stable_try_catch (m : M (Reporter * World) A) handler :
  stable P m -> (forall e, stable P (handler e)) -> stable P (try_catch m handler).
Proof.
  intros Hm Hh s Hs. unfold try_catch. specialize (Hm s Hs).
  destruct (m s) as [[a|e|] s']; simpl in *; [done|by apply Hh|done].
Qed.

Lemma stable_if (c : bool) (m1 m2 : M (Reporter * World) A) :
  stable P m1 -> stable P m2 -> stable P (if c then m1 else m2).
Proof. by destruct c. Qed.

End Stable.

(** Walks a computation built from the monad's operations. *)
Ltac stable_steps :=
  repeat first
    [ apply stable_bind; [|intros ?]
    | apply stable_try_catch; [|intros ?]
    | apply stable_if
    | apply stable_on_world
    | apply stable_hang
    | apply stable_get_this | apply stable_ret | apply stable_throw ].

(** ** Counting over a run *)

Section Counting.
Context {platform : Platform}.

(** Whatever [onBegin] meets on the filesystem, it leaves the attempt map
    empty and the counters at zero. *)
Lemma onBegin_resets s :
  testMap (fst (snd (onBegin s))) = [] /\ counts (fst (snd (onBegin s))) = zero.
Proof.
  unfold onBegin. unfold bind at 1. unfold on_this at 1, modify.
  match goal with
  | |- context [bind ?m ?k ?s1] =>
      assert (stable (fun r => testMap r = [] /\ counts r = zero) (bind m k)) as Hst
  end.
  { stable_steps. destruct (JSON_parse _); [|apply stable_throw].
    apply stable_on_this. by intros r [? ?]. }
  apply Hst. done.
Qed.

Lemma update_history_keeps fuel c ts :
  stable (fun r => counts r = c /\ tests r = ts) (update_history fuel).
Proof.
  unfold update_history. stable_steps.
  destruct (trim _ _ _); stable_steps.
Qed.

Lemma balanced_count_test st n c : balanced c -> balanced (count_test st n c).
Proof.
  unfold balanced, count_test, count_flaky.
  destruct (1 <? n)%nat, st; simpl; lia.
Qed.

Lemma total_count_test st n c : total (count_test st n c) = S (total c).
Proof.
  unfold count_test, count_flaky. destruct (1 <? n)%nat, st; reflexivity.
Qed.

Lemma traverse_consolidate sched entries r w :
  match traverse (consolidate sched) entries (r, w) with
  | (res, (r', w')) =>
      testMap r' = testMap r /\ tests r' = tests r /\
      (balanced (counts r) -> balanced (counts r')) /\
      match res with
      | Ok records =>
          total (counts r') = (total (counts r) + length entries)%nat /\
          length records = length entries /\
          Forall (fun e => results e <> []) entries
      | _ => True
      end
  end.
Proof.
  revert r w. induction entries as [|entry entries IH]; intros r w.
  - simpl. repeat split; try done; lia.
  - simpl traverse. unfold bind at 1.
    destruct (last (results entry)) as [finalResult|] eqn:Hlast.
    + rewrite (consolidate_unfold _ _ _ _ _ Hlast).
      destruct (collect_attachments _ _ _ _ _ _ w) as [[atts|e|] w1].
      * specialize (IH (counted entry finalResult r) w1). unfold bind.
        destruct (traverse _ _ _) as [[records|e|] [r' w']];
          destruct IH as (Hmap & Htests & Hbal & Hok); simpl in *.
        all: split; [done|]; split; [done|].
        all: split; [intros Hb; by apply Hbal, balanced_count_test|].
        all: try done.
        destruct Hok as (Htotal & Hlen & Hne).
        split; [rewrite Htotal, total_count_test; lia|].
        split; [by rewrite Hlen|].
        constructor; [|done]. intros Hnil. by rewrite Hnil in Hlast.
      * simpl. repeat split; try done. intros Hb. by apply balanced_count_test.
      * simpl. repeat split; try done. intros Hb. by apply balanced_count_test.
    + unfold consolidate. rewrite Hlast. simpl. done.
Qed.

Lemma onEnd_counts fuel sched r w :
  match onEnd fuel sched (r, w) with
  | (res, (r', w')) =>
      (balanced (counts r) -> balanced (counts r')) /\
      (res = Ok tt ->
         total (counts r') = (total (counts r) + length (testMap r))%nat /\
         length (tests r') = length (testMap r))
  end.
Proof.
  unfold onEnd. unfold bind at 1. unfold on_world at 1, Date_now. simpl fst. simpl snd.
  unfold bind at 1. unfold get_this at 1. simpl fst.
  unfold bind at 1.
  pose proof (traverse_consolidate sched (map snd (testMap r)) r (tick w)) as Htr.
  change {| fs := fs w; clock := clock w; ticks := S (ticks w) |} with (tick w).
  destruct (traverse _ _ _) as [[records|e|] [r1 w2]];
    destruct Htr as (Hmap & Htests & Hbal & Hok); [|done..].
  destruct Hok as (Htotal & Hlen & Hne).
  unfold bind at 1. unfold on_this at 1, modify. simpl fst. simpl snd.
  pose proof (update_history_keeps fuel (counts r1) records
                (set_tests records r1, w2) (conj eq_refl eq_refl)) as [Hc Ht].
  destruct (update_history fuel _) as [res [r' w']]. simpl in Hc, Ht.
  rewrite Hc, Ht. split; [done|]. intros _.
  rewrite length_map in Htotal, Hlen. done.
Qed.

Lemma run_counts fuel sched events r0 w :
  match run fuel sched events (r0, w) with
  | (res, (r, w')) =>
      balanced (counts r) /\
      (res = Ok tt ->
         total (counts r) = size (identities events) /\
         length (tests r) = size (identities events))
  end.
Proof.
  unfold run. unfold bind at 1.
  destruct (onBegin_resets (r0, w)) as [Hmap Hcounts].
  destruct (onBegin (r0, w)) as [[[]|e|] [r1 w1]]; simpl in Hmap, Hcounts;
    [|by rewrite Hcounts..].
  unfold bind at 1. unfold on_this at 1, modify. simpl fst. simpl snd.
  rewrite foldl_onTestEnd, Hmap.
  pose proof (onEnd_counts fuel sched
                (set_testMap (accumulate events []) r1) w1) as Hend.
  destruct (onEnd _ _ _) as [res [r w']]. destruct Hend as [Hbal Hok].
  split.
  - apply Hbal. simpl. by rewrite Hcounts.
  - intros Hres. destruct (Hok Hres) as [Htotal Htests].
    simpl in Htotal, Htests. rewrite Hcounts in Htotal.
    rewrite size_accumulate in Htotal, Htests. done.
Qed.

(** C2. For every run -- every stream of attempt events fed to a reporter
    between [onBegin] and [onEnd] -- the counters satisfy [total = passed +
    failed + skipped] in the state the run ends in; when the run completes,
    [total] is the number of distinct test identities that had an attempt,
    and also the number of consolidated records; a reporting status of
    timedOut or interrupted is counted in the failed bucket. *)
Theorem counting_invariant fuel sched events r0 w :
  balanced (counts (fst (snd (run fuel sched events (r0, w))))) /\
  (fst (run fuel sched events (r0, w)) = Ok tt ->
     total (counts (fst (snd (run fuel sched events (r0, w)))))
     = size (identities events) /\
     length (tests (fst (snd (run fuel sched events (r0, w)))))
     = size (identities events)) /\
  (forall s c, s = TimedOut \/ s = Interrupted ->
     count_status s c =
       {| total := S (total c); passed := passed c; failed := S (failed c);
          skipped := skipped c; flaky := flaky c |}).
Proof.
  pose proof (run_counts fuel sched events r0 w) as Hrun.
  destruct (run fuel sched events (r0, w)) as [res [r w']].
  destruct Hrun as [Hbal Hok].
  split; [exact Hbal|]. split; [exact Hok|]. by intros s c [-> | ->].
Qed.

End Counting.

(** Three attempt events over two tests, stored mode: the run completes with
    [total = 2 = 1 + 1 + 0]. *)
Lemma counting_invariant_witness :
  fst (@run Demo.platform 10 Demo.last_first Demo.events
         (new_reporter Demo.no_options, Demo.world Demo.files)) = Ok tt /\
  size (identities Demo.events) = 2%nat /\
  total (counts (fst (snd (@run Demo.platform 10 Demo.last_first Demo.events
                             (new_reporter Demo.no_options, Demo.world Demo.files)))))
  = 2%nat /\
  count_status TimedOut zero =
    {| total := 1; passed := 0; failed := 1; skipped := 0; flaky := 0 |}.
Proof.
  assert (fst (@run Demo.platform 10 Demo.last_first Demo.events
                 (new_reporter Demo.no_options, Demo.world Demo.files)) = Ok tt)
    as Hrun by (vm_compute; reflexivity).
  assert (size (identities Demo.events) = 2%nat) as Hsize by (vm_compute; reflexivity).
  destruct (@counting_invariant Demo.platform 10 Demo.last_first Demo.events
              (new_reporter Demo.no_options) (Demo.world Demo.files))
    as (_ & Hok & Hbucket).
  split; [exact Hrun|]. split; [exact Hsize|]. split.
  - rewrite <- Hsize. exact (proj1 (Hok Hrun)).
  - apply Hbucket. by left.
Defined.

(** The counters of that run. *)
Example counters_of_the_run :
  counts (fst (snd (@run Demo.platform 10 Demo.last_first Demo.events
                      (new_reporter Demo.no_options, Demo.world Demo.files))))
  = {| total := 2; passed := 1; failed := 1; skipped := 0; flaky := 1 |}.
Proof. vm_compute. reflexivity. Qed.

(** ** Loading the ledger at the start of a run *)

Section Begin.
Context {platform : Platform}.

(** The history file and the attachments directory lie in the output
    directory. *)
Lemma history_parent opts : path_dirname (historyFilePath opts) = outputDir opts.
Proof. by apply path_dirname_join. Qed.

Lemma attachments_parent opts : path_dirname (attachmentsDir opts) = outputDir opts.
Proof. by apply path_dirname_join. Qed.

(** [mkdirp] makes directories at paths that were missing, on the way to
    [p], and touches nothing else. *)
Lemma mkdirp_spec fuel p files files' :
  mkdirp fuel p files = Some files' ->
  kind_at files' p = IsDirectory /\
  forall q,
    files' !! q = files !! q \/
    (files !! q = None /\ files' !! q = Some Directory /\
     q ∈ p :: ancestors_up fuel p).
Proof.
  revert p files'. induction fuel as [|fuel IH]; intros p files'; simpl.
  - destruct (files !! p) as [[content|]|] eqn:Hp; [done| |].
    + intros [= <-]. split; [by apply kind_at_directory|]. intros q. by left.
    + intros [= <-]. split; [apply kind_at_directory, lookup_insert_eq|].
      intros q. destruct (decide (q = p)) as [->|Hne].
      * right. rewrite lookup_insert_eq. split; [done|]. split; [done|]. by left.
      * left. by rewrite lookup_insert_ne.
  - destruct (files !! p) as [[content|]|] eqn:Hp; [done| |].
    + intros [= <-]. split; [by apply kind_at_directory|]. intros q. by left.
    + destruct (String.eqb (path_dirname p) p).
      * intros [= <-]. split; [apply kind_at_directory, lookup_insert_eq|].
        intros q. destruct (decide (q = p)) as [->|Hne].
        -- right. rewrite lookup_insert_eq. split; [done|]. split; [done|]. by left.
        -- left. by rewrite lookup_insert_ne.
      * destruct (mkdirp fuel (path_dirname p) files) as [files1|] eqn:Hup; [|done].
        intros [= <-]. destruct (IH _ _ Hup) as [_ Hrest].
        split; [apply kind_at_directory, lookup_insert_eq|].
        intros q. destruct (decide (q = p)) as [->|Hne].
        -- right. rewrite lookup_insert_eq. split; [done|]. split; [done|]. by left.
        -- rewrite lookup_insert_ne by done.
           destruct (Hrest q) as [Hsame|(Hnone & Hdir & Hin)]; [by left|].
           right. split; [done|]. split; [done|]. by right.
Qed.

(** A directory whose parent is there is made in one step. *)
Lemma mkdirp_child fuel p files :
  files !! p = None -> files !! path_dirname p = Some Directory ->
  mkdirp fuel p files = Some (<[p := Directory]> files).
Proof.
  intros Hp Hparent. destruct fuel as [|fuel]; simpl; rewrite Hp; [done|].
  destruct (String.eqb_spec (path_dirname p) p) as [Heq|_]; [done|].
  destruct fuel; simpl; by rewrite Hparent.
Qed.

Lemma ensure_dir_present dir w node :
  fs w !! dir = Some node -> ensure_dir dir w = Some w.
Proof. intros Hdir. unfold ensure_dir. by rewrite Hdir. Qed.

Lemma ensure_dir_child dir w :
  fs w !! path_dirname dir = Some Directory ->
  exists w', ensure_dir dir w = Some w' /\
    clock w' = clock w /\ ticks w' = ticks w /\
    forall q, q <> dir -> fs w' !! q = fs w !! q.
Proof.
  intros Hparent. unfold ensure_dir.
  destruct (fs w !! dir) as [node|] eqn:Hdir; [by exists w|].
  rewrite mkdirp_child by done. eexists. split; [done|]. split; [done|].
  split; [done|]. intros q Hq. simpl. by rewrite lookup_insert_ne.
Qed.

(** What [ensure_dir] leaves of a world. *)
Lemma ensure_dir_spec dir w w' :
  ensure_dir dir w = Some w' ->
  clock w' = clock w /\ ticks w' = ticks w /\
  forall q,
    fs w' !! q = fs w !! q \/
    (fs w !! q = None /\ fs w' !! q = Some Directory /\ q ∈ dir :: ancestors dir).
Proof.
  unfold ensure_dir. destruct (fs w !! dir) as [node|] eqn:Hdir.
  - intros [= <-]. split; [done|]. split; [done|]. intros q. by left.
  - destruct (mkdirp _ dir (fs w)) as [files|] eqn:Hmk; [|done].
    intros [= <-]. split; [done|]. split; [done|].
    exact (proj2 (mkdirp_spec _ _ _ _ Hmk)).
Qed.

Lemma ensure_dir_lookup dir w w' p node :
  ensure_dir dir w = Some w' -> fs w !! p = Some node -> fs w' !! p = Some node.
Proof.
  intros Hdir Hp. destruct (ensure_dir_spec _ _ _ Hdir) as (_ & _ & Hfs).
  destruct (Hfs p) as [->|(Hnone & _)]; [done|congruence].
Qed.

Lemma ensure_dir_clock dir w w' :
  ensure_dir dir w = Some w' -> clock w' = clock w /\ ticks w' = ticks w.
Proof.
  intros Hdir. destruct (ensure_dir_spec _ _ _ Hdir) as (Hc & Ht & _). by split.
Qed.

Lemma ensure_dir_eq dir (r : Reporter) w :
  (let* found := on_world (existsSync dir) in
   if found then ret tt else on_world (mkdirSync dir))%reporter (r, w)
  = match ensure_dir dir w with
    | Some w' => (Ok tt, (r, w'))
    | None => (Throw "ENOTDIR", (r, w))
    end.
Proof.
  unfold bind, on_world. simpl snd. rewrite existsSync_eq.
  unfold mkdirSync, ensure_dir, ret. simpl.
  destruct (fs w !! dir) as [[?|]|] eqn:Hdir; simpl; try done.
  rewrite Hdir. by destruct (mkdirp _ dir (fs w)).
Qed.

Lemma ensure_dir_bind {A} dir (k : unit -> M (Reporter * World) A) (r : Reporter) w :
  bind (on_world (existsSync dir))
    (fun found : bool =>
       bind (if found then ret tt else on_world (mkdirSync dir)) k) (r, w)
  = match ensure_dir dir w with
    | Some w' => k tt (r, w')
    | None => (Throw "ENOTDIR", (r, w))
    end.
Proof.
  unfold bind at 1. unfold on_world at 1. simpl snd. rewrite existsSync_eq.
  unfold ensure_dir. simpl fst.
  destruct (fs w !! dir) as [[?|]|] eqn:Hdir; try done.
  unfold bind, on_world, mkdirSync. simpl. rewrite Hdir.
  by destruct (mkdirp _ dir (fs w)).
Qed.

(** [onBegin] in closed form. *)
Lemma onBegin_eq r w :
  onBegin (r, w) =
    let opts := options r in
    match ensure_dir (outputDir opts) (tick w) with
    | None => (Throw "ENOTDIR", (_resetState r, tick w))
    | Some w2 =>
        let finish := fun (r' : Reporter) (w' : World) =>
          if embedAssets opts then (Ok tt, (r', w'))
          else
            match ensure_dir (attachmentsDir opts) w' with
            | Some w'' => (Ok tt, (r', w''))
            | None => (Throw "ENOTDIR", (r', w'))
            end in
        match fs w2 !! historyFilePath opts with
        | Some node =>
            if resetHistory opts then
              match node with
              | File _ =>
                  finish (_resetState r)
                    (set_fs (delete (historyFilePath opts) (fs w2)) w2)
              | Directory => (Throw "EPERM", (_resetState r, w2))
              end
            else finish (set_historyData (loaded JSON_parse node) (_resetState r)) w2
        | None => finish (_resetState r) w2
        end
    end.
Proof.
  cbv zeta. unfold onBegin.
  unfold bind at 1. unfold on_this at 1, modify. simpl fst. simpl snd.
  unfold bind at 1. unfold on_world at 1, Date_now. simpl fst. simpl snd.
  unfold bind at 1. unfold get_this at 1. simpl fst.
  change (options (_resetState r)) with (options r).
  change {| fs := fs w; clock := clock w; ticks := S (ticks w) |} with (tick w).
  rewrite ensure_dir_bind.
  destruct (ensure_dir (outputDir (options r)) (tick w)) as [w2|]; [|reflexivity].
  unfold bind at 1. unfold on_world at 1. simpl snd. rewrite existsSync_eq.
  simpl fst.
  destruct (fs w2 !! historyFilePath (options r)) as [node|] eqn:Hfile.
  - destruct (resetHistory (options r)) eqn:Hreset; simpl andb; cbv iota.
    + unfold bind at 1. unfold on_world at 1, unlinkSync. simpl snd. rewrite Hfile.
      destruct node as [content|]; [|reflexivity]. simpl fst.
      set (w3 := set_fs (delete (historyFilePath (options r)) (fs w2)) w2).
      unfold bind at 1. unfold on_world at 1. simpl snd. rewrite existsSync_eq.
      unfold w3 at 1. simpl fs. rewrite lookup_delete_eq. simpl fst.
      unfold bind at 1. unfold ret at 1.
      destruct (embedAssets (options r)); [reflexivity|].
      by rewrite (ensure_dir_eq (attachmentsDir (options r)) (_resetState r) w3).
    + unfold bind at 1. unfold ret at 1.
      unfold bind at 1. unfold on_world at 1. simpl snd. rewrite existsSync_eq, Hfile.
      simpl fst.
      unfold bind at 1. unfold try_catch, bind at 1, on_world at 1, readFile.
      simpl snd. rewrite Hfile.
      destruct node as [content|]; simpl fst; simpl loaded.
      * destruct (JSON_parse content) as [parsed|];
          unfold throw, on_this, modify; simpl fst; simpl snd.
        -- destruct (embedAssets (options r)); [reflexivity|].
           by rewrite (ensure_dir_eq (attachmentsDir (options r)) _ w2).
        -- destruct (embedAssets (options r)); [reflexivity|].
           by rewrite (ensure_dir_eq (attachmentsDir (options r)) _ w2).
      * unfold on_this, modify. simpl fst. simpl snd.
        destruct (embedAssets (options r)); [reflexivity|].
        by rewrite (ensure_dir_eq (attachmentsDir (options r)) _ w2).
  - simpl andb. rewrite andb_false_r.
    unfold bind at 1. unfold ret at 1.
    unfold bind at 1. unfold on_world at 1. simpl snd. rewrite existsSync_eq, Hfile.
    simpl fst. unfold bind at 1. unfold ret at 1.
    destruct (embedAssets (options r)); [reflexivity|].
    by rewrite (ensure_dir_eq (attachmentsDir (options r)) _ w2).
Qed.

(** Where the output directory is there, [onBegin] goes on from the
    history path as it finds it. *)
Lemma onBegin_history_present r w node :
  fs w !! outputDir (options r) = Some Directory ->
  fs w !! historyFilePath (options r) = Some node ->
  onBegin (r, w) =
    let opts := options r in
    let finish := fun (r' : Reporter) (w' : World) =>
      if embedAssets opts then (Ok tt, (r', w'))
      else
        match ensure_dir (attachmentsDir opts) w' with
        | Some w'' => (Ok tt, (r', w''))
        | None => (Throw "ENOTDIR", (r', w'))
        end in
    if resetHistory opts then
      match node with
      | File _ =>
          finish (_resetState r)
            (set_fs (delete (historyFilePath opts) (fs w)) (tick w))
      | Directory => (Throw "EPERM", (_resetState r, tick w))
      end
    else finish (set_historyData (loaded JSON_parse node) (_resetState r)) (tick w).
Proof.
  intros Hout Hfile. rewrite onBegin_eq. cbv zeta.
  rewrite (ensure_dir_present _ (tick w) Directory Hout).
  change (fs (tick w)) with (fs w). by rewrite Hfile.
Qed.

(** In the output directory the attachments directory is there or can be
    made. *)
Lemma ensure_attachments opts w :
  fs w !! outputDir opts = Some Directory ->
  exists w', ensure_dir (attachmentsDir opts) w = Some w' /\
    clock w' = clock w /\ ticks w' = ticks w /\
    forall q, q <> attachmentsDir opts -> fs w' !! q = fs w !! q.
Proof.
  intros Hout. apply ensure_dir_child. by rewrite attachments_parent.
Qed.

(** [onBegin] on a history file that is there and does not parse: the run
    begins, with an empty ledger unless the history was to be reset, in
    which case the file is deleted and the ledger in memory is kept. *)
Lemma onBegin_corrupt_history r w content :
  fs w !! outputDir (options r) = Some Directory ->
  fs w !! historyFilePath (options r) = Some (File content) ->
  JSON_parse content = None ->
  exists w',
    onBegin (r, w) =
      (Ok tt,
       (if resetHistory (options r) then _resetState r
        else set_historyData [] (_resetState r), w')).
Proof.
  intros Hout Hfile Hparse.
  rewrite (onBegin_history_present _ _ _ Hout Hfile). cbv zeta.
  assert (historyFilePath (options r) <> outputDir (options r)) as Hne
    by (intros Heq; rewrite Heq in Hfile; congruence).
  simpl loaded. rewrite Hparse.
  destruct (resetHistory (options r)), (embedAssets (options r)); try (by eexists).
  - destruct (ensure_attachments (options r)
                (set_fs (delete (historyFilePath (options r)) (fs w)) (tick w)))
      as (w' & -> & _); [|by eexists].
    simpl. by rewrite lookup_delete_ne.
  - destruct (ensure_attachments (options r) (tick w)) as (w' & -> & _);
      [done|by eexists].
Qed.

(** A history path that exists but cannot be read (a directory) is treated
    the same way when the history is not to be reset: the read throws inside
    the [try] and the ledger is emptied. *)
Lemma onBegin_unreadable_history r w :
  fs w !! outputDir (options r) = Some Directory ->
  fs w !! historyFilePath (options r) = Some Directory ->
  resetHistory (options r) = false ->
  exists w', onBegin (r, w) = (Ok tt, (set_historyData [] (_resetState r), w')).
Proof.
  intros Hout Hfile Hreset.
  rewrite (onBegin_history_present _ _ _ Hout Hfile). cbv zeta.
  rewrite Hreset. simpl loaded.
  destruct (embedAssets (options r)); [by eexists|].
  destruct (ensure_attachments (options r) (tick w)) as (w' & -> & _);
    [done|by eexists].
Qed.

(** With the history to be reset, the same path makes [unlinkSync] throw
    outside any [try], and [onBegin] throws. *)
Lemma onBegin_reset_directory r w :
  fs w !! outputDir (options r) = Some Directory ->
  fs w !! historyFilePath (options r) = Some Directory ->
  resetHistory (options r) = true ->
  fst (onBegin (r, w)) = Throw "EPERM".
Proof.
  intros Hout Hfile Hreset.
  rewrite (onBegin_history_present _ _ _ Hout Hfile). cbv zeta.
  by rewrite Hreset.
Qed.

(** C9. For every persisted history file whose contents fail to parse,
    [onBegin] on a fresh reporter leaves the ledger empty, and the failure
    to parse never leaves [onBegin]: it returns normally wherever the output
    directory, which holds the file, is there as a directory, and the one
    way it can throw is [mkdirSync] meeting a regular file where a directory
    of the report should be. *)
Theorem corrupt_history_ignored o w content :
  fs w !! historyFilePath (constructor o) = Some (File content) ->
  JSON_parse content = None ->
  exists res r' w',
    onBegin (new_reporter o, w) = (res, (r', w')) /\
    historyData r' = [] /\
    (res = Ok tt \/ res = Throw "ENOTDIR") /\
    (fs w !! outputDir (constructor o) = Some Directory -> res = Ok tt).
Proof.
  intros Hfile Hparse.
  destruct (onBegin (new_reporter o, w)) as [res [r' w']] eqn:Hbegin.
  exists res, r', w'. split; [done|].
  assert (historyData r' = [] /\ (res = Ok tt \/ res = Throw "ENOTDIR"))
    as [Hempty Hres].
  { revert Hbegin. rewrite onBegin_eq. cbv zeta.
    change (options (new_reporter o)) with (constructor o).
    destruct (ensure_dir (outputDir (constructor o)) (tick w)) as [w2|] eqn:Hout.
    - rewrite (ensure_dir_lookup _ _ _ _ _ Hout Hfile). simpl loaded.
      rewrite Hparse.
      destruct (resetHistory (constructor o)), (embedAssets (constructor o));
        try destruct (ensure_dir (attachmentsDir (constructor o)) _);
        intros ?; simplify_eq; split; done || (by left) || (by right).
    - intros ?. simplify_eq. split; [done|by right]. }
  split; [exact Hempty|]. split; [exact Hres|].
  intros Hout.
  destruct (onBegin_corrupt_history (new_reporter o) w content Hout Hfile Hparse)
    as [w'' Heq].
  rewrite Heq in Hbegin. by simplify_eq.
Qed.

End Begin.

(** An empty history file, which [JSON.parse] rejects: the run begins with
    an empty ledger. *)
Lemma corrupt_history_ignored_witness :
  Demo.corrupt !! @historyFilePath Demo.platform (constructor Demo.no_options)
  = Some (File []) /\
  @JSON_parse Demo.platform [] = None /\
  Demo.corrupt !! @outputDir Demo.platform (constructor Demo.no_options)
  = Some Directory /\
  fst (@onBegin Demo.platform (new_reporter Demo.no_options, Demo.world Demo.corrupt))
  = Ok tt /\
  historyData
    (fst (snd (@onBegin Demo.platform
                 (new_reporter Demo.no_options, Demo.world Demo.corrupt)))) = [].
Proof.
  assert (fs (Demo.world Demo.corrupt)
            !! @historyFilePath Demo.platform (constructor Demo.no_options)
          = Some (File [])) as Hfile by (vm_compute; reflexivity).
  assert (fs (Demo.world Demo.corrupt)
            !! @outputDir Demo.platform (constructor Demo.no_options)
          = Some Directory) as Hout by (vm_compute; reflexivity).
  split; [exact Hfile|]. split; [reflexivity|]. split; [exact Hout|].
  destruct (@corrupt_history_ignored Demo.platform Demo.no_options
              (Demo.world Demo.corrupt) [] Hfile eq_refl)
    as (res & r' & w' & -> & Hempty & _ & Hok).
  split; [exact (Hok Hout)|exact Hempty].
Defined.

(** After such a start the run goes on to completion and writes a ledger of
    one entry. *)
Example run_after_corrupt_history :
  fst (@run Demo.platform 10 Demo.first_first Demo.events
         (new_reporter Demo.no_options, Demo.world Demo.corrupt)) = Ok tt /\
  historyData
    (fst (snd (@run Demo.platform 10 Demo.first_first Demo.events
                 (new_reporter Demo.no_options, Demo.world Demo.corrupt))))
  = [ {| h_buildNo := "N/A"; h_total := 2; h_passed := 1;
         h_timestamp := 1700000000006 |} ].
Proof. split; vm_compute; reflexivity. Qed.

(** ** Grouping by project *)

Lemma elem_of_first_seen x l : x ∈ first_seen l <-> x ∈ l.
Proof.
  induction l as [|y l IH]; simpl; [done|].
  rewrite !elem_of_cons, list_elem_of_filter, IH.
  destruct (decide (x = y)); naive_solver.
Qed.

Lemma NoDup_first_seen l : NoDup (first_seen l).
Proof.
  induction l as [|y l IH]; simpl; constructor.
  - rewrite list_elem_of_filter. naive_solver.
  - by apply NoDup_filter.
Qed.

Lemma first_seen_snoc l x :
  first_seen (l ++ [x]) = if decide (x ∈ l) then first_seen l else first_seen l ++ [x].
Proof.
  induction l as [|y l IH].
  - reflexivity.
  - change (first_seen ((y :: l) ++ [x]))
      with (y :: filter (fun z => z <> y) (first_seen (l ++ [x]))).
    rewrite IH. simpl (first_seen (y :: l)).
    destruct (decide (x = y)) as [->|Hne].
    + rewrite (decide_True (P := y ∈ y :: l)) by set_solver.
      destruct (decide (y ∈ l)); [done|].
      rewrite filter_app, filter_cons_False, filter_nil, app_nil_r; naive_solver.
    + destruct (decide (x ∈ l)).
      * rewrite (decide_True (P := x ∈ y :: l)) by set_solver. done.
      * rewrite (decide_False (P := x ∈ y :: l)) by set_solver.
        rewrite filter_app, filter_cons_True, filter_nil; done.
Qed.

Lemma map_get_keyed {V} (f : string -> V) ks k :
  map_get k (map (fun k' => (k', f k')) ks)
  = if decide (k ∈ ks) then Some (f k) else None.
Proof.
  induction ks as [|k' ks IH].
  - reflexivity.
  - change (map_get k (map (fun k' => (k', f k')) (k' :: ks)))
      with (if String.eqb k' k then Some (f k')
            else map_get k (map (fun k' => (k', f k')) ks)).
    destruct (String.eqb k' k) eqn:E.
    + apply String.eqb_eq in E as ->. by rewrite decide_True by set_solver.
    + apply String.eqb_neq in E. rewrite IH.
      destruct (decide (k ∈ ks)).
      * by rewrite decide_True by set_solver.
      * by rewrite decide_False by set_solver.
Qed.

Lemma map_set_absent {V} (g : string -> string * V) ks k v :
  (forall k', fst (g k') = k') -> k ∉ ks ->
  map_set k v (map g ks) = map g ks ++ [(k, v)].
Proof.
  intros Hg. induction ks as [|k' ks IH]; simpl; [done|].
  intros [Hne Hks]%not_elem_of_cons.
  specialize (Hg k'). destruct (g k') as [k'' v']. simpl in Hg. subst k''.
  destruct (String.eqb k' k) eqn:E.
  - apply String.eqb_eq in E. congruence.
  - by rewrite IH.
Qed.

Lemma map_set_present {V} (f : string -> V) ks k v :
  NoDup ks -> k ∈ ks ->
  map_set k v (map (fun k' => (k', f k')) ks)
  = map (fun k' => (k', if decide (k' = k) then v else f k')) ks.
Proof.
  induction 1 as [|k' ks Hk' Hks IH]; simpl; [set_solver|].
  intros Hin. destruct (String.eqb k' k) eqn:E.
  - apply String.eqb_eq in E as ->. rewrite decide_True by done. f_equal.
    apply map_ext_in. intros k' Hin'. apply list_elem_of_In in Hin'.
    rewrite decide_False; [done|]. intros ->. done.
  - apply String.eqb_neq in E. rewrite decide_False by done. f_equal.
    apply IH. set_solver.
Qed.

Lemma filter_none {A} (P : A -> Prop) `{forall x, Decision (P x)} (l : list A) :
  (forall x, x ∈ l -> ~ P x) -> filter P l = [].
Proof.
  induction l as [|x l IH]; intros Hl; [done|].
  rewrite filter_cons_False by (apply Hl; set_solver).
  apply IH. intros y Hy. apply Hl. set_solver.
Qed.

Lemma groups_of_snoc allTests test :
  group_test (groups_of allTests) test = groups_of (allTests ++ [test]).
Proof.
  unfold group_test, groups_of, map_has.
  rewrite map_app. simpl (map projectName [test]). rewrite first_seen_snoc.
  set (k := projectName test). set (names := map projectName allTests).
  rewrite !map_get_keyed.
  destruct (decide (k ∈ names)) as [Hin|Hout].
  - rewrite decide_True by by apply elem_of_first_seen.
    rewrite bool_decide_true by eauto. simpl.
    rewrite map_get_keyed, decide_True by by apply elem_of_first_seen.
    rewrite map_set_present;
      [|apply NoDup_first_seen|by apply elem_of_first_seen].
    apply map_ext. intros k'. f_equal. rewrite filter_app.
    destruct (decide (k' = k)) as [->|Hne].
    + by rewrite filter_cons_True, filter_nil.
    + rewrite filter_cons_False, filter_nil, app_nil_r; [done|].
      fold k. congruence.
  - rewrite decide_False by by rewrite elem_of_first_seen.
    rewrite bool_decide_false by (intros [? ?]; done). simpl.
    rewrite (map_set_absent (fun k' => (k', _))); [|done|by rewrite elem_of_first_seen].
    assert (forall v, map_get k
              (map (fun k' => (k', filter (fun t => projectName t = k') allTests))
                 (first_seen names) ++ [(k, v)]) = Some v) as Hget.
    { intros v. generalize (first_seen names), (proj2 (not_iff_compat (elem_of_first_seen k names)) Hout).
      intros ks. induction ks as [|k' ks IH]; simpl.
      - intros _. by rewrite String.eqb_refl.
      - intros [Hne Hks]%not_elem_of_cons.
        destruct (String.eqb k' k) eqn:E; [apply String.eqb_eq in E; congruence|].
        by apply IH. }
    rewrite Hget.
    assert (forall v w ks, k ∉ ks ->
              map_set k w
                (map (fun k' => (k', filter (fun t => projectName t = k') allTests)) ks
                 ++ [(k, v)])
              = map (fun k' => (k', filter (fun t => projectName t = k')
                                      (allTests ++ [test]))) ks
                ++ [(k, w)]) as Hset.
    { intros v w ks. induction ks as [|k' ks IH]; simpl.
      - intros _. by rewrite String.eqb_refl.
      - intros [Hne Hks]%not_elem_of_cons.
        destruct (String.eqb k' k) eqn:E; [apply String.eqb_eq in E; congruence|].
        rewrite IH by done. do 2 f_equal.
        rewrite filter_app, filter_cons_False, filter_nil, app_nil_r; [done|].
        fold k. congruence. }
    rewrite Hset by by rewrite elem_of_first_seen.
    rewrite map_app. simpl. do 3 f_equal.
    rewrite filter_app, filter_cons_True, filter_nil by done.
    replace (filter (fun t => projectName t = k) allTests) with (@nil PageTest); [done|].
    symmetry. apply filter_none. intros t Ht Hk. apply Hout.
    unfold names. rewrite <- Hk. apply list_elem_of_fmap. eauto.
Qed.

Lemma groupedTests_eq allTests : groupedTests allTests = groups_of allTests.
Proof.
  unfold groupedTests.
  induction allTests as [|test allTests IH] using rev_ind; [done|].
  by rewrite foldl_app, IH, <- groups_of_snoc.
Qed.

(** ** Whole runs *)

Section Runs.
Context {platform : Platform}.

(** The history upkeep in closed form. *)
Lemma update_history_eq fuel r w :
  update_history fuel (r, w) =
    let sorted :=
      sort by_timestamp (upsert (summary_of r (clock w (ticks w))) (historyData r)) in
    match trim fuel (historyTrend (options r)) sorted with
    | None => (Hang, (set_historyData sorted r, tick w))
    | Some trimmed =>
        if decide (writable (fs w) (historyFilePath (options r))) then
          (Ok tt,
           (set_historyData trimmed r,
            set_fs (<[historyFilePath (options r) := File (JSON_stringify trimmed)]>
                      (fs w)) (tick w)))
        else
          (Throw match kind_at (fs w) (historyFilePath (options r)),
                       kind_at (fs w) (path_dirname (historyFilePath (options r))) with
                 | IsDirectory, _ => "EISDIR"
                 | _, IsFile => "ENOTDIR"
                 | _, _ => "ENOENT"
                 end,
           (set_historyData trimmed r, tick w))
    end.
Proof.
  cbv zeta. unfold update_history.
  unfold bind at 1. unfold get_this at 1. simpl fst.
  unfold bind at 1. unfold on_world at 1, Date_now. simpl fst. simpl snd.
  change {| fs := fs w; clock := clock w; ticks := S (ticks w) |} with (tick w).
  unfold bind at 1. unfold on_this at 1, modify. simpl fst. simpl snd.
  fold (summary_of r (clock w (ticks w))).
  destruct (trim fuel (historyTrend (options r)) _) as [trimmed|]; [|reflexivity].
  unfold bind at 1. unfold on_this at 1, modify. simpl fst. simpl snd.
  unfold on_world. simpl snd. simpl fst. rewrite writeFile_eq.
  change (fs (tick w)) with (fs w).
  destruct (decide (writable (fs w) (historyFilePath (options r)))) as [[Hd Hp]|Hn].
  - rewrite Hp. by destruct (kind_at (fs w) (historyFilePath (options r))).
  - destruct (kind_at (fs w) (historyFilePath (options r))) eqn:Hk,
      (kind_at (fs w) (path_dirname (historyFilePath (options r)))) eqn:Hk';
      try reflexivity; exfalso; apply Hn; split; congruence.
Qed.

Lemma onEnd_eq fuel sched r w :
  onEnd fuel sched (r, w) =
    match traverse (consolidate sched) (map snd (testMap r)) (r, tick w) with
    | (Ok allTests, (r1, w1)) => update_history fuel (set_tests allTests r1, w1)
    | (Throw e, s) => (Throw e, s)
    | (Hang, s) => (Hang, s)
    end.
Proof.
  unfold onEnd.
  unfold bind at 1. unfold on_world at 1, Date_now. simpl fst. simpl snd.
  unfold bind at 1. unfold get_this at 1. simpl fst.
  change {| fs := fs w; clock := clock w; ticks := S (ticks w) |} with (tick w).
  unfold bind at 1.
  destruct (traverse _ _ _) as [[allTests|e|] [r1 w1]]; [|reflexivity..].
  unfold bind at 1. unfold on_this at 1, modify. reflexivity.
Qed.

Lemma run_eq fuel sched events s :
  run fuel sched events s =
    match onBegin s with
    | (Ok _, (r1, w1)) =>
        onEnd fuel sched (set_testMap (accumulate events (testMap r1)) r1, w1)
    | (Throw e, s') => (Throw e, s')
    | (Hang, s') => (Hang, s')
    end.
Proof.
  unfold run. unfold bind at 1.
  destruct (onBegin s) as [[[]|e|] [r1 w1]]; [|reflexivity..].
  unfold bind at 1. unfold on_this at 1, modify. simpl fst. simpl snd.
  by rewrite foldl_onTestEnd.
Qed.

Lemma collect_attachments_clock opts sched testId acc j results w :
  match collect_attachments opts sched testId acc j results w with
  | (Ok _, w') => clock w' = clock w
  | _ => True
  end.
Proof.
  revert acc j w. induction results as [|res rest IH]; intros acc j w; [done|].
  rewrite collect_attachments_cons.
  destruct (promises_of_spec opts testId res w) as (Hmodes & Hstarted & _).
  pose proof (Promise_all_complete opts (promises_of opts testId res w)
                (sched testId j)
                (promises_of opts testId res w)
                (after_starts opts (length (attachments res)) w)
                Hmodes Hstarted) as Hall.
  destruct (Promise_all _ _ _ _) as [[values|e|] w2]; [|done|done].
  destruct Hall as ((Hc2 & _) & _).
  specialize (IH (acc ++ values) (S j) w2).
  destruct (collect_attachments _ _ _ _ _ _ w2) as [[atts|e|] w3]; [|done|done].
  by rewrite IH, Hc2.
Qed.

(** What consolidating one entry leaves in place, and the record it
    returns. *)
Lemma consolidate_spec sched entry r w :
  match consolidate sched entry (r, w) with
  | (res, (r', w')) =>
      options r' = options r /\ historyData r' = historyData r /\
      match res with
      | Ok t => consolidated entry t /\ clock w' = clock w
      | _ => True
      end
  end.
Proof.
  destruct (last (results entry)) as [finalResult|] eqn:Hlast.
  - rewrite (consolidate_unfold _ _ _ _ _ Hlast).
    pose proof (collect_attachments_clock (options r) sched (id (test entry))
                  [] 0 (results entry) w) as Hclock.
    destruct (collect_attachments _ _ _ _ _ _ w) as [[atts|e|] w']; try done.
    split; [done|]. split; [done|]. split; [|done].
    by exists finalResult.
  - unfold consolidate. rewrite Hlast. done.
Qed.

Lemma traverse_consolidate_spec sched entries : forall r w,
  match traverse (consolidate sched) entries (r, w) with
  | (res, (r', w')) =>
      options r' = options r /\ historyData r' = historyData r /\
      match res with
      | Ok records => Forall2 consolidated entries records /\ clock w' = clock w
      | _ => True
      end
  end.
Proof.
  induction entries as [|entry entries IH]; intros r w.
  - simpl. repeat split; constructor.
  - simpl traverse. unfold bind at 1.
    pose proof (consolidate_spec sched entry r w) as Hone.
    destruct (consolidate sched entry (r, w)) as [[t|e|] [r1 w1]];
      destruct Hone as (Ho & Hh & Hres); [|done..].
    destruct Hres as [Ht Hc].
    unfold bind at 1. specialize (IH r1 w1).
    destruct (traverse (consolidate sched) entries (r1, w1))
      as [[records|e|] [r2 w2]]; destruct IH as (Ho2 & Hh2 & Hres2);
      (split; [congruence|]); (split; [congruence|]); [|done..].
    destruct Hres2 as [Hrecords Hc2]. unfold ret.
    split; [by constructor|congruence].
Qed.

Lemma lt_negative n W : negative W -> Js.gt (Js.of_Z (Z.of_nat n)) W = true.
Proof.
  intros [->|(q & -> & Hq)]; [done|].
  unfold Js.gt, Js.of_Z. apply lt_Fin.
  assert (0 <= inject_Z (Z.of_nat n))%Q; [|lra].
  change 0%Q with (inject_Z 0). rewrite <- Zle_Qle. lia.
Qed.

Lemma trim_negative fuel W l : negative W -> trim fuel W l = None.
Proof.
  intros HW. revert l. induction fuel as [|fuel IH]; intros l;
    rewrite trim_unfold, lt_negative by done; [done|]. apply IH.
Qed.

Lemma onEnd_negative fuel sched r w :
  negative (historyTrend (options r)) -> fst (onEnd fuel sched (r, w)) <> Ok tt.
Proof.
  intros HW. rewrite onEnd_eq.
  pose proof (traverse_consolidate_spec sched (map snd (testMap r)) r (tick w)) as Htr.
  destruct (traverse _ _ _) as [[allTests|e|] [r1 w1]]; [|done..].
  destruct Htr as (Ho & _). rewrite update_history_eq. cbv zeta.
  change (options (set_tests allTests r1)) with (options r1).
  rewrite Ho, trim_negative by done. done.
Qed.

Lemma onBegin_options s : options (fst (snd (onBegin s))) = options (fst s).
Proof.
  destruct s as [r w]. rewrite onBegin_eq. cbv zeta.
  destruct (ensure_dir _ (tick w)) as [w2|]; [|reflexivity].
  destruct (fs _ !! _) as [[content|]|]; destruct (resetHistory (options r));
    destruct (embedAssets (options r)); try reflexivity;
    by destruct (ensure_dir _ _).
Qed.

(** *** The attempt map in closed form *)

Lemma onTestEnd_map_absent t result m :
  id t ∉ keys m ->
  onTestEnd_map t result m = m ++ [(id t, {| test := t; results := [result] |})].
Proof.
  induction m as [|[k e] m IH]; intros Hk.
  - apply onTestEnd_map_nil.
  - change (keys ((k, e) :: m)) with (k :: keys m) in Hk.
    apply not_elem_of_cons in Hk as [Hne Hk].
    rewrite onTestEnd_map_cons.
    destruct (String.eqb_spec k (id t)) as [->|_]; [done|].
    by rewrite IH.
Qed.

Lemma onTestEnd_map_present t result m :
  NoDup (keys m) -> id t ∈ keys m ->
  onTestEnd_map t result m =
    map (fun ke : string * Entry =>
           if String.eqb (fst ke) (id t)
           then (fst ke, {| test := test (snd ke);
                            results := results (snd ke) ++ [result] |})
           else ke) m.
Proof.
  induction m as [|[k e] m IH]; intros Hnd Hk.
  - by apply elem_of_nil in Hk.
  - change (keys ((k, e) :: m)) with (k :: keys m) in Hnd, Hk.
    apply NoDup_cons in Hnd as [Hfresh Hnd].
    rewrite onTestEnd_map_cons. simpl.
    destruct (String.eqb_spec k (id t)) as [->|Hne].
    + f_equal. symmetry. rewrite <- (map_id m) at 2. apply map_ext_in.
      intros [k' e'] Hin. simpl.
      destruct (String.eqb_spec k' (id t)) as [->|_]; [|done].
      exfalso. apply Hfresh. apply list_elem_of_In in Hin.
      unfold keys. apply list_elem_of_fmap. by exists (id t, e').
    + f_equal. apply IH; [done|].
      apply elem_of_cons in Hk as [Heq|Hk]; [congruence|done].
Qed.

Lemma events_of_snoc k events ev :
  events_of k (events ++ [ev]) =
    if decide (id (fst ev) = k) then events_of k events ++ [ev] else events_of k events.
Proof.
  unfold events_of. rewrite filter_app.
  destruct (decide (id (fst ev) = k)).
  - by rewrite filter_cons_True, filter_nil.
  - by rewrite filter_cons_False, filter_nil, app_nil_r.
Qed.

Lemma accumulate_entries events :
  keys (accumulate events []) = first_seen (map (fun ev => id (fst ev)) events) /\
  Forall (fun ke => entry_for events (fst ke) (snd ke)) (accumulate events []).
Proof.
  induction events as [|[t result] events [Hkeys Hentries]] using rev_ind.
  - split; [done|constructor].
  - unfold accumulate in *. rewrite foldl_app. simpl.
    set (m := foldl (fun m ev => onTestEnd_map (fst ev) (snd ev) m) [] events) in *.
    assert (NoDup (keys m)) as Hnd by (rewrite Hkeys; apply NoDup_first_seen).
    rewrite map_app. simpl (map _ [(t, result)]).
    rewrite first_seen_snoc, keys_onTestEnd_map, Hkeys. simpl.
    split.
    { destruct (decide (id t ∈ map (fun ev => id (fst ev)) events)).
      - by rewrite decide_True by by apply elem_of_first_seen.
      - by rewrite decide_False by by rewrite elem_of_first_seen. }
    destruct (decide (id t ∈ keys m)) as [Hin|Hout].
    + rewrite onTestEnd_map_present by done.
      apply List.Forall_map. eapply Forall_impl; [exact Hentries|].
      intros [k e] (t0 & r0 & rest & Hev & Htest & Hres). simpl in *.
      destruct (String.eqb_spec k (id t)) as [->|Hne]; simpl;
        unfold entry_for; rewrite events_of_snoc; simpl.
      * rewrite decide_True by done. rewrite Hev.
        exists t0, r0, (rest ++ [(t, result)]). split; [done|]. split; [done|].
        rewrite Hres, map_app. done.
      * rewrite decide_False by done. by exists t0, r0, rest.
    + rewrite onTestEnd_map_absent by done.
      apply Forall_app. split.
      * rewrite Forall_forall in Hentries. apply Forall_forall.
        intros [k e] Hke. destruct (Hentries _ Hke) as (t0 & r0 & rest & Hev & Hrest).
        simpl in *. unfold entry_for. rewrite events_of_snoc. simpl.
        rewrite decide_False; [by exists t0, r0, rest|].
        intros <-. apply Hout. unfold keys. apply list_elem_of_fmap.
        by exists (id t, e).
      * constructor; [|constructor]. simpl. unfold entry_for.
        rewrite events_of_snoc. simpl. rewrite decide_True by done.
        assert (events_of (id t) events = []) as ->.
        { apply filter_none. intros ev Hev Hid. apply Hout.
          rewrite Hkeys. apply elem_of_first_seen, list_elem_of_fmap. eauto. }
        by exists t, result, [].
Qed.

Lemma upsert_from e l h : h ∈ upsert e l -> h = e \/ h ∈ l.
Proof.
  induction l as [|x l IH].
  - rewrite upsert_nil. intros ->%list_elem_of_singleton. by left.
  - rewrite upsert_cons. destruct (String.eqb _ _).
    + intros [->|Hin]%elem_of_cons; [by left|right; by right].
    + intros [->|Hin]%elem_of_cons; [right; by left|].
      destruct (IH Hin) as [->|Hl]; [by left|right; by right].
Qed.

Lemma sorted_last l z :
  StronglySorted older l -> last l = Some z -> forall y, y ∈ l -> older y z.
Proof.
  induction 1 as [|x l Hl IH Hx]; [done|].
  destruct l as [|x' l'].
  - intros [= ->] y ->%list_elem_of_singleton. unfold older. lia.
  - intros Hlast y [->|Hy]%elem_of_cons.
    + rewrite Forall_forall in Hx. apply Hx.
      change (last (x :: x' :: l')) with (last (x' :: l')) in Hlast.
      by apply last_Some_elem_of.
    + by apply IH.
Qed.

(** An entry more recent than all the others ends up last. *)
Lemma sort_last e l :
  e ∈ l -> (forall h, h ∈ l -> h = e \/ (h_timestamp h < h_timestamp e)%Z) ->
  last (sort by_timestamp l) = Some e.
Proof.
  intros He Hlater.
  destruct (last (sort by_timestamp l)) as [z|] eqn:Hlast.
  - pose proof (sorted_last _ _ (sort_strongly l) Hlast) as Hmax.
    assert (z ∈ l) as Hz.
    { rewrite <- (sort_perm l). by apply last_Some_elem_of. }
    destruct (Hlater z Hz) as [->|Hlt]; [done|].
    assert (older e z) as Hle by (apply Hmax; by rewrite sort_perm).
    unfold older in Hle. lia.
  - apply last_None in Hlast. apply (f_equal length) in Hlast.
    rewrite sort_length in Hlast. destruct l; [by apply elem_of_nil in He|done].
Qed.

(** With a window of at least one entry the trimming keeps the last
    entry. *)
Lemma trim_last fuel W l r :
  Js.gt (Js.of_Z 1) W = false -> trim fuel W l = Some r -> last r = last l.
Proof.
  intros HW. revert l. induction fuel as [|fuel IH]; intros l; rewrite trim_unfold;
    destruct (Js.gt (Js.of_Z (Z.of_nat (length l))) W) eqn:Hgt; try done.
  - by intros [= <-].
  - intros Htrim. rewrite (IH _ Htrim).
    destruct l as [|x [|x' l']]; [done| |done].
    change (Z.of_nat (length [x])) with 1%Z in Hgt. congruence.
  - by intros [= <-].
Qed.

(** What a completed [onEnd] leaves: the records of the entries, the ledger
    and the history file. *)
Lemma onEnd_ok fuel sched r w :
  fst (onEnd fuel sched (r, w)) = Ok tt ->
  exists k trimmed,
    let r' := fst (snd (onEnd fuel sched (r, w))) in
    let w' := snd (snd (onEnd fuel sched (r, w))) in
    options r' = options r /\
    Forall2 consolidated (map snd (testMap r)) (tests r') /\
    trim fuel (historyTrend (options r))
      (sort by_timestamp (upsert (summary_of r' (clock w k)) (historyData r)))
    = Some trimmed /\
    historyData r' = trimmed /\
    fs w' !! historyFilePath (options r) = Some (File (JSON_stringify trimmed)) /\
    fs w' !! outputDir (options r) = Some Directory.
Proof.
  rewrite onEnd_eq.
  pose proof (traverse_consolidate_spec sched (map snd (testMap r)) r (tick w)) as Htr.
  destruct (traverse _ _ _) as [[allTests|e|] [r1 w1]]; [|done..].
  destruct Htr as (Ho & Hh & Hrecords & Hclock).
  rewrite update_history_eq. cbv zeta.
  change (options (set_tests allTests r1)) with (options r1).
  change (historyData (set_tests allTests r1)) with (historyData r1).
  rewrite Ho, Hh, Hclock.
  destruct (trim fuel _ _) as [trimmed|] eqn:Htrim; [|done].
  destruct (decide (writable (fs w1) (historyFilePath (options r))))
    as [[Hfile Hparent]|]; [|done].
  intros _. exists (ticks w1), trimmed. simpl. rewrite lookup_insert_eq.
  repeat split; try done.
  rewrite history_parent in Hparent. apply kind_at_directory in Hparent.
  rewrite lookup_insert_ne; [done|]. intros Heq. rewrite Heq in Hfile.
  apply Hfile. by apply kind_at_directory.
Qed.

(** X1. A negative [historyTrend] is kept by the constructor, and with it
    no run ever returns: whatever the attempts and however many iterations
    the trimming loop is given, [onEnd] does not complete. *)
Theorem negative_trend_never_returns o x fuel sched events w :
  field opt_historyTrend o = Some x -> negative x ->
  historyTrend (constructor o) = x /\
  fst (run fuel sched events (new_reporter o, w)) <> Ok tt.
Proof.
  intros Hfield Hneg.
  assert (historyTrend (constructor o) = x) as Htrend.
  { unfold constructor. simpl. rewrite Hfield. apply or_default_truthy.
    destruct Hneg as [->|(q & -> & Hq)]; [done|]. simpl.
    destruct (Qeq_bool q 0) eqn:E; [|done].
    apply Qeq_bool_iff in E. lra. }
  split; [exact Htrend|].
  rewrite run_eq. pose proof (onBegin_options (new_reporter o, w)) as Ho.
  destruct (onBegin _) as [[[]|e|] [r1 w1]]; [|done..]. simpl in Ho.
  apply onEnd_negative. simpl. by rewrite Ho, Htrend.
Qed.

(** X2. When a run has written its history file, the file holds the
    serialisation of the ledger the reporter has in memory; and when that
    serialisation parses back to the ledger and the history is not to be
    reset, [onBegin] of a new reporter of the same configuration, in every
    later world in which the output directory and the file in it are still
    what the run left, loads exactly that ledger. *)
Theorem history_round_trip fuel sched events o w w2 :
  fst (run fuel sched events (new_reporter o, w)) = Ok tt ->
  fs (snd (snd (run fuel sched events (new_reporter o, w))))
    !! historyFilePath (constructor o)
  = Some (File (JSON_stringify
                  (historyData
                     (fst (snd (run fuel sched events (new_reporter o, w))))))) /\
  (resetHistory (constructor o) = false ->
   JSON_parse
     (JSON_stringify
        (historyData (fst (snd (run fuel sched events (new_reporter o, w))))))
   = Some (historyData (fst (snd (run fuel sched events (new_reporter o, w))))) ->
   fs w2 !! outputDir (constructor o)
   = fs (snd (snd (run fuel sched events (new_reporter o, w))))
       !! outputDir (constructor o) ->
   fs w2 !! historyFilePath (constructor o)
   = fs (snd (snd (run fuel sched events (new_reporter o, w))))
       !! historyFilePath (constructor o) ->
   historyData (fst (snd (onBegin (new_reporter o, w2))))
   = historyData (fst (snd (run fuel sched events (new_reporter o, w))))).
Proof.
  rewrite run_eq. pose proof (onBegin_options (new_reporter o, w)) as Ho.
  destruct (onBegin (new_reporter o, w)) as [[[]|e|] [r1 w1]]; [|done..].
  simpl in Ho. intros Hok.
  destruct (onEnd_ok _ _ _ _ Hok)
    as (k & trimmed & Ho' & _ & _ & Hledger & Hfile & Hout).
  cbv zeta in *. simpl options in *.
  destruct (onEnd fuel sched _) as [res [r' w']]. simpl fst in *. simpl snd in *.
  rewrite Ho in Hfile, Hout. subst trimmed.
  split; [exact Hfile|]. intros Hreset Hparse Hdir Hsame.
  rewrite Hfile in Hsame. rewrite Hout in Hdir.
  rewrite (onBegin_history_present (new_reporter o) w2 _ Hdir Hsame).
  cbv zeta. simpl options. rewrite Hreset. simpl loaded. rewrite Hparse.
  destruct (embedAssets (options (new_reporter o))); [done|].
  by destruct (ensure_dir _ _).
Qed.

(** X3. When [onEnd] completes with a window of at least one entry and
    the clock is ahead of every timestamp of the ledger, the last entry of
    the ledger it leaves is the summary of this run: its build, the total
    and passed counters of the run and the instant the clock gave. *)
Theorem current_run_is_last fuel sched r w :
  fst (onEnd fuel sched (r, w)) = Ok tt ->
  Js.gt (Js.of_Z 1) (historyTrend (options r)) = false ->
  (forall h k, h ∈ historyData r -> (h_timestamp h < clock w k)%Z) ->
  exists k,
    last (historyData (fst (snd (onEnd fuel sched (r, w)))))
    = Some (summary_of (fst (snd (onEnd fuel sched (r, w)))) (clock w k)).
Proof.
  intros Hok HW Hclock.
  destruct (onEnd_ok _ _ _ _ Hok) as (k & trimmed & _ & _ & Htrim & Hledger & _).
  cbv zeta in *. exists k. rewrite Hledger.
  rewrite (trim_last _ _ _ _ HW Htrim).
  apply sort_last; [apply upsert_elem|].
  intros h Hh. apply upsert_from in Hh as [->|Hh]; [by left|right].
  simpl. by apply Hclock.
Qed.

(** With the history to be reset, a run begins with the ledger the
    reporter had in memory. *)
Lemma onBegin_reset r w r1 w1 :
  resetHistory (options r) = true ->
  onBegin (r, w) = (Ok tt, (r1, w1)) ->
  r1 = _resetState r /\ clock w1 = clock w.
Proof.
  intros Hreset. rewrite onBegin_eq. cbv zeta. rewrite Hreset.
  destruct (ensure_dir _ (tick w)) as [w2|] eqn:Hout; [|done].
  destruct (ensure_dir_clock _ _ _ Hout) as [Hc2 _].
  destruct (fs w2 !! historyFilePath (options r)) as [[content|]|]; [|done|];
    destruct (embedAssets (options r)).
  - intros ?. by simplify_eq.
  - destruct (ensure_dir (attachmentsDir (options r)) _) as [w3|] eqn:Hatt; [|done].
    destruct (ensure_dir_clock _ _ _ Hatt) as [Hc3 _].
    intros ?. simplify_eq. split; [done|]. by rewrite Hc3.
  - intros ?. by simplify_eq.
  - destruct (ensure_dir (attachmentsDir (options r)) _) as [w3|] eqn:Hatt; [|done].
    destruct (ensure_dir_clock _ _ _ Hatt) as [Hc3 _].
    intros ?. simplify_eq. split; [done|]. by rewrite Hc3.
Qed.

(** X4. With [resetHistory] a run of a new reporter starts the ledger
    over: when it completes with a window of at least one entry, the ledger
    in memory and in the history file holds the summary of this run and
    nothing else. *)
Theorem reset_history_starts_over fuel sched events o w :
  resetHistory (constructor o) = true ->
  Js.gt (Js.of_Z 1) (historyTrend (constructor o)) = false ->
  fst (run fuel sched events (new_reporter o, w)) = Ok tt ->
  exists k,
    let r' := fst (snd (run fuel sched events (new_reporter o, w))) in
    let w' := snd (snd (run fuel sched events (new_reporter o, w))) in
    historyData r' = [summary_of r' (clock w k)] /\
    fs w' !! historyFilePath (constructor o)
    = Some (File (JSON_stringify [summary_of r' (clock w k)])).
Proof.
  intros Hreset HW. rewrite run_eq.
  assert (forall w1, clock w1 = clock w ->
            fst (onEnd fuel sched
                   (set_testMap (accumulate events []) (_resetState (new_reporter o)),
                    w1)) = Ok tt ->
            exists k,
              let s' := snd (onEnd fuel sched
                   (set_testMap (accumulate events []) (_resetState (new_reporter o)),
                    w1)) in
              historyData (fst s') = [summary_of (fst s') (clock w k)] /\
              fs (snd s') !! historyFilePath (constructor o)
              = Some (File (JSON_stringify [summary_of (fst s') (clock w k)])))
    as Hend.
  { intros w1 Hc Hok.
    destruct (onEnd_ok _ _ _ _ Hok)
      as (k & trimmed & _ & _ & Htrim & Hledger & Hfile & _).
    cbv zeta in *. simpl options in *. simpl historyData in Htrim.
    rewrite upsert_nil in Htrim. simpl sort in Htrim.
    rewrite trim_unfold in Htrim. simpl length in Htrim.
    change (Z.of_nat 1) with 1%Z in Htrim. rewrite HW in Htrim.
    injection Htrim as <-. exists k. rewrite <- Hc. by rewrite Hledger, Hfile. }
  destruct (onBegin (new_reporter o, w)) as [[[]|e|] [r1 w1]] eqn:Hbegin; [|done..].
  destruct (onBegin_reset (new_reporter o) _ _ _ Hreset Hbegin) as [-> Hc].
  by apply Hend.
Qed.

Lemma Forall2_entries events (m : TestMap) records :
  Forall2 consolidated (map snd m) records ->
  Forall (fun ke => entry_for events (fst ke) (snd ke)) m ->
  Forall2 (fun k t => exists e, entry_for events k e /\ consolidated e t)
    (keys m) records.
Proof.
  revert records. induction m as [|[k e] m IH]; intros records Hrecords Hentries.
  - apply Forall2_nil_inv_l in Hrecords as ->. constructor.
  - apply Forall2_cons_inv_l in Hrecords as (t & records' & Ht & Hrest & ->).
    apply Forall_cons in Hentries as [He Hentries].
    constructor; [by exists e|by apply IH].
Qed.

(** X5. A completed run lists one record per test identity, in the order
    in which the identities first reported an attempt; the record of an
    identity carries the title and the expectation of the test of its first
    event, the status of its last attempt, and as retries the number of its
    events after the first. *)
Theorem report_order fuel sched events r0 w :
  fst (run fuel sched events (r0, w)) = Ok tt ->
  Forall2 (fun k t => exists e, entry_for events k e /\ consolidated e t)
    (first_seen (map (fun ev => id (fst ev)) events))
    (tests (fst (snd (run fuel sched events (r0, w))))).
Proof.
  rewrite run_eq.
  destruct (onBegin_resets (r0, w)) as [Hmap _].
  destruct (onBegin (r0, w)) as [[[]|e|] [r1 w1]]; [|done..]. simpl in Hmap.
  rewrite Hmap. intros Hok.
  destruct (onEnd_ok _ _ _ _ Hok) as (k & trimmed & _ & Hrecords & _).
  cbv zeta in *. simpl testMap in Hrecords.
  destruct (accumulate_entries events) as [Hkeys Hentries].
  rewrite <- Hkeys. by apply Forall2_entries.
Qed.

End Runs.

Section Footprint.
Context {platform : Platform}.

Lemma collect_attachments_inline opts sched testId acc j results w :
  embedAssets opts = true ->
  match collect_attachments opts sched testId acc j results w with
  | (Ok _, w') => fs w' = fs w
  | _ => True
  end.
Proof.
  intros Hembed.
  revert acc j w. induction results as [|res rest IH]; intros acc j w; [done|].
  rewrite collect_attachments_cons.
  destruct (promises_of_spec opts testId res w) as (Hmodes & Hstarted & _).
  pose proof (Promise_all_complete opts (promises_of opts testId res w)
                (sched testId j)
                (promises_of opts testId res w)
                (after_starts opts (length (attachments res)) w)
                Hmodes Hstarted) as Hall.
  destruct (Promise_all _ _ _ _) as [[values|e|] w2]; [|done|done].
  destruct Hall as ((_ & _ & Hfs) & _).
  specialize (IH (acc ++ values) (S j) w2).
  destruct (collect_attachments _ _ _ _ _ _ w2) as [[atts|e|] w3]; [|done|done].
  rewrite IH, Hfs by done. done.
Qed.

(** The counters and the filesystem after the entries have been
    consolidated. *)
Lemma traverse_consolidate_counts sched entries : forall r w,
  match traverse (consolidate sched) entries (r, w) with
  | (Ok records, (r', w')) =>
      counts r' = foldl tally (counts r) records /\
      (embedAssets (options r) = true -> fs w' = fs w)
  | _ => True
  end.
Proof.
  induction entries as [|entry entries IH]; intros r w; [done|].
  simpl traverse. unfold bind at 1.
  pose proof (consolidate_spec sched entry r w) as Hspec.
  destruct (last (results entry)) as [finalResult|] eqn:Hlast.
  - rewrite (consolidate_unfold _ _ _ _ _ Hlast) in *.
    pose proof (collect_attachments_inline (options r) sched (id (test entry))
                  [] 0 (results entry) w) as Hfs.
    destruct (collect_attachments _ _ _ _ _ _ w) as [[atts|e|] w1]; [|done..].
    unfold bind at 1.
    specialize (IH (counted entry finalResult r) w1).
    destruct (traverse _ _ _) as [[records|e|] [r2 w2]]; [|done..].
    destruct IH as [Hcounts Hfs2]. unfold ret. split.
    + rewrite Hcounts. simpl. f_equal. unfold tally. simpl.
      f_equal. rewrite Z2Nat.inj_sub, Nat2Z.id by lia. simpl.
      destruct (results entry); [done|]. simpl. lia.
    + intros Hembed. rewrite Hfs2, Hfs by done. done.
  - unfold consolidate. rewrite Hlast. done.
Qed.

Lemma foldl_tally records : forall c,
  passed (foldl tally c records)
  = (passed c + count_records (fun t => bool_decide (t_status t = Passed)) records)%nat /\
  failed (foldl tally c records)
  = (failed c + count_records (fun t => counts_as_failed (t_status t)) records)%nat /\
  skipped (foldl tally c records)
  = (skipped c + count_records (fun t => bool_decide (t_status t = Skipped)) records)%nat /\
  flaky (foldl tally c records)
  = (flaky c + count_records (fun t => (0 <? t_retries t)%Z) records)%nat.
Proof.
  unfold count_records.
  induction records as [|t records IH]; intros c.
  - simpl. split_and!; lia.
  - simpl foldl. destruct (IH (tally c t)) as (Hp & Hf & Hs & Hk).
    rewrite Hp, Hf, Hs, Hk. rewrite !filter_cons.
    assert ((1 <? S (Z.to_nat (t_retries t)))%nat = (0 <? t_retries t)%Z) as Hflaky.
    { destruct (Z.ltb_spec 0 (t_retries t));
        [apply Nat.ltb_lt|apply Nat.ltb_ge]; lia. }
    unfold tally, count_test, count_flaky. rewrite Hflaky.
    destruct (0 <? t_retries t)%Z, (t_status t); simpl;
      repeat case_decide; try done; simpl; split_and!; lia.
Qed.

(** What [onEnd] leaves when it completes: the records, the counters and
    the filesystem. *)
Lemma onEnd_state fuel sched r w :
  fst (onEnd fuel sched (r, w)) = Ok tt ->
  counts (fst (snd (onEnd fuel sched (r, w))))
  = foldl tally (counts r) (tests (fst (snd (onEnd fuel sched (r, w))))) /\
  (embedAssets (options r) = true ->
   forall p, p <> historyFilePath (options r) ->
     fs (snd (snd (onEnd fuel sched (r, w)))) !! p = fs w !! p).
Proof.
  rewrite onEnd_eq.
  pose proof (traverse_consolidate_spec sched (map snd (testMap r)) r (tick w)) as Hspec.
  pose proof (traverse_consolidate_counts sched (map snd (testMap r)) r (tick w)) as Hc.
  destruct (traverse _ _ _) as [[allTests|e|] [r1 w1]]; [|done..].
  destruct Hspec as (Ho & _). destruct Hc as [Hcounts Hfs].
  rewrite update_history_eq. cbv zeta.
  change (options (set_tests allTests r1)) with (options r1). rewrite Ho.
  destruct (trim fuel _ _) as [trimmed|]; [|done].
  destruct (decide (writable (fs w1) (historyFilePath (options r)))); [|done].
  intros _. split; [exact Hcounts|]. intros Hembed p Hp. simpl.
  rewrite lookup_insert_ne by done. by rewrite Hfs.
Qed.

(** X6. The counters of a completed run agree with the records it lists:
    passed, failed, skipped and retried are the numbers of records whose
    status is passed, whose status is failed, timedOut or interrupted, whose
    status is skipped, and which have retries. *)
Theorem counters_match_records fuel sched events r0 w :
  fst (run fuel sched events (r0, w)) = Ok tt ->
  let r' := fst (snd (run fuel sched events (r0, w))) in
  passed (counts r')
  = count_records (fun t => bool_decide (t_status t = Passed)) (tests r') /\
  failed (counts r')
  = count_records (fun t => counts_as_failed (t_status t)) (tests r') /\
  skipped (counts r')
  = count_records (fun t => bool_decide (t_status t = Skipped)) (tests r') /\
  flaky (counts r')
  = count_records (fun t => (0 <? t_retries t)%Z) (tests r').
Proof.
  rewrite run_eq. destruct (onBegin_resets (r0, w)) as [_ Hzero].
  destruct (onBegin (r0, w)) as [[[]|e|] [r1 w1]]; [|done..]. simpl in Hzero.
  intros Hok. destruct (onEnd_state _ _ _ _ Hok) as [Hcounts _].
  cbv zeta. rewrite Hcounts. simpl counts. rewrite Hzero.
  apply (foldl_tally _ zero).
Qed.

(** X7. In inline mode a run, from [onBegin] to the write of the history
    file, writes no blob and makes no directory but those that lead to the
    history file: every path other than the history file is as it was
    before the run, or was missing and is now a directory, the output
    directory or one of its ancestors. *)
Theorem inline_run_footprint fuel sched events o w p :
  embedAssets (constructor o) = true ->
  fst (run fuel sched events (new_reporter o, w)) = Ok tt ->
  p <> historyFilePath (constructor o) ->
  fs (snd (snd (run fuel sched events (new_reporter o, w)))) !! p = fs w !! p \/
  (fs w !! p = None /\
   fs (snd (snd (run fuel sched events (new_reporter o, w)))) !! p = Some Directory /\
   p ∈ outputDir (constructor o) :: ancestors (outputDir (constructor o))).
Proof.
  intros Hembed Hok Hhist. revert Hok.
  rewrite run_eq, onBegin_eq. cbv zeta.
  change (options (new_reporter o)) with (constructor o). rewrite Hembed.
  destruct (ensure_dir (outputDir (constructor o)) (tick w)) as [w2|] eqn:Hout;
    [|done].
  destruct (ensure_dir_spec _ _ _ Hout) as (_ & _ & Hmade).
  specialize (Hmade p). change (fs (tick w)) with (fs w) in Hmade.
  assert (forall r1 w1,
            options r1 = constructor o -> fs w1 !! p = fs w2 !! p ->
            fst (onEnd fuel sched (r1, w1)) = Ok tt ->
            fs (snd (snd (onEnd fuel sched (r1, w1)))) !! p = fs w2 !! p) as Hend.
  { intros r1 w1 Ho Hp Hok. destruct (onEnd_state _ _ _ _ Hok) as [_ Hfs].
    rewrite Ho in Hfs. by rewrite Hfs. }
  assert (forall r1 w1,
            options r1 = constructor o -> fs w1 !! p = fs w2 !! p ->
            fst (onEnd fuel sched (r1, w1)) = Ok tt ->
            fs (snd (snd (onEnd fuel sched (r1, w1)))) !! p = fs w !! p \/
            (fs w !! p = None /\
             fs (snd (snd (onEnd fuel sched (r1, w1)))) !! p = Some Directory /\
             p ∈ outputDir (constructor o) :: ancestors (outputDir (constructor o))))
    as Hrun.
  { intros r1 w1 Ho Hp Hok. rewrite (Hend r1 w1 Ho Hp Hok).
    destruct Hmade as [->|Hnew]; [by left|by right]. }
  destruct (fs w2 !! historyFilePath (constructor o)) as [[content|]|];
    destruct (resetHistory (constructor o)); try done; apply Hrun; try done.
  simpl. by rewrite lookup_delete_ne.
Qed.

End Footprint.

(** ** The badge of a test *)

Section Badges.
Context {platform : Platform}.

Lemma badge_cases test :
  badge test =
    if (0 <? t_retries test)%Z then ("flaky"%string, "Retried"%string)
    else match t_status test with
         | Passed => ("passed"%string, "passed"%string)
         | Skipped => ("skipped"%string, "skipped"%string)
         | Failed | TimedOut | Interrupted => ("failed"%string, "failed"%string)
         end.
Proof. unfold badge. by destruct (t_status test), (0 <? t_retries test)%Z. Qed.

(** X8. The badge of a consolidated test: a test with more than one
    attempt is badged Retried, whatever its reporting status; a test with
    one attempt is badged passed, skipped or failed, where timedOut and
    interrupted show as failed. *)
Theorem badge_of_consolidated sched entry s t :
  fst (consolidate sched entry s) = Ok t ->
  badge t =
    if (1 <? length (results entry))%nat then ("flaky"%string, "Retried"%string)
    else match t_status t with
         | Passed => ("passed"%string, "passed"%string)
         | Skipped => ("skipped"%string, "skipped"%string)
         | Failed | TimedOut | Interrupted => ("failed"%string, "failed"%string)
         end.
Proof.
  intros Hok. destruct s as [r w].
  pose proof (consolidate_spec sched entry r w) as Hspec.
  destruct (consolidate sched entry (r, w)) as [[t'|e|] [r' w']]; [|done..].
  injection Hok as ->. destruct Hspec as (_ & _ & (final & _ & _ & _ & Hretries) & _).
  rewrite badge_cases, Hretries.
  destruct (Nat.ltb_spec 1 (length (results entry))).
  - rewrite (proj2 (Z.ltb_lt _ _)) by lia. done.
  - rewrite (proj2 (Z.ltb_ge _ _)) by lia. done.
Qed.

End Badges.

(** ** Blobs of the same name *)

Section Collisions.
Context {platform : Platform}.

Lemma settle_S {T A} (complete : T -> M World A) pick n pending slots rejected w :
  settle complete pick (S n) pending slots rejected w =
    match pending !! (pick (length pending) `mod` length pending)%nat with
    | None => (slots, rejected, w)
    | Some (i, t) =>
        let pending' :=
          delete (pick (length pending) `mod` length pending)%nat pending in
        match complete t w with
        | (Ok v, w') =>
            settle complete pick n pending' (<[i := Some v]> slots) rejected w'
        | (Throw e, w') =>
            settle complete pick n pending' slots
              (match rejected with Some _ => rejected | None => Some e end) w'
        | (Hang, w') => settle complete pick n pending' slots rejected w'
        end
    end.
Proof. reflexivity. Qed.

(** X9. In stored mode two attachments of one attempt that have the same
    name and content type and are started within the same millisecond get
    the same file name: both records point to one path, the two writes
    overlap, and the run leaves one blob for the two attachments, with the
    bytes the platform leaves when the write that completes last is done;
    nothing else is written. *)
Theorem same_name_blobs_collide opts sched testId res a b bytes_a bytes_b w :
  embedAssets opts = false ->
  attachments res = [a; b] ->
  a_name a = a_name b -> a_contentType a = a_contentType b ->
  choose_source (fs w) a = FromBody bytes_a ->
  choose_source (fs w) b = FromBody bytes_b ->
  clock w (S (ticks w)) = clock w (ticks w) ->
  let destinationPath :=
    path_join (attachmentsDir opts)
      (attachmentFileName testId a (retry res) (clock w (ticks w))) in
  writable (fs w) destinationPath ->
  exists ra rb w',
    collect_attachments opts sched testId [] 0 [res] w = (Ok [ra; rb], w') /\
    path ra = path rb /\
    in_flight (promises_of opts testId res w) destinationPath = 2%nat /\
    (exists w1,
       fs w' !! destinationPath
       = Some (File (interleaved w1 destinationPath
                       (if (sched testId 0 2 mod 2 =? 0)%nat
                        then bytes_b else bytes_a)))) /\
    (forall q, q <> destinationPath -> fs w' !! q = fs w !! q).
Proof.
  intros Hmode Hatts Hname Htype Ha Hb Hclock dst [Hdst Hparent].
  rewrite collect_attachments_cons. unfold promises_of, after_starts.
  rewrite Hatts, Hmode. simpl imap. simpl length.
  rewrite Nat.add_0_r, Nat.add_1_r, Hclock.
  unfold pending_of. rewrite Hmode, Ha, Hb.
  assert (attachmentFileName testId b (retry res) (clock w (ticks w))
          = attachmentFileName testId a (retry res) (clock w (ticks w))) as ->.
  { unfold attachmentFileName. by rewrite Hname, Htype. }
  fold dst.
  set (ra := stored testId (retry res) (clock w (ticks w)) a).
  set (rb := stored testId (retry res) (clock w (ticks w)) b).
  set (w0 := {| fs := fs w; clock := clock w; ticks := (ticks w + 2)%nat |}).
  set (batch := [Storing (FromBody bytes_a) dst ra; Storing (FromBody bytes_b) dst rb]).
  assert (path ra = path rb) as Hpath.
  { unfold ra, rb, stored, attachmentFileName. simpl. by rewrite Hname, Htype. }
  assert (in_flight batch dst = 2%nat) as Htwo.
  { unfold in_flight, batch. rewrite !filter_cons, filter_nil. simpl written.
    by rewrite !decide_True. }
  assert (path_dirname dst <> dst) as Hne.
  { intros Heq. rewrite Heq in Hparent. done. }
  assert (forall body r w1,
            kind_at (fs w1) dst <> IsDirectory ->
            kind_at (fs w1) (path_dirname dst) = IsDirectory ->
            complete opts batch (Storing (FromBody body) dst r) w1
            = (Ok r, set_fs (<[dst := File (interleaved w1 dst body)]> (fs w1)) w1))
    as Hwrite.
  { intros body r w1 Hd Hp. rewrite complete_storing, Htwo. cbv zeta.
    rewrite writeFile_eq, Hp. by destruct (kind_at (fs w1) dst). }
  assert (forall content (files : gmap string Node),
            kind_at (<[dst := File content]> files) dst <> IsDirectory) as Hfile.
  { intros content files. unfold kind_at. by rewrite lookup_insert_eq. }
  assert (forall content,
            kind_at (<[dst := File content]> (fs w)) (path_dirname dst) = IsDirectory)
    as Hkept.
  { intros content. unfold kind_at. by rewrite lookup_insert_ne. }
  unfold Promise_all. simpl length. simpl imap. simpl replicate.
  rewrite settle_S. simpl length.
  pose proof (Nat.mod_upper_bound (sched testId 0%nat 2%nat) 2) as Hlt.
  destruct (sched testId 0%nat 2%nat `mod` 2)%nat as [|[|n]] eqn:Hpick; [| |lia].
  - simpl lookup. simpl delete. cbv zeta iota beta.
    rewrite Hwrite by done.
    rewrite settle_S. simpl length. rewrite Nat.mod_1_r.
    simpl lookup. simpl delete. cbv zeta iota beta.
    rewrite Hwrite by (simpl; first [apply Hfile|apply Hkept]).
    simpl. exists ra, rb. eexists. split; [reflexivity|]. split; [done|].
    split; [done|]. simpl. split.
    + eexists. by rewrite lookup_insert_eq.
    + intros q Hq. by rewrite !lookup_insert_ne.
  - simpl lookup. simpl delete. cbv zeta iota beta.
    rewrite Hwrite by done.
    rewrite settle_S. simpl length. rewrite Nat.mod_1_r.
    simpl lookup. simpl delete. cbv zeta iota beta.
    rewrite Hwrite by (simpl; first [apply Hfile|apply Hkept]).
    simpl. exists ra, rb. eexists. split; [reflexivity|]. split; [done|].
    split; [done|]. simpl. split.
    + eexists. by rewrite lookup_insert_eq.
    + intros q Hq. by rewrite !lookup_insert_ne.
Qed.

End Collisions.

(** ** Steps *)

Lemma TestStep_nested_ind (P : TestStep -> Prop) :
  (forall title duration error steps,
     Forall P steps -> P (mkTestStep title duration error steps)) ->
  forall step, P step.
Proof.
  intros H. fix IH 1. intros [title duration error steps].
  apply H. induction steps as [|s steps IHsteps]; constructor.
  - apply IH.
  - exact IHsteps.
Qed.

Lemma processStep_ok step : step_ok (processStep step).
Proof.
  induction step as [title duration error steps IH] using TestStep_nested_ind.
  simpl. constructor.
  - destruct error; [right|left]; eauto.
  - by destruct steps.
  - intros l Hl. destruct steps as [|s steps]; [done|].
    injection Hl as <-.
    change (Forall step_ok (map processStep (s :: steps))).
    apply List.Forall_map. exact IH.
Qed.

Lemma processStep_titles step :
  report_titles (processStep step) = map stripAnsiCodes (step_titles step).
Proof.
  induction step as [title duration error steps IH] using TestStep_nested_ind.
  simpl. f_equal.
  assert (flat_map report_titles (map processStep steps)
          = map stripAnsiCodes (flat_map step_titles steps)) as Hsteps.
  { induction IH as [|s steps Hs _ IHsteps]; [done|].
    simpl. by rewrite Hs, IHsteps, map_app. }
  destruct steps as [|s steps]; [done|]. exact Hsteps.
Qed.

(** X10. Every step [processSteps] writes, at every depth, has the status
    passed or failed, never another; it has failed exactly when it carries
    an error text, and its list of steps is never an empty list. *)
Theorem processSteps_well_formed steps : Forall step_ok (processSteps steps).
Proof.
  apply List.Forall_map, Forall_forall. intros step _. apply processStep_ok.
Qed.

(** X11. [processSteps] keeps every step at every depth and their order: the
    titles of the report steps, read depth first, are the cleaned titles of
    the steps read depth first. *)
Theorem processSteps_titles steps :
  flat_map report_titles (processSteps steps)
  = map stripAnsiCodes (flat_map step_titles steps).
Proof.
  induction steps as [|s steps IH]; [done|].
  simpl. rewrite processStep_titles, map_app. f_equal. exact IH.
Qed.

(** X12. [groupedTests] lists every test under its project exactly once:
    the groups are the projects in the order in which they first occur in
    the report, no project has two groups, a group holds the tests of its
    project in report order and is never empty. *)
Theorem groupedTests_partition allTests :
  map fst (groupedTests allTests) = first_seen (map projectName allTests) /\
  NoDup (map fst (groupedTests allTests)) /\
  (forall k tests, (k, tests) ∈ groupedTests allTests ->
     tests <> [] /\ tests = filter (fun t => projectName t = k) allTests) /\
  (forall t, t ∈ allTests ->
     exists tests, (projectName t, tests) ∈ groupedTests allTests /\ t ∈ tests).
Proof.
  rewrite groupedTests_eq. unfold groups_of.
  assert (map fst
            (map (fun k => (k, filter (fun t => projectName t = k) allTests))
               (first_seen (map projectName allTests)))
          = first_seen (map projectName allTests)) as Hkeys.
  { rewrite map_map. simpl. apply map_id. }
  split; [exact Hkeys|]. split; [rewrite Hkeys; apply NoDup_first_seen|]. split.
  - intros k tests Hin. apply list_elem_of_fmap in Hin as (k' & [= -> ->] & Hk).
    split; [|done].
    apply elem_of_first_seen, list_elem_of_fmap in Hk as (t & -> & Ht).
    intros Hnil.
    assert (t ∈ filter (fun t' => projectName t' = projectName t) allTests) as Hin
      by by apply list_elem_of_filter.
    rewrite Hnil in Hin. by apply elem_of_nil in Hin.
  - intros t Ht. eexists. split.
    + apply list_elem_of_fmap. exists (projectName t). split; [reflexivity|].
      apply elem_of_first_seen, list_elem_of_fmap. eauto.
    + by apply list_elem_of_filter.
Qed.

Lemma otherAttachments_eq test :
  otherAttachments test = filter (fun a => is_trace a = false) (t_attachments test).
Proof.
  unfold otherAttachments, traces.
  assert (forall l', l' ⊆ t_attachments test ->
            filter (fun a => a ∉ filter (fun a => is_trace a = true)
                                   (t_attachments test)) l'
            = filter (fun a => is_trace a = false) l') as H.
  { induction l' as [|a l' IH]; intros Hsub; [done|].
    rewrite !filter_cons, IH by set_solver.
    assert (a ∈ t_attachments test) as Ha by set_solver.
    destruct (is_trace a) eqn:E.
    - rewrite decide_False, (decide_False (P := true = false)); [done..|].
      intros Hn. apply Hn. by apply list_elem_of_filter.
    - rewrite decide_True, (decide_True (P := false = false)); [done..|].
      intros [Ht _]%list_elem_of_filter. congruence. }
  by apply H.
Qed.

(** X13. [generateSingleTestCase] shows every attachment in one of its two
    sections: the other attachments are exactly the attachments that are
    neither named trace nor of type application/zip, the traces and the
    other attachments are each in report order, and the two lists together
    are the attachments of the test. *)
Theorem attachments_split test :
  otherAttachments test = filter (fun a => is_trace a = false) (t_attachments test) /\
  sublist (traces test) (t_attachments test) /\
  sublist (otherAttachments test) (t_attachments test) /\
  traces test ++ otherAttachments test ≡ₚ t_attachments test.
Proof.
  rewrite otherAttachments_eq. unfold traces.
  split; [done|].
  split; [apply sublist_filter|]. split; [apply sublist_filter|].
  assert (filter (fun a => is_trace a = false) (t_attachments test)
          = filter (fun a => is_trace a <> true) (t_attachments test)) as ->.
  { apply list_filter_iff. intros a. by destruct (is_trace a). }
  apply filter_app_complement.
Qed.

(** ** The runs of the examples *)

(** A window of minus one: the constructor keeps it and the run never
    returns. *)
Lemma negative_trend_never_returns_witness :
  field opt_historyTrend (Demo.trend (Js.of_Z (-1))) = Some (Js.of_Z (-1)) /\
  negative (Js.of_Z (-1)) /\
  fst (@run Demo.platform 10 Demo.first_first Demo.events
         (new_reporter (Demo.trend (Js.of_Z (-1))), Demo.world Demo.files))
  <> Ok tt.
Proof.
  assert (negative (Js.of_Z (-1))) as Hneg.
  { right. exists (inject_Z (-1)). split; [reflexivity|]. reflexivity. }
  split; [reflexivity|]. split; [exact Hneg|].
  exact (proj2 (@negative_trend_never_returns Demo.platform
                  (Demo.trend (Js.of_Z (-1))) (Js.of_Z (-1)) 10 Demo.first_first
                  Demo.events (Demo.world Demo.files) eq_refl Hneg)).
Defined.

(** The same run in the model: the trimming loop is still running when its
    ten iterations are used up. *)
Example negative_trend_run :
  fst (@run Demo.platform 10 Demo.first_first Demo.events
         (new_reporter (Demo.trend (Js.of_Z (-1))), Demo.world Demo.files))
  = Hang.
Proof. vm_compute. reflexivity. Qed.

(** On the platform whose parser inverts its serialiser, the ledger of a
    run is what the next run starts with. *)
Lemma history_round_trip_witness :
  fst (@run Demo.codec 10 Demo.first_first Demo.events
         (new_reporter Demo.no_options, Demo.world Demo.files)) = Ok tt /\
  historyData
    (fst (snd (@run Demo.codec 10 Demo.first_first Demo.events
                 (new_reporter Demo.no_options, Demo.world Demo.files))))
  = [ {| h_buildNo := "N/A"; h_total := 2; h_passed := 1;
         h_timestamp := 1700000000006 |} ] /\
  historyData
    (fst (snd (@onBegin Demo.codec
                 (new_reporter Demo.no_options,
                  snd (snd (@run Demo.codec 10 Demo.first_first Demo.events
                              (new_reporter Demo.no_options,
                               Demo.world Demo.files)))))))
  = [ {| h_buildNo := "N/A"; h_total := 2; h_passed := 1;
         h_timestamp := 1700000000006 |} ].
Proof.
  assert (fst (@run Demo.codec 10 Demo.first_first Demo.events
                 (new_reporter Demo.no_options, Demo.world Demo.files)) = Ok tt)
    as Hok by (vm_compute; reflexivity).
  assert (historyData
            (fst (snd (@run Demo.codec 10 Demo.first_first Demo.events
                         (new_reporter Demo.no_options, Demo.world Demo.files))))
          = [ {| h_buildNo := "N/A"; h_total := 2; h_passed := 1;
                 h_timestamp := 1700000000006 |} ])
    as Hledger by (vm_compute; reflexivity).
  split; [exact Hok|]. split; [exact Hledger|].
  rewrite <- Hledger.
  apply (proj2 (@history_round_trip Demo.codec 10 Demo.first_first Demo.events
                  Demo.no_options (Demo.world Demo.files) _ Hok) eq_refl);
    [vm_compute; reflexivity|reflexivity|reflexivity].
Defined.

(** A reporter with the builds B1 and B2 in its ledger: the run is the last
    entry of the ledger it leaves. *)
Lemma current_run_is_last_witness :
  fst (@onEnd Demo.platform 10 Demo.first_first (Demo.seasoned, Demo.world Demo.dirs))
  = Ok tt /\
  Js.gt (Js.of_Z 1) (historyTrend (options Demo.seasoned)) = false /\
  (forall h k, h ∈ historyData Demo.seasoned ->
     (h_timestamp h < clock (Demo.world Demo.dirs) k)%Z) /\
  exists k,
    last (historyData
            (fst (snd (@onEnd Demo.platform 10 Demo.first_first
                         (Demo.seasoned, Demo.world Demo.dirs)))))
    = Some (summary_of
              (fst (snd (@onEnd Demo.platform 10 Demo.first_first
                           (Demo.seasoned, Demo.world Demo.dirs))))
              (clock (Demo.world Demo.dirs) k)).
Proof.
  assert (fst (@onEnd Demo.platform 10 Demo.first_first
                 (Demo.seasoned, Demo.world Demo.dirs)) = Ok tt)
    as Hok by (vm_compute; reflexivity).
  assert (forall h k, h ∈ historyData Demo.seasoned ->
            (h_timestamp h < clock (Demo.world Demo.dirs) k)%Z) as Hclock.
  { intros h k Hh.
    change (clock (Demo.world Demo.dirs) k) with (Demo.noon + Z.of_nat k)%Z.
    change (historyData Demo.seasoned) with [Demo.B1; Demo.B2] in Hh.
    unfold Demo.noon.
    apply elem_of_cons in Hh as [->|Hh]; [simpl h_timestamp; lia|].
    apply list_elem_of_singleton in Hh as ->. simpl h_timestamp. lia. }
  split; [exact Hok|]. split; [reflexivity|]. split; [exact Hclock|].
  exact (@current_run_is_last Demo.platform 10 Demo.first_first Demo.seasoned
           (Demo.world Demo.dirs) Hok eq_refl Hclock).
Defined.

Example seasoned_ledger :
  historyData
    (fst (snd (@onEnd Demo.platform 10 Demo.first_first
                 (Demo.seasoned, Demo.world Demo.dirs))))
  = [ Demo.B1; Demo.B2;
      {| h_buildNo := "N/A"; h_total := 1; h_passed := 1;
         h_timestamp := 1700000000001 |} ].
Proof. vm_compute. reflexivity. Qed.

(** A run that is to reset the history, over a history file that is
    there: the ledger it leaves holds this run only. *)
Lemma reset_history_starts_over_witness :
  resetHistory (constructor Demo.reset_options) = true /\
  Js.gt (Js.of_Z 1) (historyTrend (constructor Demo.reset_options)) = false /\
  fst (@run Demo.platform 10 Demo.first_first Demo.events
         (new_reporter Demo.reset_options, Demo.world Demo.corrupt)) = Ok tt /\
  exists k,
    historyData
      (fst (snd (@run Demo.platform 10 Demo.first_first Demo.events
                   (new_reporter Demo.reset_options, Demo.world Demo.corrupt))))
    = [summary_of
         (fst (snd (@run Demo.platform 10 Demo.first_first Demo.events
                      (new_reporter Demo.reset_options, Demo.world Demo.corrupt))))
         (clock (Demo.world Demo.corrupt) k)].
Proof.
  assert (fst (@run Demo.platform 10 Demo.first_first Demo.events
                 (new_reporter Demo.reset_options, Demo.world Demo.corrupt)) = Ok tt)
    as Hok by (vm_compute; reflexivity).
  split; [reflexivity|]. split; [reflexivity|]. split; [exact Hok|].
  destruct (@reset_history_starts_over Demo.platform 10 Demo.first_first Demo.events
              Demo.reset_options (Demo.world Demo.corrupt) eq_refl eq_refl Hok)
    as (k & Hledger & _).
  exists k. exact Hledger.
Defined.

Example reset_run_ledger :
  historyData
    (fst (snd (@run Demo.platform 10 Demo.first_first Demo.events
                 (new_reporter Demo.reset_options, Demo.world Demo.corrupt))))
  = [ {| h_buildNo := "B9"; h_total := 2; h_passed := 1;
         h_timestamp := 1700000000006 |} ].
Proof. vm_compute. reflexivity. Qed.

(** Login reports first, then KnownBug, then Login again: the report lists
    Login, then KnownBug. *)
Lemma report_order_witness :
  fst (@run Demo.platform 10 Demo.first_first Demo.events
         (new_reporter Demo.no_options, Demo.world Demo.files)) = Ok tt /\
  first_seen (map (fun ev => id (fst ev)) Demo.events) = ["t1"; "t2"]%string /\
  map t_title
    (tests (fst (snd (@run Demo.platform 10 Demo.first_first Demo.events
                        (new_reporter Demo.no_options, Demo.world Demo.files)))))
  = ["Login"; "KnownBug"]%string /\
  Forall2 (fun k t => exists e, entry_for Demo.events k e /\ consolidated e t)
    (first_seen (map (fun ev => id (fst ev)) Demo.events))
    (tests (fst (snd (@run Demo.platform 10 Demo.first_first Demo.events
                        (new_reporter Demo.no_options, Demo.world Demo.files))))).
Proof.
  assert (fst (@run Demo.platform 10 Demo.first_first Demo.events
                 (new_reporter Demo.no_options, Demo.world Demo.files)) = Ok tt)
    as Hok by (vm_compute; reflexivity).
  split; [exact Hok|]. split; [vm_compute; reflexivity|].
  split; [vm_compute; reflexivity|].
  exact (@report_order Demo.platform 10 Demo.first_first Demo.events
           (new_reporter Demo.no_options) (Demo.world Demo.files) Hok).
Defined.

(** Login took two attempts and passed in the end: its badge says
    Retried. *)
Lemma badge_of_consolidated_witness :
  fst (@consolidate Demo.platform Demo.first_first Demo.login_entry
         (new_reporter Demo.no_options, Demo.world Demo.files))
  = Ok {| t_title := "Login"; t_status := Passed; t_retries := 1;
          t_attachments := [] |} /\
  badge {| t_title := "Login"; t_status := Passed; t_retries := 1;
           t_attachments := [] |} = ("flaky"%string, "Retried"%string).
Proof.
  assert (fst (@consolidate Demo.platform Demo.first_first Demo.login_entry
                 (new_reporter Demo.no_options, Demo.world Demo.files))
          = Ok {| t_title := "Login"; t_status := Passed; t_retries := 1;
                  t_attachments := [] |}) as Hok by (vm_compute; reflexivity).
  split; [exact Hok|].
  exact (@badge_of_consolidated Demo.platform _ _ _ _ Hok).
Defined.

(** Two attachments named x within one millisecond: two records, one
    path, one blob. *)
Lemma same_name_blobs_collide_witness :
  @writable Demo.platform Demo.dirs
    "/work/playwright-custom-report/attachments/t1-x-0-1700000000000.png" /\
  exists ra rb w',
    @collect_attachments Demo.platform (constructor Demo.no_options)
      Demo.last_first "t1" [] 0 [Demo.twice] (Demo.frozen Demo.dirs)
    = (Ok [ra; rb], w') /\
    path ra = path rb /\
    exists content,
      fs w' !! "/work/playwright-custom-report/attachments/t1-x-0-1700000000000.png"%string
      = Some (File content).
Proof.
  assert (@writable Demo.platform Demo.dirs
            "/work/playwright-custom-report/attachments/t1-x-0-1700000000000.png")
    as Hwritable by (split; vm_compute; [discriminate|reflexivity]).
  split; [exact Hwritable|].
  destruct (@same_name_blobs_collide Demo.platform (constructor Demo.no_options)
              Demo.last_first "t1" Demo.twice Demo.x Demo.x' Demo.png [Byte.x00]
              (Demo.frozen Demo.dirs) eq_refl eq_refl eq_refl eq_refl eq_refl
              eq_refl eq_refl Hwritable)
    as (ra & rb & w' & Hrun & Hpath & _ & [w1 Hfile] & _).
  exists ra, rb, w'. split; [exact Hrun|]. split; [exact Hpath|].
  eexists. exact Hfile.
Defined.

(** The counters of the run of the examples against its two records. *)
Lemma counters_match_records_witness :
  fst (@run Demo.platform 10 Demo.first_first Demo.events
         (new_reporter Demo.no_options, Demo.world Demo.files)) = Ok tt /\
  counts (fst (snd (@run Demo.platform 10 Demo.first_first Demo.events
                      (new_reporter Demo.no_options, Demo.world Demo.files))))
  = {| total := 2; passed := 1; failed := 1; skipped := 0; flaky := 1 |} /\
  flaky (counts (fst (snd (@run Demo.platform 10 Demo.first_first Demo.events
                             (new_reporter Demo.no_options, Demo.world Demo.files)))))
  = count_records (fun t => (0 <? t_retries t)%Z)
      (tests (fst (snd (@run Demo.platform 10 Demo.first_first Demo.events
                          (new_reporter Demo.no_options, Demo.world Demo.files))))).
Proof.
  assert (fst (@run Demo.platform 10 Demo.first_first Demo.events
                 (new_reporter Demo.no_options, Demo.world Demo.files)) = Ok tt)
    as Hok by (vm_compute; reflexivity).
  split; [exact Hok|]. split; [vm_compute; reflexivity|].
  exact (proj2 (proj2 (proj2
           (@counters_match_records Demo.platform 10 Demo.first_first Demo.events
              (new_reporter Demo.no_options) (Demo.world Demo.files) Hok)))).
Defined.

(** An inline run leaves the file of the attachment y where it was. *)
Lemma inline_run_footprint_witness :
  embedAssets (constructor Demo.inline_options) = true /\
  fst (@run Demo.platform 10 Demo.first_first Demo.events
         (new_reporter Demo.inline_options, Demo.world Demo.files)) = Ok tt /\
  fs (snd (snd (@run Demo.platform 10 Demo.first_first Demo.events
                  (new_reporter Demo.inline_options, Demo.world Demo.files))))
    !! "/tmp/y.txt"%string
  = Some (File [Byte.x68; Byte.x69]).
Proof.
  assert (fst (@run Demo.platform 10 Demo.first_first Demo.events
                 (new_reporter Demo.inline_options, Demo.world Demo.files)) = Ok tt)
    as Hok by (vm_compute; reflexivity).
  split; [reflexivity|]. split; [exact Hok|].
  destruct (@inline_run_footprint Demo.platform 10 Demo.first_first Demo.events
              Demo.inline_options (Demo.world Demo.files) "/tmp/y.txt" eq_refl Hok)
    as [->|(Hnone & _)].
  - vm_compute. discriminate.
  - vm_compute. reflexivity.
  - vm_compute in Hnone. discriminate.
Defined.

(** *** What the filesystem refuses *)

(** The name of an attachment is part of the path of its blob: with a slash
    in it the blob would go to a directory that is not there, and the write
    is refused. *)
Example blob_below_missing_directory :
  fst (@processAttachment Demo.platform (constructor Demo.no_options) Demo.shot
         "T" 0 (Demo.world Demo.files))
  = Throw "ENOENT".
Proof. vm_compute. reflexivity. Qed.

(** An output folder two levels down: the run makes the directory and the
    one above it. *)
Example nested_output_folder :
  Demo.dirs !! "/work/reports"%string = None /\
  fst (@run Demo.platform 10 Demo.first_first Demo.events
         (new_reporter Demo.nested_options, Demo.world Demo.dirs)) = Ok tt /\
  fs (snd (snd (@run Demo.platform 10 Demo.first_first Demo.events
                  (new_reporter Demo.nested_options, Demo.world Demo.dirs))))
    !! "/work/reports"%string = Some Directory /\
  fs (snd (snd (@run Demo.platform 10 Demo.first_first Demo.events
                  (new_reporter Demo.nested_options, Demo.world Demo.dirs))))
    !! "/work/reports/html"%string = Some Directory.
Proof.
  split; [vm_compute; reflexivity|]. split; [vm_compute; reflexivity|].
  split; vm_compute; reflexivity.
Qed.

(** A regular file where the report directory should be: in stored mode
    the attachments directory cannot be made below it and the run does not
    begin. *)
Example report_directory_is_a_file :
  fst (@onBegin Demo.platform
         (new_reporter Demo.no_options, Demo.world Demo.blocked))
  = Throw "ENOTDIR".
Proof. vm_compute. reflexivity. Qed.

(** Two attachments named x within one millisecond, on a platform whose
    overlapping writes tear: the one blob holds the bytes of neither. *)
Example overlapping_writes_tear :
  fst (@collect_attachments Demo.torn (constructor Demo.no_options)
         Demo.first_first "t1" [] 0 [Demo.twice] (Demo.frozen Demo.dirs))
  = Ok [ {| name := "x"; contentType := "image/png";
            path := "attachments/t1-x-0-1700000000000.png" |};
         {| name := "x"; contentType := "image/png";
            path := "attachments/t1-x-0-1700000000000.png" |} ] /\
  fs (snd (@collect_attachments Demo.torn (constructor Demo.no_options)
             Demo.first_first "t1" [] 0 [Demo.twice] (Demo.frozen Demo.dirs)))
    !! "/work/playwright-custom-report/attachments/t1-x-0-1700000000000.png"%string
  = Some (File [Byte.x00; Byte.x50; Byte.x4e; Byte.x47]).
Proof. split; [vm_compute; reflexivity|]. vm_compute. reflexivity. Qed.

(** ** Strings *)

#[local] Arguments String.append !_ _ / : simpl nomatch.

Lemma string_app_assoc (a b c : string) : (a +:+ b) +:+ c = a +:+ (b +:+ c).
Proof. induction a as [|x a IH]; simpl; [done|]. by rewrite IH. Qed.

Lemma string_app_nil_r (a : string) : a +:+ "" = a.
Proof. induction a as [|x a IH]; simpl; [done|]. by rewrite IH. Qed.

Lemma string_length_app (a b : string) :
  String.length (a +:+ b) = (String.length a + String.length b)%nat.
Proof. induction a as [|x a IH]; simpl; [done|]. by rewrite IH. Qed.

Lemma chars_app (a b : string) :
  String.list_ascii_of_string (a +:+ b) = String.list_ascii_of_string a ++ String.list_ascii_of_string b.
Proof. induction a as [|x a IH]; simpl; [done|]. by rewrite IH. Qed.

Lemma substring_app (m rest : string) :
  String.substring 0 (String.length (m +:+ rest) - String.length rest) (m +:+ rest) = m.
Proof.
  rewrite string_length_app.
  replace (String.length m + String.length rest - String.length rest)%nat
    with (String.length m) by lia.
  induction m as [|x m IH]; simpl.
  - by destruct rest.
  - by rewrite IH.
Qed.

(** ** Matching and replacing *)

(** A match consumes a prefix of the string: the continuation is called on
    a suffix. *)
Lemma exec_rep_suffix step :
  (forall s k out, step s k = Some out ->
     exists m s', s = m +:+ s' /\ k s' = Some out) ->
  forall fuel min s k out, exec_rep step fuel min s k = Some out ->
    exists m s', s = m +:+ s' /\ k s' = Some out.
Proof.
  intros Hstep fuel. induction fuel as [|fuel IH]; intros min s k out; simpl.
  - intros Hk. by exists ""%string, s.
  - destruct (step s _) as [out'|] eqn:Hs.
    + intros [= ->]. apply Hstep in Hs as (m & s' & -> & Hk).
      destruct ((min =? 0)%nat && _); [done|].
      apply IH in Hk as (m' & s'' & -> & Hk).
      exists (m +:+ m'), s''. by rewrite string_app_assoc.
    + destruct (min =? 0)%nat; [|done]. intros Hk. by exists ""%string, s.
Qed.

Lemma exec_suffix i r : forall s k out,
  exec i r s k = Some out -> exists m s', s = m +:+ s' /\ k s' = Some out.
Proof.
  assert (forall accept s k out, exec_char accept s k = Some out ->
            exists m s', s = m +:+ s' /\ k s' = Some out) as Hchar.
  { intros accept [|x s] k out; simpl; [done|].
    destruct (accept x); [|done]. intros Hk.
    by exists (String x ""), s. }
  induction r as [|c| |cs|r1 IH1 r2 IH2|r1 IH1 r2 IH2|min max r IH];
    intros s k out; simpl; eauto.
  - intros Hk. by exists ""%string, s.
  - intros H. apply IH1 in H as (m & s' & -> & H).
    apply IH2 in H as (m' & s'' & -> & H).
    exists (m +:+ m'), s''. by rewrite string_app_assoc.
  - destruct (exec i r1 s k) eqn:H1.
    + intros [= ->]. eauto.
    + eauto.
  - apply exec_rep_suffix. exact IH.
Qed.

Lemma match_at_suffix i r s rest :
  match_at i r s = Some rest -> exists m, s = m +:+ rest.
Proof.
  intros H. apply exec_suffix in H as (m & s' & -> & [= ->]). by exists m.
Qed.

(** Replacing resumes after the text of a match. *)
Lemma replace_from_skip i r f (m rest : string) :
  replace_from i r f (String.length m) (m +:+ rest) = replace_from i r f 0 rest.
Proof. induction m as [|x m IH]; simpl; [by destruct rest|done]. Qed.

Lemma replace_match i r f (x : Ascii.ascii) (m rest : string) :
  match_at i r (String x m +:+ rest) = Some rest ->
  replace i r f (String x m +:+ rest) = f (String x m) +:+ replace i r f rest.
Proof.
  intros Hm. unfold replace.
  change (replace_from i r f 0 (String x m +:+ rest)) with
    (match match_at i r (String x m +:+ rest) with
     | Some rest0 =>
         let n := (String.length (String x m +:+ rest) - String.length rest0)%nat in
         f (String.substring 0 n (String x m +:+ rest)) +:+
         match n with
         | O => String x (replace_from i r f 0 (m +:+ rest))
         | S n' => replace_from i r f n' (m +:+ rest)
         end
     | None => String x (replace_from i r f 0 (m +:+ rest))
     end).
  rewrite Hm. cbv zeta. rewrite substring_app.
  rewrite string_length_app.
  replace (String.length (String x m) + String.length rest - String.length rest)%nat
    with (S (String.length m)) by (simpl; lia).
  by rewrite replace_from_skip.
Qed.

Lemma replace_no_match i r f (x : Ascii.ascii) (s : string) :
  match_at i r (String x s) = None ->
  replace i r f (String x s) = String x (replace i r f s).
Proof. intros Hm. unfold replace. simpl. by rewrite Hm. Qed.

Lemma replace_empty i r f :
  match_at i r "" = None -> replace i r f "" = ""%string.
Proof. intros Hm. unfold replace. simpl. by rewrite Hm. Qed.

(** ** [escapeHtml] *)

Lemma replace_chr_nil c f : replace false (Chr c) f "" = ""%string.
Proof. reflexivity. Qed.

Lemma replace_chr_cons c f x s :
  replace false (Chr c) f (String x s) =
    (if Ascii.eqb c x then f (String x "") else String x "")
    +:+ replace false (Chr c) f s.
Proof.
  destruct (Ascii.eqb c x) eqn:E.
  - apply (replace_match false (Chr c) f x "" s).
    unfold match_at. simpl. unfold same_char. by rewrite E.
  - apply replace_no_match.
    unfold match_at. simpl. unfold same_char. by rewrite E.
Qed.

Lemma replace_chr_app c f a b :
  replace false (Chr c) f (a +:+ b) =
    replace false (Chr c) f a +:+ replace false (Chr c) f b.
Proof.
  induction a as [|x a IH]; [done|].
  change (String x a +:+ b) with (String x (a +:+ b)).
  by rewrite !replace_chr_cons, IH, string_app_assoc.
Qed.

Lemma escapeHtml_nil : escapeHtml "" = ""%string.
Proof. reflexivity. Qed.

(** The five replacements, made one after the other, come to one pass that
    maps each character on its own: no replacement touches what an earlier
    one has put. *)
Lemma escapeHtml_cons x s : escapeHtml (String x s) = escape_char x +:+ escapeHtml s.
Proof.
  unfold escapeHtml. rewrite replace_chr_cons, !replace_chr_app. f_equal.
  destruct x as [[] [] [] [] [] [] [] []]; reflexivity.
Qed.

Lemma escapeHtml_app a b : escapeHtml (a +:+ b) = escapeHtml a +:+ escapeHtml b.
Proof.
  induction a as [|x a IH]; [done|].
  change (String x a +:+ b) with (String x (a +:+ b)).
  by rewrite !escapeHtml_cons, IH, string_app_assoc.
Qed.

Lemma escape_char_delimiters x :
  forallb (fun c => negb (html_delimiter c))
    (String.list_ascii_of_string (escape_char x)) = true.
Proof. destruct x as [[] [] [] [] [] [] [] []]; reflexivity. Qed.

Lemma escape_char_cases x :
  html_special x = false /\ escape_char x = String x "" \/
  html_special x = true /\
  exists entity, escape_char x = String "&" entity /\
    (x, entity) ∈ [("&"%char, "amp;"%string); ("<"%char, "lt;"%string);
                   (">"%char, "gt;"%string); ("034"%char, "quot;"%string);
                   ("'"%char, "#039;"%string)].
Proof.
  destruct x as [[] [] [] [] [] [] [] []];
    first [ left; split; reflexivity
          | right; split; [reflexivity|]; eexists; split; [reflexivity|];
            set_solver ].
Qed.

Lemma escapeHtml_delimiters text :
  forallb (fun c => negb (html_delimiter c))
    (String.list_ascii_of_string (escapeHtml text)) = true.
Proof.
  induction text as [|x text IH]; [done|].
  rewrite escapeHtml_cons, chars_app, forallb_app, escape_char_delimiters. exact IH.
Qed.

Lemma entity_split entity (a pre post : string) :
  entity ∈ ["amp;"; "lt;"; "gt;"; "quot;"; "#039;"]%string ->
  entity +:+ a = pre +:+ String "&" post ->
  exists pre', a = pre' +:+ String "&" post.
Proof.
  intros Hentity Heq.
  repeat (apply elem_of_cons in Hentity as [->|Hentity]);
    [..|by apply elem_of_nil in Hentity];
    repeat (destruct pre as [|? pre]; simpl in Heq;
            [discriminate Heq|injection Heq as <- Heq]);
    by exists pre.
Qed.

Lemma escapeHtml_ampersand text : forall pre post,
  escapeHtml text = pre +:+ String "&" post ->
  exists entity rest, post = entity +:+ rest /\
    entity ∈ ["amp;"; "lt;"; "gt;"; "quot;"; "#039;"]%string.
Proof.
  induction text as [|x text IH]; intros pre post.
  - rewrite escapeHtml_nil. by destruct pre.
  - rewrite escapeHtml_cons.
    destruct (escape_char_cases x) as [[Hx ->]|[Hx (entity & -> & Hentity)]].
    2: assert (entity ∈ ["amp;"; "lt;"; "gt;"; "quot;"; "#039;"]%string)
         as Hname by (clear -Hentity; set_solver).
    + destruct pre as [|p pre]; simpl.
      * intros [= -> _]. done.
      * intros [= _ H]. by apply IH in H.
    + destruct pre as [|p pre]; simpl.
      * intros [= <-]. by exists entity, (escapeHtml text).
      * intros [= _ H].
        destruct (entity_split _ _ _ _ Hname H) as [pre' H'].
        by apply IH in H'.
Qed.

Ltac each_entity H :=
  repeat (apply elem_of_cons in H as [[= -> ->]|H]);
  try (by apply elem_of_nil in H).

Lemma escape_char_inj x y (a b : string) :
  escape_char x +:+ a = escape_char y +:+ b -> x = y /\ a = b.
Proof.
  destruct (escape_char_cases x) as [[Hx ->]|[Hx (ex & -> & Hex)]],
    (escape_char_cases y) as [[Hy ->]|[Hy (ey & -> & Hey)]]; simpl.
  - by intros [= -> ->].
  - intros [= -> _]. done.
  - intros [= <- _]. done.
  - intros [= H].
    each_entity Hex; each_entity Hey; simpl in H; by simplify_eq.
Qed.

Lemma escapeHtml_inj s : forall t, escapeHtml s = escapeHtml t -> s = t.
Proof.
  assert (forall y t, escapeHtml (String y t) <> ""%string) as Hne.
  { intros y t. rewrite escapeHtml_cons.
    by destruct (escape_char_cases y) as [[_ ->]|[_ (e & -> & _)]]. }
  induction s as [|x s IH]; intros [|y t].
  - done.
  - intros H. symmetry in H. by apply Hne in H.
  - intros H. by apply Hne in H.
  - rewrite !escapeHtml_cons. intros H.
    apply escape_char_inj in H as [-> H]. f_equal. by apply IH.
Qed.

Lemma escapeHtml_plain s :
  forallb (fun c => negb (html_special c)) (String.list_ascii_of_string s) = true ->
  escapeHtml s = s.
Proof.
  induction s as [|x s IH]; [done|]. simpl.
  intros [Hx Hs]%andb_true_iff. rewrite escapeHtml_cons, IH by done.
  destruct (escape_char_cases x) as [[_ ->]|[Hx' _]]; [done|].
  by rewrite Hx' in Hx.
Qed.

Lemma escapeHtml_length s :
  (String.length s <= String.length (escapeHtml s))%nat.
Proof.
  induction s as [|x s IH]; [done|].
  rewrite escapeHtml_cons, string_length_app. simpl.
  destruct (escape_char_cases x) as [[_ ->]|[_ (e & -> & _)]]; simpl; lia.
Qed.

Lemma escapeHtml_changed s :
  escapeHtml s = s ->
  forallb (fun c => negb (html_special c)) (String.list_ascii_of_string s) = true.
Proof.
  induction s as [|x s IH]; [done|]. simpl.
  rewrite escapeHtml_cons.
  destruct (escape_char_cases x) as [[Hx ->]|[Hx (e & -> & He)]]; simpl.
  - intros [= H]. by rewrite Hx, IH.
  - intros [= _ H]. exfalso.
    pose proof (escapeHtml_length s) as Hlen.
    apply (f_equal String.length) in H. rewrite string_length_app in H.
    assert (1 <= String.length e)%nat; [|lia].
    clear -He. each_entity He; simpl; lia.
Qed.

(** ** [stripAnsiCodes] *)

Lemma eqb_shorter n m : (n =? S (m + n))%nat = false.
Proof. apply Nat.eqb_neq. lia. Qed.

Lemma exec_chr c x s k :
  exec false (Chr c) (String x s) k = if Ascii.eqb c x then k s else None.
Proof. reflexivity. Qed.

Lemma exec_seq i r1 r2 s k :
  exec i (Seq r1 r2) s k = exec i r1 s (fun rest => exec i r2 rest k).
Proof. reflexivity. Qed.

Lemma exec_rep_S step fuel min s k :
  exec_rep step (S fuel) min s k =
    match step s (fun s' =>
                    if (min =? 0)%nat && (String.length s' =? String.length s)%nat
                    then None
                    else exec_rep step fuel (pred min) s' k) with
    | Some out => Some out
    | None => if (min =? 0)%nat then k s else None
    end.
Proof. reflexivity. Qed.

Lemma exec_number d t k out :
  is_number d -> no_digit_ahead t -> k t = Some out ->
  exec false (Rep 1 (Some 3%nat) Digit) (d +:+ t) k = Some out.
Proof.
  intros [Hlen Hdigits] Ht Hk.
  pose proof (eqb_shorter (String.length t) 0) as E0.
  pose proof (eqb_shorter (String.length t) 1) as E1.
  pose proof (fun y => eqb_shorter (String.length (String y t)) 0) as E2.
  destruct d as [|a [|b [|c [|]]]]; simpl in Hlen, Hdigits; try lia.
  - apply andb_true_iff in Hdigits as [Ha _].
    destruct t as [|y t]; simpl in *; rewrite Ha; simpl; rewrite ?Ht, Hk; done.
  - apply andb_true_iff in Hdigits as [Ha [Hb _]%andb_true_iff].
    destruct t as [|y t]; simpl in *; rewrite Ha; simpl; rewrite Hb; simpl;
      rewrite ?E0, ?E1, ?E2, ?Ht, ?Hk; simpl; rewrite ?Hk; done.
  - apply andb_true_iff in Hdigits as [Ha [Hb [Hc _]%andb_true_iff]%andb_true_iff].
    destruct t as [|y t]; simpl in *; rewrite Ha; simpl; rewrite Hb; simpl; 
      rewrite ?E0, ?E1, ?E2, ?Ht, ?Hk; simpl; rewrite ?Hc; simpl;
      rewrite ?E0, ?E1, ?E2, ?Ht, ?Hk; simpl; rewrite ?Hk; done.
Qed.

Lemma join_numbers d ds : join ";" (d :: ds) = d +:+ more_numbers ds.
Proof.
  revert d. induction ds as [|d' ds IH]; intros d.
  - simpl. by rewrite string_app_nil_r.
  - change (join ";" (d :: d' :: ds)) with (d +:+ ";" +:+ join ";" (d' :: ds)).
    by rewrite IH.
Qed.

Lemma more_numbers_ahead ds f rest :
  is_digit f = false -> no_digit_ahead (more_numbers ds +:+ String f rest).
Proof. intros Hf. destruct ds; simpl; [exact Hf|done]. Qed.

Lemma exec_more_numbers ds : forall fuel f rest k out,
  Forall is_number ds -> is_digit f = false -> Ascii.eqb ";" f = false ->
  (length ds <= fuel)%nat ->
  k (String f rest) = Some out ->
  exec_rep (exec false (Seq (Chr ";") (Rep 1 (Some 3%nat) Digit))) fuel 0
    (more_numbers ds +:+ String f rest) k = Some out.
Proof.
  induction ds as [|d ds IH]; intros fuel f rest k out Hds Hf Hsep Hfuel Hk.
  - change (more_numbers [] +:+ String f rest) with (String f rest).
    destruct fuel as [|fuel]; [exact Hk|].
    rewrite exec_rep_S, exec_seq, exec_chr, Hsep. exact Hk.
  - destruct fuel as [|fuel]; [simpl in Hfuel; lia|].
    apply Forall_cons in Hds as [Hd Hds].
    change (more_numbers (d :: ds) +:+ String f rest)
      with (String ";" ((d +:+ more_numbers ds) +:+ String f rest)).
    rewrite string_app_assoc.
    rewrite exec_rep_S, exec_seq, exec_chr. simpl (Ascii.eqb _ _).
    erewrite exec_number; [reflexivity|exact Hd|by apply more_numbers_ahead|].
    simpl.
    replace (String.length (more_numbers ds +:+ String f rest) =?
             S (String.length (d +:+ more_numbers ds +:+ String f rest)))%nat
      with false.
    + apply IH; [done..|simpl in Hfuel; lia|done].
    + symmetry. apply Nat.eqb_neq. rewrite (string_length_app d). lia.
Qed.

Lemma final_not_digit f :
  f ∈ ["m"%char; "|"%char; "K"%char] ->
  is_digit f = false /\ Ascii.eqb ";" f = false /\
  existsb (same_char false f) ["m"%char; "|"%char; "K"%char] = true.
Proof.
  intros Hf. repeat (apply elem_of_cons in Hf as [->|Hf]); [done..|].
  by apply elem_of_nil in Hf.
Qed.

(** A well-formed control sequence is matched whole. *)
Lemma match_at_code numbers final rest :
  well_formed (Code numbers final) ->
  match_at false ansi_code (render (Code numbers final) +:+ rest) = Some rest.
Proof.
  intros [Hnumbers Hfinal].
  destruct (final_not_digit _ Hfinal) as (Hdigit & Hsep & Hclass).
  unfold match_at, ansi_code. simpl render.
  change (String ESC (String "[" (join ";" numbers +:+ String final "")) +:+ rest)
    with (String ESC (String "[" ((join ";" numbers +:+ String final "") +:+ rest))).
  rewrite string_app_assoc.
  change (String final "" +:+ rest) with (String final rest).
  rewrite exec_seq, exec_chr. simpl (Ascii.eqb _ _).
  rewrite exec_seq, exec_chr. simpl (Ascii.eqb _ _).
  rewrite exec_seq.
  change (exec false (Rep 0 (Some 1%nat) ?r) ?s ?k)
    with (exec_rep (exec false r) 1 0 s k).
  rewrite exec_rep_S.
  destruct numbers as [|d ds].
  - change (join ";" [] +:+ String final rest) with (String final rest).
    rewrite exec_seq.
    change (exec false (Rep 1 (Some 3%nat) Digit) (String final rest) ?k)
      with (exec_rep (exec false Digit) 3 1 (String final rest) k).
    rewrite exec_rep_S.
    change (exec false Digit (String final rest) ?k)
      with (if is_digit final then k rest else None).
    rewrite Hdigit. simpl in Hclass |- *.
    by rewrite Hclass.
  - apply Forall_cons in Hnumbers as [Hd Hds].
    rewrite join_numbers, string_app_assoc, exec_seq.
    erewrite exec_number; [reflexivity|exact Hd|by apply more_numbers_ahead|].
    change (exec false (Rep 0 None ?r) ?s ?k)
      with (exec_rep (exec false r) (0 + String.length s) 0 s k).
    erewrite exec_more_numbers; [reflexivity|done..| |].
    + rewrite string_length_app. simpl.
      clear. induction ds as [|d' ds IH]; simpl; [lia|].
      rewrite string_length_app. lia.
    + replace (String.length (String final rest) =?
               String.length (d +:+ more_numbers ds +:+ String final rest))%nat
        with false.
      * simpl in Hclass |- *. by rewrite Hclass.
      * symmetry. apply Nat.eqb_neq. rewrite string_length_app.
        destruct Hd as [Hlen _]. rewrite string_length_app. simpl. lia.
Qed.

Lemma match_at_plain x s : x <> ESC -> match_at false ansi_code (String x s) = None.
Proof.
  intros Hx. unfold match_at, ansi_code. rewrite exec_seq, exec_chr.
  destruct (Ascii.eqb ESC x) eqn:E; [|done].
  apply Ascii.eqb_eq in E. by subst.
Qed.

Lemma stripAnsiCodes_text t rest :
  ESC ∉ String.list_ascii_of_string t ->
  stripAnsiCodes (t +:+ rest) = t +:+ stripAnsiCodes rest.
Proof.
  induction t as [|x t IH]; [done|]. simpl.
  intros [Hx Ht]%not_elem_of_cons.
  unfold stripAnsiCodes in *. rewrite replace_no_match.
  - by rewrite IH.
  - apply match_at_plain. congruence.
Qed.

Lemma stripAnsiCodes_code numbers final rest :
  well_formed (Code numbers final) ->
  stripAnsiCodes (render (Code numbers final) +:+ rest) = stripAnsiCodes rest.
Proof.
  intros Hcode. unfold stripAnsiCodes.
  pose proof (match_at_code numbers final rest Hcode) as Hm.
  simpl render in *.
  by rewrite (replace_match _ _ _ _ _ _ Hm).
Qed.

Lemma stripAnsiCodes_nil : stripAnsiCodes "" = ""%string.
Proof. reflexivity. Qed.

Lemma stripAnsiCodes_pieces_eq pieces :
  Forall well_formed pieces ->
  stripAnsiCodes (concat_all (map render pieces)) = concat_all (map plain pieces).
Proof.
  induction 1 as [|p pieces Hp _ IH]; [done|].
  simpl. unfold concat_all in *. rewrite <- IH.
  destruct p as [t|numbers final].
  - by apply stripAnsiCodes_text.
  - by apply (stripAnsiCodes_code numbers final).
Qed.

Lemma replace_from_cons i r f x s :
  replace_from i r f 0 (String x s) =
    match match_at i r (String x s) with
    | Some rest =>
        let n := (String.length (String x s) - String.length rest)%nat in
        f (String.substring 0 n (String x s)) +:+
        match n with
        | O => String x (replace_from i r f 0 s)
        | S n' => replace_from i r f n' s
        end
    | None => String x (replace_from i r f 0 s)
    end.
Proof. reflexivity. Qed.

(** Replacing by the empty string only removes characters. *)
Lemma replace_removes i r : forall s skip,
  sublist (String.list_ascii_of_string (replace_from i r (fun _ => ""%string) skip s))
    (String.list_ascii_of_string s).
Proof.
  induction s as [|x s IH]; intros skip.
  - destruct skip; simpl; [|constructor].
    destruct (match_at i r ""); constructor.
  - destruct skip as [|skip].
    + rewrite replace_from_cons.
      destruct (match_at i r (String x s)) as [rest|]; cbv zeta.
      * generalize (String.length (String x s) - String.length rest)%nat.
        intros [|n]; simpl.
        -- apply sublist_skip, IH.
        -- apply sublist_cons, IH.
      * simpl. apply sublist_skip, IH.
    + simpl. apply sublist_cons, IH.
Qed.

(** ** [highlightError] *)

Lemma no_delimiter_cons x s :
  no_delimiter (String x s) <->
  (x <> "<"%char /\ x <> ">"%char /\ html_delimiter x = false) /\ no_delimiter s.
Proof.
  unfold no_delimiter. simpl. rewrite andb_true_iff, negb_true_iff.
  split.
  - intros [Hx Hs]. split; [|done]. split_and!; [| |done]; intros ->; done.
  - intros [(_ & _ & Hx) Hs]. done.
Qed.

Lemma without_tags_plain m rest :
  no_delimiter m -> without_tags false (m +:+ rest) = m +:+ without_tags false rest.
Proof.
  induction m as [|x m IH]; [done|].
  intros [(Hlt & _ & _) Hm]%no_delimiter_cons. simpl.
  destruct (Ascii.eqb x "<") eqn:E; [by apply Ascii.eqb_eq in E|].
  by rewrite IH.
Qed.

Lemma without_tags_strong m rest :
  no_delimiter m ->
  without_tags false (strong m +:+ rest) = m +:+ without_tags false rest.
Proof.
  intros Hm. unfold strong. rewrite !string_app_assoc.
  change (without_tags false ("<strong>" +:+ ?s)) with (without_tags false s).
  rewrite without_tags_plain by done. done.
Qed.

Lemma no_delimiter_substring s : forall n,
  no_delimiter s -> no_delimiter (String.substring 0 n s).
Proof.
  induction s as [|x s IH]; intros [|n] Hs; try done.
  apply no_delimiter_cons in Hs as [Hx Hs]. simpl.
  apply no_delimiter_cons. split; [done|]. by apply IH.
Qed.

Lemma substring_drop_chars s : forall n,
  String.substring 0 n s +:+ drop_chars n s = s.
Proof.
  induction s as [|x s IH]; intros [|n]; try done.
  simpl. by rewrite IH.
Qed.

(** Whatever the pattern, wrapping the matches in tags leaves the text as
    it was. *)
Lemma replace_strong_text i r : forall s skip,
  no_delimiter s ->
  without_tags false (replace_from i r strong skip s) = drop_chars skip s.
Proof.
  induction s as [|x s IH]; intros skip Hs.
  - destruct skip; simpl; [|done].
    destruct (match_at i r ""); done.
  - pose proof Hs as [(Hlt & _ & _) Hs']%no_delimiter_cons.
    assert (Ascii.eqb x "<" = false) as Hx.
    { destruct (Ascii.eqb x "<") eqn:E; [by apply Ascii.eqb_eq in E|done]. }
    destruct skip as [|skip]; [|simpl; by apply IH].
    rewrite replace_from_cons.
    destruct (match_at i r (String x s)) as [rest|]; cbv zeta.
    + generalize (String.length (String x s) - String.length rest)%nat.
      intros n.
      rewrite without_tags_strong by by apply no_delimiter_substring.
      destruct n as [|n]; simpl.
      * by rewrite Hx, IH.
      * rewrite IH by done. by rewrite substring_drop_chars.
    + simpl. by rewrite Hx, IH.
Qed.

Lemma string_app_split (a : string) : forall b c d : string,
  a +:+ b = c +:+ d ->
  (exists e, c = a +:+ e /\ b = e +:+ d) \/
  (exists x e, a = c +:+ String x e /\ d = String x e +:+ b).
Proof.
  induction a as [|x a IH]; intros b c d H.
  - left. by exists c.
  - destruct c as [|y c].
    + right. by exists x, a.
    + injection H as <- H. apply IH in H as [(e & -> & ->)|(z & e & -> & ->)].
      * left. by exists e.
      * right. by exists z, e.
Qed.

Lemma only_strong_tags_app a b :
  only_strong_tags a -> only_strong_tags b -> only_strong_tags (a +:+ b).
Proof.
  intros Ha Hb pre post H.
  apply string_app_split in H as [(e & -> & H)|(x & e & H1 & H2)].
  - by apply Hb in H.
  - injection H2 as <- ->. apply Ha in H1 as [rest [->| ->]].
    + exists (rest +:+ b). left. by rewrite string_app_assoc.
    + exists (rest +:+ b). right. by rewrite string_app_assoc.
Qed.

Lemma only_strong_tags_none m :
  "<"%char ∉ String.list_ascii_of_string m -> only_strong_tags m.
Proof.
  intros Hm pre post ->. exfalso. apply Hm. rewrite chars_app. simpl. set_solver.
Qed.

Lemma no_delimiter_open m :
  no_delimiter m -> "<"%char ∉ String.list_ascii_of_string m.
Proof.
  induction m as [|x m IH]; simpl; [set_solver|].
  intros [(H & _) Hm]%no_delimiter_cons. apply not_elem_of_cons. split; [done|].
  by apply IH.
Qed.

Lemma only_strong_tags_tag tag s :
  tag ∈ ["strong>"; "/strong>"]%string ->
  only_strong_tags s -> only_strong_tags (String "<" (tag +:+ s)).
Proof.
  intros Htag Hs.
  change (String "<" (tag +:+ s)) with (String "<" tag +:+ s).
  apply only_strong_tags_app; [|done].
  intros pre post H. destruct pre as [|x pre].
  - injection H as <-. exists ""%string.
    rewrite string_app_nil_r.
    apply elem_of_cons in Htag as [->|Htag]; [by left|].
    apply list_elem_of_singleton in Htag as ->. by right.
  - exfalso. injection H as _ H.
    assert ("<"%char ∈ String.list_ascii_of_string tag) as Hin.
    { rewrite H, chars_app. simpl. set_solver. }
    apply elem_of_cons in Htag as [->|Htag];
      [|apply list_elem_of_singleton in Htag as ->];
      simpl in Hin; set_solver.
Qed.

Lemma only_strong_tags_strong m s :
  no_delimiter m -> only_strong_tags s -> only_strong_tags (strong m +:+ s).
Proof.
  intros Hm Hs. unfold strong. rewrite !string_app_assoc.
  apply (only_strong_tags_tag "strong>"); [set_solver|].
  apply only_strong_tags_app; [by apply only_strong_tags_none, no_delimiter_open|].
  apply (only_strong_tags_tag "/strong>"); [set_solver|done].
Qed.

Lemma replace_strong_tags i r : forall s skip,
  no_delimiter s -> only_strong_tags (replace_from i r strong skip s).
Proof.
  induction s as [|x s IH]; intros skip Hs.
  - destruct skip; simpl; [|by apply only_strong_tags_none; set_solver].
    destruct (match_at i r ""); simpl.
    + by apply (only_strong_tags_strong "" ""), only_strong_tags_none; set_solver.
    + apply only_strong_tags_none; set_solver.
  - pose proof Hs as [Hx Hs']%no_delimiter_cons.
    assert (forall t, only_strong_tags t -> only_strong_tags (String x t)) as Hcons.
    { intros t Ht. apply (only_strong_tags_app (String x "") t); [|done].
      apply only_strong_tags_none. simpl. destruct Hx as (Hx & _). set_solver. }
    destruct skip as [|skip]; [|simpl; by apply IH].
    rewrite replace_from_cons.
    destruct (match_at i r (String x s)) as [rest|]; cbv zeta.
    + generalize (String.length (String x s) - String.length rest)%nat.
      intros n.
      apply only_strong_tags_strong; [by apply no_delimiter_substring|].
      destruct n as [|n]; [apply Hcons|]; by apply IH.
    + by apply Hcons, IH.
Qed.

(** ** Escaping, clean-up and highlighting of texts *)

(** X14. The text [escapeHtml] returns holds none of the characters [<],
    [>], double quote and single quote, and every ampersand in it opens one
    of the five entities the function writes. *)
Theorem escapeHtml_safe text :
  (forall c, c ∈ String.list_ascii_of_string (escapeHtml text) ->
     html_delimiter c = false) /\
  (forall pre post, escapeHtml text = pre +:+ String "&" post ->
     exists entity rest, post = entity +:+ rest /\
       entity ∈ ["amp;"; "lt;"; "gt;"; "quot;"; "#039;"]%string).
Proof.
  split.
  - intros c Hc. pose proof (escapeHtml_delimiters text) as H.
    rewrite forallb_forall in H. apply list_elem_of_In, H in Hc.
    by apply negb_true_iff.
  - apply escapeHtml_ampersand.
Qed.

(** X15. [escapeHtml] loses nothing: two different texts have different
    escaped texts. *)
Theorem escapeHtml_injective s t : s <> t -> escapeHtml s <> escapeHtml t.
Proof. intros Hne Heq. by apply Hne, escapeHtml_inj. Qed.

Lemma escapeHtml_injective_witness :
  escapeHtml "<" = "&lt;"%string /\ escapeHtml "&lt;" = "&amp;lt;"%string /\
  escapeHtml "<" <> escapeHtml "&lt;".
Proof.
  split; [reflexivity|]. split; [reflexivity|].
  apply escapeHtml_injective. discriminate.
Defined.

(** X16. Escaping a text a second time changes it again unless the text had
    none of the five characters to begin with, in which case escaping left
    it as it was. *)
Theorem escapeHtml_twice text :
  (escapeHtml (escapeHtml text) = escapeHtml text <-> escapeHtml text = text) /\
  (escapeHtml text = text <->
   forall c, c ∈ String.list_ascii_of_string text -> html_special c = false).
Proof.
  split; split.
  - apply escapeHtml_inj.
  - intros H. by rewrite !H.
  - intros H c Hc. apply escapeHtml_changed in H.
    rewrite forallb_forall in H. apply list_elem_of_In, H in Hc.
    by apply negb_true_iff.
  - intros H. apply escapeHtml_plain, forallb_forall.
    intros c Hc. apply negb_true_iff, H, list_elem_of_In, Hc.
Qed.

(** X17. From a text made of plain pieces and well-formed control sequences
    (the escape character, a bracket, parameters of one to three digits
    separated by semicolons, and a final [m], [K] or bar), [stripAnsiCodes]
    removes every control sequence and keeps the plain pieces as they
    are. *)
Theorem stripAnsiCodes_pieces pieces :
  Forall well_formed pieces ->
  stripAnsiCodes (concat_all (map render pieces)) = concat_all (map plain pieces).
Proof. apply stripAnsiCodes_pieces_eq. Qed.

Lemma stripAnsiCodes_pieces_witness :
  Forall well_formed
    [Code ["1"; "31"]%string "m"; Text "Error: "; Code [] "K"; Text "timeout";
     Code ["0"]%string "|"] /\
  stripAnsiCodes
    (String ESC "[1;31mError: " +:+ String ESC "[Ktimeout" +:+ String ESC "[0|")
  = "Error: timeout"%string.
Proof.
  assert (Forall well_formed
            [Code ["1"; "31"]%string "m"; Text "Error: "; Code [] "K";
             Text "timeout"; Code ["0"]%string "|"]) as Hwf.
  { repeat constructor; try (simpl; lia); try set_solver;
      apply (bool_decide_unpack _); vm_compute; reflexivity. }
  split; [exact Hwf|].
  exact (stripAnsiCodes_pieces _ Hwf).
Defined.

(** X18. [stripAnsiCodes] only removes characters: what it returns is the
    text it was given with some characters left out, in the same order, and
    a text without an escape character is returned as it is. *)
Theorem stripAnsiCodes_removes str :
  sublist (String.list_ascii_of_string (stripAnsiCodes str))
    (String.list_ascii_of_string str) /\
  (ESC ∉ String.list_ascii_of_string str -> stripAnsiCodes str = str).
Proof.
  split.
  - apply replace_removes.
  - intros Hplain. rewrite <- (string_app_nil_r str) at 1.
    rewrite stripAnsiCodes_text by done. by rewrite stripAnsiCodes_nil, string_app_nil_r.
Qed.

(** X19. One pass of [stripAnsiCodes] can leave a control sequence behind:
    when a well-formed sequence stands between the two opening characters
    and the final character of another, removing it joins these into a
    sequence, which stays in the result. *)
Theorem stripAnsiCodes_nested numbers final :
  well_formed (Code numbers final) ->
  stripAnsiCodes (String ESC (String "[" (render (Code numbers final) +:+ "m")))
  = render (Code [] "m") /\
  stripAnsiCodes (render (Code [] "m")) = ""%string.
Proof.
  intros Hcode. split; [|reflexivity].
  unfold stripAnsiCodes.
  rewrite replace_no_match by reflexivity.
  rewrite replace_no_match by (by apply match_at_plain).
  pose proof (stripAnsiCodes_code numbers final "m" Hcode) as H.
  unfold stripAnsiCodes in H. rewrite H. reflexivity.
Qed.

Lemma stripAnsiCodes_nested_witness :
  well_formed (Code ["31"]%string "m") /\
  stripAnsiCodes (String ESC (String "[" (String ESC "[31mm")))
  = String ESC "[m".
Proof.
  assert (well_formed (Code ["31"]%string "m")) as Hwf.
  { repeat constructor; try (simpl; lia); set_solver. }
  split; [exact Hwf|].
  exact (proj1 (stripAnsiCodes_nested _ _ Hwf)).
Defined.

(** X20. [highlightError] only adds tags to the escaped error text: without
    its tags the result is the escaped text, and every opening angle bracket
    in it opens a [<strong>] or [</strong>] tag. *)
Theorem highlightError_markup errorText :
  without_tags false (highlightError errorText) = escapeHtml errorText /\
  only_strong_tags (highlightError errorText).
Proof.
  unfold highlightError, replace. split.
  - apply (replace_strong_text true error_keywords _ 0), escapeHtml_delimiters.
  - apply replace_strong_tags, escapeHtml_delimiters.
Qed.

(** ** File names of stored blobs *)

Lemma split_plain sep s :
  sep ∉ String.list_ascii_of_string s -> split sep s = [s].
Proof.
  induction s as [|c s IH]; [done|]. simpl.
  intros [Hc Hs]%not_elem_of_cons.
  destruct (Ascii.eqb_spec c sep) as [->|_]; [done|].
  by rewrite IH.
Qed.

Lemma split_at sep t rest :
  sep ∉ String.list_ascii_of_string t ->
  split sep (t +:+ String sep rest) = t :: split sep rest.
Proof.
  induction t as [|c t IH]; simpl.
  - intros _. by rewrite Ascii.eqb_refl.
  - intros [Hc Ht]%not_elem_of_cons.
    destruct (Ascii.eqb_spec c sep) as [->|_]; [done|].
    by rewrite IH.
Qed.

(** X21. The extension of a stored blob is the subtype of the declared
    content type: for a type and a subtype without a slash it is the
    subtype, or [bin] when the subtype is empty; a content type without a
    slash gives [bin] as well. *)
Theorem extension_of_content_type type subtype :
  "/"%char ∉ String.list_ascii_of_string type ->
  "/"%char ∉ String.list_ascii_of_string subtype ->
  extension (type +:+ "/" +:+ subtype)
  = (if String.eqb subtype "" then "bin"%string else subtype) /\
  extension type = "bin"%string.
Proof.
  intros Htype Hsub. unfold extension. split.
  - change (type +:+ "/" +:+ subtype) with (type +:+ String "/" subtype).
    rewrite split_at, split_plain by done. reflexivity.
  - rewrite split_plain by done. reflexivity.
Qed.

Lemma extension_of_content_type_witness :
  ("/"%char ∉ String.list_ascii_of_string "image") /\
  ("/"%char ∉ String.list_ascii_of_string "png") /\
  extension "image/png" = "png"%string /\ extension "image" = "bin"%string.
Proof.
  assert ("/"%char ∉ String.list_ascii_of_string "image") as H1
    by (apply (bool_decide_unpack _); vm_compute; reflexivity).
  assert ("/"%char ∉ String.list_ascii_of_string "png") as H2
    by (apply (bool_decide_unpack _); vm_compute; reflexivity).
  split; [exact H1|]. split; [exact H2|].
  exact (extension_of_content_type "image" "png" H1 H2).
Defined.

(** ** Titles *)

Lemma prefix_app (sep rest : string) : String.prefix sep (sep +:+ rest) = true.
Proof.
  induction sep as [|c sep IH]; simpl; [by destruct rest|].
  destruct (Ascii.ascii_dec c c); [exact IH|done].
Qed.

Lemma prefix_split (sep s : string) :
  String.prefix sep s = true -> exists rest, s = sep +:+ rest.
Proof.
  revert s. induction sep as [|c sep IH]; intros s.
  - intros _. by exists s.
  - destruct s as [|c' s]; [done|]. simpl.
    destruct (Ascii.ascii_dec c c') as [->|]; [|done].
    intros H. apply IH in H as [rest ->]. exists rest. reflexivity.
Qed.

Lemma split_on_from_skip sep (m rest : string) :
  split_on_from sep (String.length m) (m +:+ rest) = split_on_from sep 0 rest.
Proof. induction m as [|x m IH]; simpl; [by destruct rest|done]. Qed.

Lemma split_on_from_cons sep x s :
  split_on_from sep 0 (String x s) =
    if String.prefix sep (String x s)
    then EmptyString :: split_on_from sep (String.length sep - 1) s
    else match split_on_from sep 0 s with
         | piece :: pieces => String x piece :: pieces
         | [] => [String x EmptyString]
         end.
Proof. reflexivity. Qed.

Lemma split_on_sep c sep rest :
  split_on (String c sep) (String c sep +:+ rest)
  = EmptyString :: split_on (String c sep) rest.
Proof.
  unfold split_on.
  change (String c sep +:+ rest) with (String c (sep +:+ rest)).
  rewrite split_on_from_cons.
  change (String c (sep +:+ rest)) with (String c sep +:+ rest).
  rewrite prefix_app.
  replace (String.length (String c sep) - 1)%nat with (String.length sep)
    by (simpl; lia).
  by rewrite split_on_from_skip.
Qed.

Lemma split_on_char sep x s :
  String.prefix sep (String x s) = false ->
  split_on sep (String x s) =
    match split_on sep s with
    | piece :: pieces => String x piece :: pieces
    | [] => [String x EmptyString]
    end.
Proof. intros H. unfold split_on. by rewrite split_on_from_cons, H. Qed.

Lemma split_on_nonempty sep : forall skip s, split_on_from sep skip s <> [].
Proof.
  intros skip s. revert skip. induction s as [|x s IH]; intros [|skip]; try done.
  - rewrite split_on_from_cons.
    destruct (String.prefix sep (String x s)); [done|].
    specialize (IH 0%nat). by destruct (split_on_from sep 0 s).
  - apply IH.
Qed.

(** Joining the pieces with the separator gives the string back. *)
Lemma join_split_on c sep (s : string) :
  join (String c sep) (split_on (String c sep) s) = s.
Proof.
  remember (String.length s) as n eqn:Hn.
  revert s Hn. induction n as [n IH] using lt_wf_ind. intros s Hn.
  destruct s as [|x s]; [done|].
  destruct (String.prefix (String c sep) (String x s)) eqn:Hp.
  - apply prefix_split in Hp as [rest Hrest]. rewrite Hrest, split_on_sep.
    pose proof (split_on_nonempty (String c sep) 0 rest) as Hne.
    unfold split_on in *.
    assert (join (String c sep) (split_on_from (String c sep) 0 rest) = rest) as Hrec.
    { apply (IH (String.length rest)); [|done].
      rewrite Hn, Hrest, string_length_app. simpl. lia. }
    destruct (split_on_from (String c sep) 0 rest) as [|piece pieces]; [done|].
    change (join (String c sep) ("" :: piece :: pieces))
      with (String c sep +:+ join (String c sep) (piece :: pieces)).
    by rewrite Hrec.
  - rewrite split_on_char by done.
    pose proof (split_on_nonempty (String c sep) 0 s) as Hne.
    assert (join (String c sep) (split_on (String c sep) s) = s) as Hrec.
    { apply (IH (String.length s)); [|done]. rewrite Hn. simpl. lia. }
    unfold split_on in *.
    destruct (split_on_from (String c sep) 0 s) as [|piece [|piece' pieces]];
      [done| |].
    + simpl in *. by rewrite Hrec.
    + change (join (String c sep) (String x piece :: piece' :: pieces))
        with (String x (piece +:+ String c sep +:+ join (String c sep) (piece' :: pieces))).
      f_equal. exact Hrec.
Qed.

Lemma prefix_shorter (sep a b : string) :
  (String.length sep <= String.length a)%nat ->
  String.prefix sep (a +:+ b) = String.prefix sep a.
Proof.
  revert a. induction sep as [|c sep IH]; intros a Hlen.
  - destruct a; [by destruct b|done].
  - destruct a as [|x a]; [simpl in Hlen; lia|]. simpl.
    destruct (Ascii.ascii_dec c x); [|done]. apply IH. simpl in Hlen. lia.
Qed.

(** A piece that ends before the separator is split off whole. *)
Lemma split_on_piece c sep (p rest : string) :
  ends_before (String c sep) p ->
  split_on (String c sep) (p +:+ String c sep +:+ rest)
  = p :: split_on (String c sep) rest.
Proof.
  revert rest. induction p as [|x p IH]; intros rest Hp.
  - apply split_on_sep.
  - assert (String.prefix (String c sep) (String x p +:+ String c sep +:+ rest) = false)
      as Hfirst.
    { rewrite <- string_app_assoc, prefix_shorter.
      - apply (Hp 0%nat). simpl. lia.
      - rewrite string_length_app. simpl. lia. }
    change (String x p +:+ String c sep +:+ rest)
      with (String x (p +:+ String c sep +:+ rest)) in *.
    rewrite split_on_char by done. rewrite IH; [done|].
    intros i Hi. apply (Hp (S i)). simpl. lia.
Qed.

Lemma split_on_whole c sep (p : string) :
  ends_before (String c sep) p -> split_on (String c sep) p = [p].
Proof.
  induction p as [|x p IH]; intros Hp; [done|].
  assert (String.prefix (String c sep) (String x p) = false) as Hfirst.
  { destruct (String.prefix (String c sep) (String x p)) eqn:E; [|done].
    apply prefix_split in E as [rest E].
    assert (0 < String.length (String x p))%nat as H0 by (simpl; lia).
    pose proof (Hp 0%nat H0) as Hp0.
    change (drop_chars 0 (String x p +:+ String c sep))
      with (String x p +:+ String c sep) in Hp0.
    rewrite E, string_app_assoc, prefix_app in Hp0. done. }
  rewrite split_on_char by done. rewrite IH; [done|].
  intros i Hi. apply (Hp (S i)). simpl. lia.
Qed.

(** X22. The title a test is shown under is its full title without the
    first segment, the project: when the name of the project, followed by
    the separator, holds the separator nowhere before its end, [testTitle]
    of the full title is the rest of the title path joined by the
    separator, whatever the other segments hold. *)
Theorem testTitle_drops_project root project rest :
  ends_before " > " project ->
  testTitle (fullTitle (root :: project :: rest)) = join " > " rest.
Proof.
  intros Hproject. unfold testTitle, fullTitle.
  change (drop 1 (root :: project :: rest)) with (project :: rest).
  destruct rest as [|r rest].
  - change (join " > " [project]) with project.
    by rewrite (split_on_whole " " "> ").
  - change (join " > " (project :: r :: rest))
      with (project +:+ " > " +:+ join " > " (r :: rest)).
    rewrite (split_on_piece " " "> ") by done.
    change (drop 1 (project :: ?l)) with l.
    apply (join_split_on " " "> ").
Qed.

Lemma testTitle_drops_project_witness :
  ends_before " > " "chromium" /\
  testTitle (fullTitle [""; "chromium"; "login.spec.ts"; "signs > in"]%string)
  = "login.spec.ts > signs > in"%string.
Proof.
  assert (ends_before " > " "chromium") as Hp.
  { intros i Hi. simpl in Hi.
    do 8 (destruct i as [|i]; [reflexivity|]). lia. }
  split; [exact Hp|].
  exact (testTitle_drops_project "" "chromium" ["login.spec.ts"; "signs > in"]%string Hp).
Defined.

(** A project whose name ends in a space and an angle bracket: the
    separator is found two characters early and the title shown starts
    inside what follows. *)
Example testTitle_early_separator :
  testTitle (fullTitle [""; "a >"; "x.spec.ts"; "t"]%string) = "> x.spec.ts > t"%string.
Proof. reflexivity. Qed.
